(** * pkgcore: profiles, package updates, repository filtering, agent RPC

    A shallow embedding of the parts of pkgcore that the specification
    makes checkable statements about:

    - [pkgcore.ebuild.pkg_updates]: [_scan_directory], [_process_update],
      [read_updates];
    - [pkgcore.ebuild.profiles]: [split_negations], [load_decorator], the
      [ProfileNode] loaders and [__getattr__], [OnDiskProfile._collapse_generic],
      [_collapse_masks], [_collapse_env];
    - [pkgcore.ebuild.repository]: [UnconfiguredTree._pkg_filter];
    - [pkgcore.util.agentrpc]: [JsonRPC.read], [JsonRPC.write],
      [agent_rpc_call];

    and of the code around them:

    - [pkgcore.ebuild.profiles]: [OnDiskProfile._load_stack],
      [_collapse_virtuals], [use_expand], [use_expand_hidden];
    - [pkgcore.ebuild.repository]: [_sort_eclasses], [ProvidesRepo],
      [UnconfiguredTree._get_categories], [_get_versions],
      [_get_ebuild_path], [_visibility_limiters], and the settings read by
      the constructor of [ConfiguredTree].

    Python exceptions are values of [exn]; a computation that may raise
    returns a [result].  Mutable objects (deques, instance dictionaries, the
    [_masked] repository) are threaded explicitly. *)

From Stdlib Require Import Ascii String Strings.Byte ZArith NArith Lia.
From stdpp Require Import gmap strings list sorting.

(** ** Exceptions and the error monad *)

Inductive exn :=
| IndexError
| ValueError (msg : string)
| KeyError
| TypeError
| AttributeError
| AssertionError
| StructError
| OSError
| FileNotFoundError
| MalformedAtom
| PlainException (msg : string)
| KeyboardInterrupt
| RuntimeError
| SystemExit
| ProfileError (path filename : string) (cause : exn)
| GenericBuildError (msg : string).

Inductive result (A : Type) :=
| Ok (a : A)
| Raise (e : exn).
Arguments Ok {A} a.
Arguments Raise {A} e.

#[export] Instance result_ret : MRet result := λ A a, Ok a.
#[export] Instance result_bind : MBind result := λ A B f m,
  match m with
  | Ok a => f a
  | Raise e => Raise e
  end.

(** Left-to-right loop with early exit on the first exception: the shape of
    a Python [for] loop whose body may raise. *)
Fixpoint foldM {A S} (f : S → A → result S) (s : S) (l : list A) : result S :=
  match l with
  | [] => Ok s
  | x :: l' => s' ← f s x; foldM f s' l'
  end.

(** ** Python string helpers *)

(** [str.isspace] on the ASCII range. *)
Definition is_space (c : ascii) : bool :=
  let n := nat_of_ascii c in
  ((9 <=? n)%nat && (n <=? 13)%nat) || ((28 <=? n)%nat && (n <=? 32)%nat).

(** [str.split()] with no separator: split on runs of white space. *)
Fixpoint split_go (cur : option string) (s : string) : list string :=
  match s with
  | EmptyString => option_list (String.rev <$> cur)
  | String c s' =>
      if is_space c
      then option_list (String.rev <$> cur) ++ split_go None s'
      else split_go (Some (String c (default "" cur))) s'
  end.
Definition str_split (s : string) : list string := split_go None s.

Definition is_digit (c : ascii) : bool :=
  let n := nat_of_ascii c in (48 <=? n)%nat && (n <=? 57)%nat.

Definition digit_val (c : ascii) : nat := nat_of_ascii c - 48.

(** Value of a string of decimal digits, most significant first. *)
Fixpoint digits_val_go (acc : nat) (s : string) : nat :=
  match s with
  | EmptyString => acc
  | String c s' => digits_val_go (10 * acc + digit_val c) s'
  end.
Definition digits_val (s : string) : nat := digits_val_go 0 s.

Fixpoint all_digits (s : string) : bool :=
  match s with
  | EmptyString => true
  | String c s' => is_digit c && all_digits s'
  end.

(** ** pkgcore.ebuild.pkg_updates *)

Module PkgUpdates.

(** The [atom] class lives in [pkgcore.ebuild.atom]; only its constructor
    and the attributes read by [_process_update] are needed, so they form an
    interface.  [atom s] raises (typically [MalformedAtom]) on a bad token. *)
Class AtomOps (A : Type) := {
  atom : string → result A;
  key : A → string;
  fullver : A → option string;
  slot : A → option string;
  atom_str : A → string;
}.

(** [valid_updates_re = r"^(\d)Q-(\d{4})$"], used through [.match]: the
    groups are (quarter, year).  Python's [$] also matches just before a
    final newline.  File names are modelled as ASCII strings. *)
Definition valid_updates_re_match (x : string) : option (string * string) :=
  match x with
  | String q (String c1 (String c2
      (String y1 (String y2 (String y3 (String y4 rest)))))) =>
      if is_digit q && bool_decide (c1 = "Q"%char)
         && bool_decide (c2 = "-"%char)
         && is_digit y1 && is_digit y2 && is_digit y3 && is_digit y4
         && (bool_decide (rest = "") || bool_decide (rest = String "010" ""))
      then Some (String q "", String y1 (String y2 (String y3 (String y4 ""))))
      else None
  | _ => None
  end.

(** Comparison of the sort keys [(match.group(2), match.group(1))]: tuples
    of strings, compared lexicographically by code point. *)
Definition key_le (a b : string * string) : bool :=
  match String.compare a.1 b.1 with
  | Lt => true
  | Eq => String.leb a.2 b.2
  | Gt => false
  end.

(** [list.sort(key=...)] is stable; a stable insertion sort computes the
    same list. *)
Fixpoint sort_insert {T} (x : (string * string) * T)
    (l : list ((string * string) * T)) : list ((string * string) * T) :=
  match l with
  | [] => [x]
  | y :: l' => if key_le x.1 y.1 then x :: y :: l' else y :: sort_insert x l'
  end.
Definition sort_by_key {T} (l : list ((string * string) * T)) :=
  foldr sort_insert [] l.

Definition _scan_directory (listing : list string) : list string :=
  let files :=
    omap (λ x, (λ m : string * string, ((m.2, m.1), x))
                 <$> valid_updates_re_match x) listing in
  snd <$> sort_by_key files.

(** A directory: [None] when the path does not exist, otherwise the regular
    files in listing order with their lines. *)
Definition directory := option (list (string * list string)).

Definition listdir_files (dir : directory) : result (list string) :=
  match dir with
  | None => Raise FileNotFoundError
  | Some fs => Ok (fst <$> fs)
  end.

Definition readlines (dir : directory) (fp : string) : result (list string) :=
  match dir with
  | None => Raise FileNotFoundError
  | Some fs =>
      match list_find (λ f, f.1 = fp) fs with
      | Some (_, f) => Ok f.2
      | None => Raise FileNotFoundError
      end
  end.

Section updates.
Context {A : Type} `{AtomOps A}.

(** The tuples appended to the deques. *)
Inductive command :=
| Move (src trg : A)
| SlotMove (src_slot : A) (new_slot : string).

(** A deque holds command tuples and references to other deques. *)
Inductive item :=
| ICmd (c : command)
| IRef (d : nat).

Inductive log_level := LError | LWarning.
Inductive log_msg :=
| BadMoveForm
| MustBeVersionless (a : A)
| AlreadyMoved (src trg : A)
| BadSlotmoveForm
| SlottedSlotmove.
Record log_record := LogRecord {
  log_lvl : log_level;
  log_what : log_msg;
  log_file : string;
  log_lineno : nat;
  log_raw : string;
}.

(** [heap] is the store of deques, addressed by allocation index; [mods]
    maps a key to its [[head, tail]] pair; [moved] is the dict of the same
    name; [logged] collects the logger calls. *)
Record state := State {
  heap : list (list item);
  mods : gmap string (nat * nat);
  moved : gmap string A;
  logged : list log_record;
}.

Definition init : state := State [] ∅ ∅ [].

Definition emit (r : log_record) (st : state) : state :=
  State (heap st) (mods st) (moved st) (logged st ++ [r]).

(** [deque()] *)
Definition alloc (st : state) : nat * state :=
  (length (heap st),
   State (heap st ++ [[]]) (mods st) (moved st) (logged st)).

(** [mods[k]] on the [defaultdict(f)]: a missing key gets [[d, d]] for a
    fresh deque [d]. *)
Definition mods_get (k : string) (st : state) : (nat * nat) * state :=
  match mods st !! k with
  | Some v => (v, st)
  | None =>
      let '(d, st') := alloc st in
      ((d, d), State (heap st') (<[k := (d, d)]> (mods st')) (moved st')
                 (logged st'))
  end.

(** [dq.extend(xs)] (and [dq.append(x)] for a singleton). *)
Definition extend (dq : nat) (xs : list item) (st : state) : state :=
  State (alter (λ l, l ++ xs) dq (heap st)) (mods st) (moved st) (logged st).

(** [mods[k][1] = d] *)
Definition set_tail (k : string) (d : nat) (st : state) : state :=
  State (heap st) (alter (λ v, (v.1, d)) k (mods st)) (moved st) (logged st).

Definition set_moved (k : string) (trg : A) (st : state) : state :=
  State (heap st) (mods st) (<[k := trg]> (moved st)) (logged st).

(** The body of the loop of [_process_update] for one line. *)
Definition process_line (filename : string) (st : state)
    (ln : nat * string) : result state :=
  let '(lineno, raw_line) := ln in
  let say lvl what := emit (LogRecord lvl what filename lineno raw_line) st in
  match str_split raw_line with
  | [] => Raise IndexError
  | cmd :: args =>
      if decide (cmd = "move") then
        match args with
        | [s; t] =>
            src ← atom s;
            trg ← atom t;
            if fullver src is Some _ then
              Ok (say LError (MustBeVersionless src))
            else if fullver trg is Some _ then
              Ok (say LError (MustBeVersionless trg))
            else
              match moved st !! key src with
              | Some to => Ok (say LWarning (AlreadyMoved src to))
              | None =>
                  let '(d, st) := alloc st in
                  let '((_, tl), st) := mods_get (key src) st in
                  let st := extend tl [ICmd (Move src trg); IRef d] st in
                  let '((_, tl'), st) := mods_get (key trg) st in
                  let st := extend tl' [IRef d] st in
                  let st := set_tail (key trg) d st in
                  Ok (set_moved (key src) trg st)
              end
        | _ => Ok (say LError BadMoveForm)
        end
      else if decide (cmd = "slotmove") then
        match args with
        | [a; old_slot; new_slot] =>
            src ← atom a;
            match moved st !! key src with
            | Some to => Ok (say LWarning (AlreadyMoved src to))
            | None =>
                if slot src is Some _ then Ok (say LError SlottedSlotmove)
                else
                  src_slot ← atom (atom_str src +:+ ":" +:+ old_slot);
                  trg_slot ← atom (key src +:+ ":" +:+ new_slot);
                  let '((_, tl), st) := mods_get (key src) st in
                  Ok (extend tl [ICmd (SlotMove src_slot new_slot)] st)
            end
        | _ => Ok (say LError BadSlotmoveForm)
        end
      else Ok st
  end.

(** [enumerate(sequence, 1)] *)
Definition enumerate1 {T} (l : list T) : list (nat * T) :=
  zip (seq 1 (length l)) l.

(** A [for] loop whose body may raise.  The loop stops at the first
    exception, and the state reached by then is returned with it: the dicts
    and deques of the source are changed in place and keep what the earlier
    turns did. *)
Fixpoint for_each {X} (body : state → X → state * option exn) (st : state)
    (l : list X) : state * option exn :=
  match l with
  | [] => (st, None)
  | x :: l' =>
      match body st x with
      | (st', None) => for_each body st' l'
      | (st', Some e) => (st', Some e)
      end
  end.

(** One turn of the loop over the lines.  A line that raises does so at
    [line[0]] or in a call of [atom], before it changes anything. *)
Definition line_turn (filename : string) (st : state) (ln : nat * string)
    : state * option exn :=
  match process_line filename st ln with
  | Ok st' => (st', None)
  | Raise e => (st, Some e)
  end.

Definition _process_update (sequence : list string) (filename : string)
    (st : state) : state * option exn :=
  for_each (line_turn filename) st (enumerate1 sequence).

(** [iflatten_instance(dq, tuple)]: depth-first, left-to-right; tuples are
    yielded, nested deques are expanded.  The recursion follows references
    through the store, so it is bounded by [fuel]; [None] means the bound
    was hit. *)
Fixpoint iflatten_instance (fuel : nat) (h : list (list item)) (d : nat)
    : option (list command) :=
  match fuel with
  | 0 => None
  | S fuel' =>
      its ← h !! d;
      ls ← mapM (λ it, match it with
                      | ICmd c => Some [c]
                      | IRef d' => iflatten_instance fuel' h d'
                      end) its;
      Some (mjoin ls)
  end.

(** One turn of the loop over the files. *)
Definition file_turn (dir : directory) (st : state) (fp : string)
    : state * option exn :=
  match readlines dir fp with
  | Ok ls => _process_update ls fp st
  | Raise e => (st, Some e)
  end.

(** The body of the [try] block of [read_updates]: every file of
    [_scan_directory], in that order, until something raises. *)
Definition process_directory (dir : directory) : state * option exn :=
  match listdir_files dir with
  | Ok files => for_each (file_turn dir) init (_scan_directory files)
  | Raise e => (init, Some e)
  end.

(** The two dict comprehensions closing [read_updates]. *)
Definition flatten_mods (fuel : nat) (st : state)
    : gmap string (option (list command)) :=
  (λ v : nat * nat, iflatten_instance fuel (heap st) v.1) <$> mods st.

Definition nonempty (o : option (list command)) : option (list command) :=
  match o with
  | Some (c :: l) => Some (c :: l)
  | _ => None
  end.

(** The result is [None] only if flattening ran out of fuel; a move adds
    one deque and two references to it, so twice the number of deques (and
    one) is always enough ([UpdateFacts.read_updates_total]). *)
Definition commands_of (st : state)
    : option (result (gmap string (list command))) :=
  let commands := flatten_mods (S (2 * length (heap st))) st in
  if decide (map_Forall (λ _ o, is_Some o) commands)
  then Some (Ok (omap nonempty commands))
  else None.

(** [read_updates(path)]: [except FileNotFoundError: pass] goes on with
    what was read before the exception, any other exception leaves the
    function. *)
Definition read_updates (dir : directory)
    : option (result (gmap string (list command))) :=
  let '(st, err) := process_directory dir in
  match err with
  | None | Some FileNotFoundError => commands_of st
  | Some e => Some (Raise e)
  end.

End updates.
End PkgUpdates.

(** ** A small concrete atom syntax

    Enough of the atom grammar to run the update reader on examples:
    [cat/pkg], [cat/pkg:slot] and the versioned form [=cat/pkg-ver]. *)

Module SimpleAtom.
Import PkgUpdates.

Record t := Atom {
  a_key : string;
  a_fullver : option string;
  a_slot : option string;
}.

Fixpoint split_colon (acc s : string) : string * option string :=
  match s with
  | EmptyString => (String.rev acc, None)
  | String c s' =>
      if decide (c = ":"%char) then (String.rev acc, Some s')
      else split_colon (String c acc) s'
  end.

Definition parse (s : string) : result t :=
  match s with
  | EmptyString => Raise MalformedAtom
  | String c s' =>
      if decide (c = "="%char) then
        let '(k, sl) := split_colon "" s' in Ok (Atom k (Some "0") sl)
      else
        let '(k, sl) := split_colon "" s in Ok (Atom k None sl)
  end.

Definition to_string (a : t) : string :=
  match a_slot a with
  | Some sl => a_key a +:+ ":" +:+ sl
  | None => a_key a
  end.

#[export] Instance ops : AtomOps t := {|
  atom := parse;
  key := a_key;
  fullver := a_fullver;
  slot := a_slot;
  atom_str := to_string;
|}.

End SimpleAtom.

(** ** pkgcore.ebuild.profiles: list-style files *)

Module Profiles.

(** [line[0]] *)
Definition str_head (line : string) : result ascii :=
  match line with
  | EmptyString => Raise IndexError
  | String c _ => Ok c
  end.

(** [line[i]] for the second character *)
Definition str_second (line : string) : result ascii :=
  match line with
  | String _ (String c _) => Ok c
  | _ => Raise IndexError
  end.

(** [line[n:]] *)
Fixpoint str_drop (n : nat) (s : string) : string :=
  match n, s with
  | S n', String _ s' => str_drop n' s'
  | _, _ => s
  end.

(** [split_negations(data, func)]: the loop with its two accumulators. *)
Fixpoint split_negations_go {T} (func : string → result T)
    (data : list string) (neg pos : list T) : result (list T * list T) :=
  match data with
  | [] => Ok (neg, pos)
  | line :: data' =>
      c ← str_head line;
      if decide (c = "-"%char) then
        if decide (String.length line = 1) then
          Raise (ValueError "'-' negation without a token")
        else
          x ← func (str_drop 1 line);
          split_negations_go func data' (neg ++ [x]) pos
      else
        x ← func line;
        split_negations_go func data' neg (pos ++ [x])
  end.

Definition split_negations {T} (data : list string)
    (func : string → result T) : result (list T * list T) :=
  split_negations_go func data [] [].

(** The default [func=str]. *)
Definition str_func (s : string) : result string := Ok s.

(** The [except] clauses of [load_decorator]: what leaves [f2] when the
    body raised [e]. *)
Definition reraise (path filename : string) (e : exn) : exn :=
  match e with
  | KeyboardInterrupt | RuntimeError | SystemExit => e
  | ProfileError _ _ _ => e
  | _ => ProfileError path filename e
  end.

Definition pjoin (a b : string) : string := a +:+ "/" +:+ b.

(** What the file system answers.  [read_file p] is
    [readlines_utf8(p, True, True, True)]: [Ok None] for a missing file,
    [Ok (Some lines)] otherwise, or an I/O exception.  The same outcome type
    serves [open(p)] in [_load_default_env] ([Ok None] is [ENOENT]). *)
Record disk := Disk {
  read_file : string → result (option (list string));
  path_exists : string → bool;
  isdir : string → bool;
}.

(** [s.lstrip()], [s.strip()], [s.lstrip("#")] and [sep.join(l)]. *)
Fixpoint lstrip (s : string) : string :=
  match s with
  | String c s' => if is_space c then lstrip s' else s
  | EmptyString => s
  end.
Definition strip (s : string) : string :=
  String.rev (lstrip (String.rev (lstrip s))).
Fixpoint lstrip_hash (s : string) : string :=
  match s with
  | String c s' => if decide (c = "#"%char) then lstrip_hash s' else s
  | EmptyString => s
  end.
Fixpoint join (sep : string) (l : list string) : string :=
  match l with
  | [] => ""
  | [x] => x
  | x :: l' => x +:+ sep +:+ join sep l'
  end.

(** [s.isdigit()] on ASCII strings. *)
Definition isdigit (s : string) : bool :=
  negb (bool_decide (s = "")) && all_digits s.

(** *** ProfileNode *)

(** The restriction a chunk is scoped to: an atom, or
    [packages.AlwaysTrue]. *)
Inductive restriction (A : Type) :=
| RAtom (a : A)
| RAlwaysTrue.
Arguments RAtom {A} a.
Arguments RAlwaysTrue {A}.

(** [chunked_data(key, neg, pos)] *)
Record chunked_data (A : Type) := Chunk {
  chunk_key : restriction A;
  chunk_neg : list string;
  chunk_pos : list string;
}.
Arguments Chunk {A}.

(** What the modules outside [profiles.py] provide: atom and CPV parsing
    (by EAPI), the payload builder of [pkgcore.ebuild.misc], the bash
    readers of snakeoil, and constants. *)
Class Env (A C : Type) := {
  eapi_capable : list nat;
  has_eapi_atom : string → bool;
  eapi_atom : string → string → bool → result A;
  atom_atom : string → result A;
  atom_key : A → string;
  versioned_CPV : string → result C;
  CPV_unversioned_package : string → result string;
  _build_cp_atom_payload : list (chunked_data A) → A → list (chunked_data A);
  iter_read_bash : list string → list string;
  read_bash_dict : list string → result (gmap string string);
  abspath : string → string;
}.

Section node.
Context {A C : Type} `{Env A C}.

(** The keys of a USE dictionary: a [cat/pkg] string, or [None] for the
    [packages.AlwaysTrue] object. *)
Definition use_dict := gmap (option string) (list (chunked_data A)).

(** The values stored in a node's attributes.  The [bool] of the two
    dictionary shapes tells an [ImmutableDict] ([true]) from a plain
    [dict] ([false]). *)
Inductive value :=
| VNone
| VStr (s : string)
| VAtomKls (eapi : string)
| VAtoms (neg pos : list A)
| VCpvs (neg pos : list C)
| VParents (paths : list string)
| VVirtuals (immutable : bool) (d : gmap string A)
| VEnv (immutable : bool) (d : gmap string string)
| VUse (d : use_dict)
| VDeprecated (replacement msg : string)
| VSource (path : string).

(** Python's [==] on these values: [ImmutableDict] is a [dict] subclass
    and compares by content. *)
Definition py_eq (v w : value) : Prop :=
  match v, w with
  | VVirtuals _ d, VVirtuals _ d' => d = d'
  | VEnv _ d, VEnv _ d' => d = d'
  | _, _ => v = w
  end.

(** The instance [__dict__]. *)
Abbreviation inst_dict := (gmap string value).

(** Methods of a node: they read and write the instance dictionary and may
    raise. *)
Record M (X : Type) := MkM { runM : inst_dict → result X * inst_dict }.
Arguments MkM {X} _.
Arguments runM {X} _ _.

#[export] Instance M_ret : MRet M := λ X x, MkM (λ s, (Ok x, s)).
#[export] Instance M_bind : MBind M := λ X Y f m,
  MkM (λ s, match runM m s with
            | (Ok x, s') => runM (f x) s'
            | (Raise e, s') => (Raise e, s')
            end).

Definition raise {X} (e : exn) : M X := MkM (λ s, (Raise e, s)).
Definition lift {X} (r : result X) : M X := MkM (λ s, (r, s)).
(** [self.attr = v] *)
Definition setattr (attr : string) (v : value) : M unit :=
  MkM (λ s, (Ok tt, <[attr := v]> s)).
(** [try: body except e: raise handler(e)] *)
Definition try_with {X} (body : M X) (handler : exn → exn) : M X :=
  MkM (λ s, match runM body s with
            | (Raise e, s') => (Raise (handler e), s')
            | r => r
            end).
(** A [for] loop over [l] threading an accumulator. *)
Fixpoint forM {X S} (f : S → X → M S) (acc : S) (l : list X) : M S :=
  match l with
  | [] => mret acc
  | x :: l' => acc' ← f acc x; forM f acc' l'
  end.

(** Normal attribute lookup comes first; [__getattr__] (here [fallback])
    runs only when the instance has no such attribute. *)
Definition lookup_or (attr : string) (fallback : M value) : M value :=
  MkM (λ s, match s !! attr with
            | Some v => (Ok v, s)
            | None => runM fallback s
            end).

Variable dk : disk.
Variable path : string.

(** [load_decorator(filename, handler, fallback)(func)] *)
Definition load_decorator {D X} (filename : string)
    (handler : list string → D) (fallback : D) (func : D → M X) : M X :=
  try_with
    (data ← lift (read_file dk (pjoin path filename));
     match data with
     | None => func fallback
     | Some lines => func (handler lines)
     end)
    (reraise path filename).

Definition _load_eapi : M value :=
  load_decorator "eapi" iter_read_bash ["0"%string] (λ data,
    let data := filter (λ x, x ≠ ""%string) (strip <$> data) in
    match data with
    | [e] =>
        if isdigit e && bool_decide (digits_val e ∈ eapi_capable) then
          _ ← setattr "eapi" (VStr e); mret (VStr e)
        else
          raise (ProfileError path "eapi"
                   (PlainException ("unsupported eapi: " +:+ e)))
    | _ => raise (ProfileError path "eapi"
                    (PlainException "multiple lines detected"))
    end).

Definition get_eapi : M value := lookup_or "eapi" _load_eapi.

Definition _load_eapi_atom : M value :=
  e ← get_eapi;
  match e with
  | VStr e =>
      if has_eapi_atom e then
        _ ← setattr "eapi_atom" (VAtomKls e); mret (VAtomKls e)
      else raise AttributeError
  | _ => raise TypeError
  end.

Definition get_eapi_atom : M value := lookup_or "eapi_atom" _load_eapi_atom.

(** Calling [self.eapi_atom(token, negate_vers=...)]. *)
Definition call_atom (kls : value) (token : string) (negate_vers : bool)
    : M A :=
  match kls with
  | VAtomKls e => lift (eapi_atom e token negate_vers)
  | _ => raise TypeError
  end.

Definition _load_packages : M value :=
  load_decorator "packages" iter_read_bash [] (λ data,
    '(sys, neg_sys, vis, neg_vis) ←
      forM (λ '(sys, neg_sys, vis, neg_vis) line,
        c0 ← lift (str_head line);
        if decide (c0 = "-"%char) then
          c1 ← lift (str_second line);
          if decide (c1 = "*"%char) then
            kls ← get_eapi_atom;
            a ← call_atom kls (str_drop 2 line) false;
            mret (sys, neg_sys ++ [a], vis, neg_vis)
          else
            kls ← get_eapi_atom;
            a ← call_atom kls (str_drop 1 line) true;
            mret (sys, neg_sys, vis, neg_vis ++ [a])
        else if decide (c0 = "*"%char) then
          kls ← get_eapi_atom;
          a ← call_atom kls (str_drop 1 line) false;
          mret (sys ++ [a], neg_sys, vis, neg_vis)
        else
          kls ← get_eapi_atom;
          a ← call_atom kls line true;
          mret (sys, neg_sys, vis ++ [a], neg_vis))
      ([], [], [], []) data;
    _ ← setattr "system" (VAtoms neg_sys sys);
    _ ← setattr "visibility" (VAtoms neg_vis vis);
    mret VNone).

(** [ProfileNode(p)]: the constructor checks that the directory exists. *)
Definition make_node (p : string) : result string :=
  if isdir dk p then Ok p
  else Raise (ProfileError p "" (PlainException "profile doesn't exist")).

Definition _load_parents : M value :=
  load_decorator "parent" iter_read_bash [] (λ data,
    ps ← lift (mapM (λ x, make_node (abspath (pjoin path x))) data);
    _ ← setattr "parents" (VParents ps);
    mret (VParents ps)).

Definition _load_pkg_provided : M value :=
  load_decorator "package.provided" iter_read_bash [] (λ data,
    '(neg, pos) ← lift (split_negations data versioned_CPV);
    _ ← setattr "pkg_provided" (VCpvs neg pos);
    mret (VCpvs neg pos)).

Definition _load_virtuals : M value :=
  load_decorator "virtuals" iter_read_bash [] (λ data,
    d ← forM (λ (d : gmap string A) line,
           match str_split line with
           | [virt; provider] =>
               kls ← get_eapi_atom;
               a ← call_atom kls provider false;
               pkg ← lift (CPV_unversioned_package virt);
               mret (<[pkg := a]> d)
           | _ => raise (ValueError (line +:+ " is malformated"))
           end) ∅ data;
    _ ← setattr "virtuals" (VVirtuals true d);
    mret (VVirtuals false d)).

Definition _load_masks : M value :=
  load_decorator "package.mask" iter_read_bash [] (λ data,
    kls ← get_eapi_atom;
    match kls with
    | VAtomKls e =>
        '(neg, pos) ← lift (split_negations data (λ t, eapi_atom e t false));
        _ ← setattr "masks" (VAtoms neg pos);
        mret (VAtoms neg pos)
    | _ => raise TypeError
    end).

Definition _load_deprecated : M value :=
  load_decorator "deprecated" Some None (λ data,
    match data with
    | None => _ ← setattr "deprecated" VNone; mret VNone
    | Some [] =>
        raise (ValueError "didn't specify a replacement profile")
    | Some (first :: rest) =>
        let replacement := strip first in
        let msg := join (String "010" "")
                     ((λ x, strip (lstrip_hash x)) <$> rest) in
        _ ← setattr "deprecated" (VDeprecated replacement msg);
        mret (VDeprecated replacement msg)
    end).

(** The loop of [_parse_package_use]: chunks grouped by [cat/pkg]. *)
Definition package_use_chunks (data : list string)
    : M (gmap string (list (chunked_data A))) :=
  forM (λ (d : gmap string (list (chunked_data A))) line,
         match str_split line with
         | [] => raise IndexError
         | tok :: flags =>
             kls ← get_eapi_atom;
             a ← call_atom kls tok false;
             if decide (flags = []) then
               raise (PlainException ("malformed line- " +:+ line))
             else
               '(neg, pos) ← lift (split_negations flags str_func);
               mret (<[atom_key a :=
                        default [] (d !! atom_key a)
                          ++ [Chunk (RAtom a) neg pos]]> d)
         end) ∅ data.

(** [_parse_package_use(data)] *)
Definition _parse_package_use (data : list string) : M use_dict :=
  d ← package_use_chunks data;
  kvs ← lift (mapM (λ kv : string * list (chunked_data A),
                 a ← atom_atom kv.1;
                 Ok (Some kv.1, _build_cp_atom_payload kv.2 a))
              (map_to_list d));
  mret (list_to_map kvs : use_dict).

Definition _load_pkg_use : M value :=
  load_decorator "package.use" iter_read_bash [] (λ data,
    d ← _parse_package_use data;
    _ ← setattr "pkg_use" (VUse d); mret (VUse d)).

Definition _load_pkg_use_force : M value :=
  load_decorator "package.use.force" iter_read_bash [] (λ data,
    d ← _parse_package_use data;
    _ ← setattr "pkg_use_force" (VUse d); mret (VUse d)).

Definition _load_pkg_use_mask : M value :=
  load_decorator "package.use.mask" iter_read_bash [] (λ data,
    d ← _parse_package_use data;
    _ ← setattr "pkg_use_mask" (VUse d); mret (VUse d)).

(** The shared body of [_load_masked_use] and [_load_forced_use]. *)
Definition global_use (attr : string) (base : M value)
    (data : list string) : M value :=
  d ← base;
  match d with
  | VUse d =>
      '(neg, pos) ← lift (split_negations data str_func);
      let d' :=
        if decide (neg = [] ∧ pos = []) then d
        else <[None := [Chunk RAlwaysTrue neg pos]]> d in
      _ ← setattr attr (VUse d'); mret (VUse d')
  | _ => raise AttributeError
  end.

Definition _load_masked_use : M value :=
  load_decorator "use.mask" iter_read_bash []
    (global_use "masked_use" (lookup_or "pkg_use_mask" _load_pkg_use_mask)).

Definition _load_forced_use : M value :=
  load_decorator "use.force" iter_read_bash []
    (global_use "forced_use" (lookup_or "pkg_use_force" _load_pkg_use_force)).

Definition _load_default_env : M value :=
  match read_file dk (pjoin path "make.defaults") with
  | Raise ie => raise (ProfileError path "make.defaults" ie)
  | Ok None => _ ← setattr "default_env" (VEnv false ∅); mret (VEnv false ∅)
  | Ok (Some f) =>
      d ← try_with (lift (read_bash_dict f))
             (λ e, match e with
                   | KeyboardInterrupt | RuntimeError | SystemExit => e
                   | _ => ProfileError path "make.defaults" e
                   end);
      _ ← setattr "default_env" (VEnv true d);
      mret (VEnv false d)
  end.

Definition _load_bashrc : M value :=
  let p := pjoin path "profile.bashrc" in
  let v := if path_exists dk p then VSource p else VNone in
  _ ← setattr "bashrc" v; mret v.

(** The methods found by [object.__getattribute__(self, "_load_%s" % attr)]. *)
Definition loader (attr : string) : option (M value) :=
  if decide (attr = "packages") then Some _load_packages
  else if decide (attr = "parents") then Some _load_parents
  else if decide (attr = "pkg_provided") then Some _load_pkg_provided
  else if decide (attr = "virtuals") then Some _load_virtuals
  else if decide (attr = "masks") then Some _load_masks
  else if decide (attr = "deprecated") then Some _load_deprecated
  else if decide (attr = "masked_use") then Some _load_masked_use
  else if decide (attr = "pkg_use") then Some _load_pkg_use
  else if decide (attr = "pkg_use_force") then Some _load_pkg_use_force
  else if decide (attr = "pkg_use_mask") then Some _load_pkg_use_mask
  else if decide (attr = "forced_use") then Some _load_forced_use
  else if decide (attr = "default_env") then Some _load_default_env
  else if decide (attr = "bashrc") then Some _load_bashrc
  else if decide (attr = "eapi") then Some _load_eapi
  else if decide (attr = "eapi_atom") then Some _load_eapi_atom
  else None.

(** [ProfileNode.__getattr__].  After [_load_packages] the attribute is
    looked up again; were it still missing Python would recurse until
    [RuntimeError]. *)
Definition __getattr__ (attr : string) : M value :=
  if decide (attr = "system" ∨ attr = "visibility") then
    _ ← _load_packages;
    lookup_or attr (raise RuntimeError)
  else
    match loader attr with
    | Some func => func
    | None => raise AttributeError
    end.

(** [getattr(node, attr)] *)
Definition getattr (attr : string) : M value :=
  lookup_or attr (__getattr__ attr).

(** The list-style files and the loaders reading them. *)
Definition list_style_loaders : list (string * M value) :=
  [("packages", _load_packages);
   ("package.mask", _load_masks);
   ("package.provided", _load_pkg_provided);
   ("use.force", _load_forced_use);
   ("use.mask", _load_masked_use);
   ("package.use", _load_pkg_use);
   ("package.use.force", _load_pkg_use_force);
   ("package.use.mask", _load_pkg_use_mask)]%string.

End node.

Arguments MkM {A C X} _.
Arguments runM {A C X} _ _.
Abbreviation inst_dict := (gmap string value).

(** The attributes the specification lists as lazily loaded. *)
Definition lazy_attrs : list string :=
  ["system"; "visibility"; "masks"; "pkg_use"; "pkg_use_force";
   "pkg_use_mask"; "forced_use"; "masked_use"; "default_env"; "virtuals";
   "pkg_provided"; "eapi"; "eapi_atom"; "deprecated"; "parents";
   "bashrc"]%string.

End Profiles.

(** ** A small concrete environment for profile nodes

    Atoms and CPVs are kept as the strings they were written as; every
    EAPI has an atom class; [iter_read_bash] strips lines and drops blank
    and comment lines; [read_bash_dict] is not exercised and yields no
    variables. *)

Module SimpleEnv.
Import Profiles.

Definition nonempty_token (s : string) : result string :=
  if decide (s = ""%string) then Raise MalformedAtom else Ok s.

Definition is_comment (l : string) : bool :=
  match l with
  | String "#" _ => true
  | _ => false
  end.

Definition read_bash (lines : list string) : list string :=
  filter (λ l, l ≠ ""%string ∧ is_comment l = false) (strip <$> lines).

#[export] Instance env : Env string string := {|
  eapi_capable := [0; 1; 2; 3; 4; 5];
  has_eapi_atom := λ _, true;
  eapi_atom := λ _ tok _, nonempty_token tok;
  atom_atom := nonempty_token;
  atom_key := λ a, a;
  versioned_CPV := nonempty_token;
  CPV_unversioned_package := nonempty_token;
  _build_cp_atom_payload := λ chunks _, chunks;
  iter_read_bash := read_bash;
  read_bash_dict := λ _, Ok ∅;
  abspath := λ p, p;
|}.

(** A disk holding a single profile directory [/p] with the given files. *)
Definition one_profile (files : list (string * list string)) : disk :=
  Disk (λ p, Ok (snd <$> list_find (λ f, pjoin "/p" f.1 = p) files
                  ≫= λ f, Some f.2))
       (λ _, false)
       (λ p, bool_decide (p = "/p"%string)).

End SimpleEnv.

(** ** pkgcore.ebuild.profiles: OnDiskProfile collapsing *)

Module OnDiskProfile.
Import Profiles.

Section collapse_generic.
Context {N T : Type} `{Countable T}.

(** [getattr(node, attr)] for the pair-valued attributes of a stack node
    (the [ProfileNode] loaders above, seen from the profile). *)
Variable node_pair : N → string → result (list T * list T).

(** [s.difference_update(xs)] and [s.update(xs)] walk their argument. *)
Definition difference_update (s : gset T) (xs : list T) : gset T :=
  foldl (λ s x, s ∖ {[x]}) s xs.
Definition update (s : gset T) (xs : list T) : gset T :=
  foldl (λ s x, {[x]} ∪ s) s xs.

Definition _collapse_generic (stack : list N) (attr : string)
    : result (gset T) :=
  foldM (λ s node,
           val ← node_pair node attr;
           Ok (update (difference_update s val.1) val.2))
        ∅ stack.

Definition _collapse_masks (stack : list N) : result (gset T) :=
  m ← _collapse_generic stack "masks";
  v ← _collapse_generic stack "visibility";
  Ok (m ∪ v).

(** The specification's rule for pair-valued fields, over the pairs read
    from the stack: [S := (S ∖ neg) ∪ pos], starting from the empty set. *)
Definition collapse_spec (vals : list (list T * list T)) : gset T :=
  foldl (λ S v, (S ∖ list_to_set v.1) ∪ list_to_set v.2) ∅ vals.

End collapse_generic.

(** The values held by the dictionary built in [_collapse_env]. *)
Inductive env_value :=
| EStr (s : string)
| EList (l : list string)
| ETuple (l : list string).

(** Modelled from the spec: [incremental_expansion] of
    [pkgcore.ebuild.misc] is not among the sources.  Tokens starting with
    [-] remove prior tokens; the special token [-*] clears; any other token
    is added. *)
Definition incremental_expansion (s : gset string) (tokens : list string)
    : gset string :=
  foldl (λ s tok,
           match tok with
           | String "-" rest =>
               if decide (rest = "*"%string) then ∅ else s ∖ {[rest]}
           | _ => {[tok]} ∪ s
           end) s tokens.

(** The characters of a string as one-character strings: what iterating a
    [str] yields. *)
Fixpoint chars (s : string) : list string :=
  match s with
  | EmptyString => []
  | String c s' => String c "" :: chars s'
  end.

Definition tokens_of (v : env_value) : list string :=
  match v with
  | EStr s => chars s
  | EList l | ETuple l => l
  end.

(** Python truthiness of the stored values. *)
Definition truthy (v : env_value) : bool :=
  match v with
  | EStr s => negb (bool_decide (s = ""%string))
  | EList l | ETuple l => negb (bool_decide (l = []))
  end.

Section collapse_env.
Context {N : Type}.

(** [profile.default_env] of a stack node. *)
Variable node_env : N → result (gmap string string).
Variable incrementals : list string.
Variable incrementals_unfinalized : gset string.

(** The first loop: accumulate the environment over the stack. *)
Definition accumulate (d : gmap string env_value) (kv : string * string)
    : result (gmap string env_value) :=
  let '(key, val) := kv in
  if bool_decide (key ∈ incrementals) then
    match d !! key with
    | None => Ok (<[key := EList (str_split val)]> d)
    | Some (EList l) => Ok (<[key := EList (l ++ str_split val)]> d)
    | Some _ => Raise AttributeError
    end
  else Ok (<[key := EStr val]> d).

(** The second loop, for one incremental.  [del d[val]] uses the value as
    the key: an (empty) list is unhashable, an (empty) tuple or string is
    looked up as a key. *)
Definition finalize (d : gmap string env_value) (incremental : string)
    : result (gmap string env_value) :=
  match d !! incremental with
  | None => Ok d
  | Some val =>
      if negb (truthy val) then
        match val with
        | EList _ => Raise TypeError
        | ETuple _ => Raise KeyError
        | EStr s =>
            if decide (is_Some (d !! s)) then Ok (delete s d)
            else Raise KeyError
        end
      else if bool_decide (incremental ∈ incrementals_unfinalized) then
        Ok (<[incremental := ETuple (tokens_of val)]> d)
      else
        let s := incremental_expansion ∅ (tokens_of val) in
        if decide (s = ∅) then Ok (delete incremental d)
        else Ok (<[incremental := ETuple (elements s)]> d)
  end.

(** The dictionary after the first loop. *)
Definition accumulated (stack : list N) : result (gmap string env_value) :=
  foldM (λ d profile,
           env ← node_env profile;
           foldM accumulate d (map_to_list env))
        ∅ stack.

Definition _collapse_env (stack : list N) : result (gmap string env_value) :=
  d ← accumulated stack;
  foldM finalize d incrementals.

End collapse_env.
End OnDiskProfile.

(** ** pkgcore.ebuild.repository: filtering packages with bad metadata *)

Module Repository.

Section pkg_filter.
Context {Pkg VAtom : Type} `{Countable VAtom}.

(** [pkg.versioned_atom] *)
Variable versioned_atom : Pkg → VAtom.

(** [MetadataException(pkg, attr, error)] *)
Record MetadataException := MetaExc {
  e_pkg : Pkg;
  e_attr : string;
  e_msg : string;
}.

(** What reading a package attribute may raise. *)
Inductive raised :=
| RMetadata (e : MetadataException)
| RFileNotFound
| ROther (e : exn).

Definition outcome (X : Type) : Type := X + raised.

(** The package attributes read by the filter; they are computed by
    [ebuild_src], through the metadata cache and the build daemon. *)
Record evaluator := Evaluator {
  is_supported : Pkg → outcome bool;
  eapi : Pkg → outcome string;
  data : Pkg → outcome unit;
  required_use : Pkg → outcome unit;
}.

(** Modelled from the spec: [RestrictionRepo] of
    [pkgcore.repository.virtual] is not among the sources.  The repo-local
    [_masked] set maps the versioned atom of a hidden package to the
    [MetadataException] attached to it; [pkg in _masked.itermatch(atom)]
    holds when the atom has an entry. *)
Abbreviation masked_repo := (gmap VAtom MetadataException).

Definition in_masked (m : masked_repo) (pkg : Pkg) : bool :=
  bool_decide (is_Some (m !! versioned_atom pkg)).

(** The body of the [try]: [inl None] falls through to [yield], [inl (Some
    e)] is the unsupported-EAPI branch with the exception to record. *)
Definition check (ev : evaluator) (pkg : Pkg)
    : outcome (option MetadataException) :=
  match is_supported ev pkg with
  | inr r => inr r
  | inl false =>
      match eapi ev pkg with
      | inr r => inr r
      | inl e =>
          inl (Some (MetaExc pkg "eapi"
                       ("EAPI '" +:+ e +:+ "' is not supported")))
      end
  | inl true =>
      match data ev pkg with
      | inr r => inr r
      | inl _ =>
          match required_use ev pkg with
          | inr r => inr r
          | inl _ => inl None
          end
      end
  end.

(** One iteration of the loop of [_pkg_filter]: the package to yield (if
    any) and the new [_masked], or the exception leaving the generator. *)
Definition filter_step (ev : evaluator) (m : masked_repo) (pkg : Pkg)
    : result (option Pkg * masked_repo) :=
  if in_masked m pkg then Ok (None, m)
  else
    match check ev pkg with
    | inl None => Ok (Some pkg, m)
    | inl (Some e) => Ok (None, <[versioned_atom pkg := e]> m)
    | inr (RMetadata e) => Ok (None, <[versioned_atom (e_pkg e) := e]> m)
    | inr RFileNotFound =>
        Ok (None, <[versioned_atom pkg :=
                      MetaExc pkg "data" "mismatched package name"]> m)
    | inr (ROther e) => Raise e
    end.

(** A generator run to exhaustion: what it yielded, the state it left, and
    the exception that ended it, if any. *)
Record run := Run {
  yielded : list Pkg;
  masked_after : masked_repo;
  raised_exn : option exn;
}.

Fixpoint _pkg_filter (ev : evaluator) (m : masked_repo) (pkgs : list Pkg)
    : run :=
  match pkgs with
  | [] => Run [] m None
  | pkg :: pkgs' =>
      match filter_step ev m pkg with
      | Raise e => Run [] m (Some e)
      | Ok (y, m') =>
          let r := _pkg_filter ev m' pkgs' in
          Run (option_list y ++ yielded r) (masked_after r) (raised_exn r)
      end
  end.

(** [itermatch] installs [_pkg_filter] as the [pkg_filter] of the base
    class, which passes the candidate packages through it. *)
Definition itermatch (ev : evaluator) (m : masked_repo)
    (candidates : list Pkg) : run :=
  _pkg_filter ev m candidates.

End pkg_filter.
End Repository.

(** ** pkgcore.util.agentrpc *)

Module AgentRPC.

#[export] Instance byte_eq_dec : EqDecision byte := Byte.byte_eq_dec.

(** Values that [json.loads] produces (floats left out). *)
#[warnings="-register-all"]
Inductive json :=
| JNull
| JBool (b : bool)
| JNum (z : Z)
| JStr (s : string)
| JList (l : list json)
| JDict (d : list (string * json)).

(** [d[k]] / [k in d] on the association list of a dict. *)
Fixpoint assoc {V} (k : string) (d : list (string * V)) : option V :=
  match d with
  | [] => None
  | (k', v) :: d' => if decide (k = k') then Some v else assoc k d'
  end.

(** Python's [==] on these values: dicts compare as mappings, [True == 1]. *)
Fixpoint json_eqb (a b : json) : bool :=
  match a, b with
  | JNull, JNull => true
  | JBool x, JBool y => bool_decide (x = y)
  | JBool x, JNum z | JNum z, JBool x => (z =? (if x then 1 else 0))%Z
  | JNum x, JNum y => (x =? y)%Z
  | JStr x, JStr y => bool_decide (x = y)
  | JList x, JList y =>
      (fix go (x y : list json) : bool :=
         match x, y with
         | [], [] => true
         | a :: x', b :: y' => json_eqb a b && go x' y'
         | _, _ => false
         end) x y
  | JDict x, JDict y =>
      bool_decide (length x = length y) &&
      (fix go (x : list (string * json)) : bool :=
         match x with
         | [] => true
         | (k, v) :: x' =>
             match assoc k y with
             | Some w => json_eqb v w && go x'
             | None => false
             end
         end) x
  | _, _ => false
  end.

(** [v[k]] for a string key [k]. *)
Definition py_getitem (v : json) (k : string) : result json :=
  match v with
  | JDict d =>
      match assoc k d with
      | Some x => Ok x
      | None => Raise KeyError
      end
  | _ => Raise TypeError
  end.

Fixpoint is_prefix (p s : string) : bool :=
  match p, s with
  | EmptyString, _ => true
  | String a p', String b s' => bool_decide (a = b) && is_prefix p' s'
  | _, _ => false
  end.
Fixpoint is_substring (p s : string) : bool :=
  is_prefix p s ||
  match s with
  | EmptyString => false
  | String _ s' => is_substring p s'
  end.

(** [k in v] for a string [k]. *)
Definition py_contains (k : string) (v : json) : result bool :=
  match v with
  | JDict d => Ok (bool_decide (is_Some (assoc k d)))
  | JList l => Ok (existsb (json_eqb (JStr k)) l)
  | JStr s => Ok (is_substring k s)
  | _ => Raise TypeError
  end.

(** [del d[k]] *)
Fixpoint py_del (k : string) (d : list (string * json))
    : result (list (string * json)) :=
  match d with
  | [] => Raise KeyError
  | (k', v) :: d' =>
      if decide (k = k') then Ok d'
      else d'' ← py_del k d'; Ok ((k', v) :: d'')
  end.

(** [json.dumps(v).encode('utf8')] and [json.loads(s.decode('utf8'))] come
    from the Python standard library. *)
Class JsonCodec := {
  json_dumps : json → result (list byte);
  json_loads : list byte → result json;
}.

Definition byte_of_N (n : N) : byte :=
  default "000"%byte (Byte.of_N (N.land n 255)).

(** [struct.pack('>L', n)]: four bytes, most significant first. *)
Definition struct_pack_L (n : N) : result (list byte) :=
  if (n <? 2 ^ 32)%N then
    Ok [byte_of_N (N.shiftr n 24); byte_of_N (N.shiftr n 16);
        byte_of_N (N.shiftr n 8); byte_of_N n]
  else Raise StructError.

(** [struct.unpack('>L', bs)] *)
Definition struct_unpack_L (bs : list byte) : result N :=
  match bs with
  | [a; b; c; d] =>
      Ok (N.lor (N.shiftl (Byte.to_N a) 24)
            (N.lor (N.shiftl (Byte.to_N b) 16)
               (N.lor (N.shiftl (Byte.to_N c) 8) (Byte.to_N d))))
  | _ => Raise StructError
  end.

(** The kernel side: file descriptors name pipes, pipes hold the bytes
    written and not yet read. *)
Record world := World {
  fd_pipe : gmap Z nat;
  pipe_buf : gmap nat (list byte);
}.

(** [os.read(fd, n)]: the bytes available, at most [n]. *)
Definition os_read (fd : Z) (n : N) (w : world)
    : result (list byte * world) :=
  match fd_pipe w !! fd with
  | None => Raise OSError
  | Some p =>
      let buf := default [] (pipe_buf w !! p) in
      Ok (take (N.to_nat n) buf,
          World (fd_pipe w) (<[p := drop (N.to_nat n) buf]> (pipe_buf w)))
  end.

(** [os.write(fd, bs)] *)
Definition os_write (fd : Z) (bs : list byte) (w : world) : result world :=
  match fd_pipe w !! fd with
  | None => Raise OSError
  | Some p =>
      let buf := default [] (pipe_buf w !! p) in
      Ok (World (fd_pipe w) (<[p := buf ++ bs]> (pipe_buf w)))
  end.

Record JsonRPC := MkJsonRPC {
  in_pipe_ : Z;
  out_pipe_ : Z;
}.

Section rpc.
Context `{JsonCodec}.

Definition read (self : JsonRPC) (w : world) : result (json * world) :=
  '(szs, w) ← os_read (in_pipe_ self) 4 w;
  sz ← struct_unpack_L szs;
  '(s, w) ← os_read (in_pipe_ self) sz w;
  v ← json_loads s;
  Ok (v, w).

Definition write (self : JsonRPC) (val : json) (w : world) : result world :=
  s ← json_dumps val;
  szs ← struct_pack_L (N.of_nat (length s));
  w ← os_write (out_pipe_ self) szs w;
  os_write (out_pipe_ self) s w.

(** [int(x)] for the tokens of [CB_AGENT_RPC_FDS]. *)
Definition int (x : string) : result Z :=
  if Profiles.isdigit x then Ok (Z.of_nat (digits_val x))
  else Raise (ValueError "invalid literal for int()").

Definition malformed : exn :=
  GenericBuildError "Malformed cb_agent JSONRPC reply".

(** [for k in request: assert(repl[k] == request[k])] *)
Definition check_echo (repl : json) (request : list (string * json))
    : result unit :=
  foldM (λ _ kv,
           v ← py_getitem repl kv.1;
           if json_eqb v kv.2 then Ok tt else Raise AssertionError)
        tt request.

(** The first [try] block and its [except (KeyError, ValueError,
    AssertionError)]. *)
Definition read_reply (rpc : JsonRPC) (request : list (string * json))
    (w : world) : result (json * world) :=
  let body : result (json * world) :=
    '(repl, w) ← read rpc w;
    request ← py_del "status" request;
    _ ← check_echo repl request;
    Ok (repl, w) in
  match body with
  | Raise KeyError | Raise (ValueError _) | Raise AssertionError =>
      Raise malformed
  | r => r
  end.

(** The second [try] block and its [except (AssertionError, KeyError)]. *)
Definition check_failure (repl : json) : result unit :=
  let body : result unit :=
    st ← py_getitem repl "status";
    if json_eqb st (JStr "failure") then
      has_error ← py_contains "error" repl;
      if has_error : bool then Ok tt else Raise AssertionError
    else Raise AssertionError in
  match body with
  | Raise AssertionError | Raise KeyError => Raise malformed
  | r => r
  end.

Definition agent_rpc_call (environ : gmap string string)
    (request : list (string * json)) (w : world) : result (json * world) :=
  match environ !! "CB_AGENT_RPC_FDS"%string with
  | None =>
      Raise (GenericBuildError "CB_AGENT_RPC_FDS are not provided by cb-agent")
  | Some fds =>
      rpc_fds ← mapM int (str_split fds);
      rpc ← match rpc_fds with
            | [i; o] => Ok (MkJsonRPC i o)
            | _ => Raise TypeError
            end;
      w ← write rpc (JDict request) w;
      '(repl, w) ← read_reply rpc request w;
      st ← py_getitem repl "status";
      if json_eqb st (JStr "success") then Ok (repl, w)
      else _ ← check_failure repl; Ok (repl, w)
  end.

End rpc.
End AgentRPC.

(** ** pkgcore.ebuild.profiles: the stack of an [OnDiskProfile] *)

Module ProfileStack.
Import Profiles OnDiskProfile.

Section stack.
Context {N : Type}.

(** [node.parents] of a node, and [EmptyRootNode(self.basepath)]. *)
Variable node_parents : N → result (list N).
Variable root_node : result N.

(** The outer loop of the generator [f]: the subtrees of the parents, one
    after the other. *)
Fixpoint walk_all (rec : N → option (result (list N))) (ps : list N)
    : option (result (list N)) :=
  match ps with
  | [] => Some (Ok [])
  | x :: ps' =>
      match rec x with
      | Some (Ok ys) =>
          match walk_all rec ps' with
          | Some (Ok zs) => Some (Ok (ys ++ zs))
          | r => r
          end
      | r => r
      end
  end.

(** [list(f(node))]: the parents' subtrees, then the node.  The recursion
    follows the [parent] files, so it is bounded by [fuel]; [None] means
    the bound was hit. *)
Fixpoint walk (fuel : nat) (node : N) : option (result (list N)) :=
  match fuel with
  | 0 => None
  | S fuel' =>
      match node_parents node with
      | Raise e => Some (Raise e)
      | Ok ps =>
          match walk_all (walk fuel') ps with
          | Some (Ok ys) => Some (Ok (ys ++ [node]))
          | r => r
          end
      end
  end.

Definition _load_stack (fuel : nat) (node : N) (load_profile_base : bool)
    : option (result (list N)) :=
  match walk fuel node with
  | Some (Ok l) =>
      if load_profile_base then
        match root_node with
        | Ok r => Some (Ok (r :: l))
        | Raise e => Some (Raise e)
        end
      else Some (Ok l)
  | r => r
  end.

End stack.

Section virtuals.
Context {N V : Type}.

(** [profile.virtuals] of a stack node. *)
Variable node_virtuals : N → result (gmap string V).

(** [d.update(m)] *)
Definition dict_update (d m : gmap string V) : gmap string V :=
  foldl (λ d kv, <[kv.1 := kv.2]> d) d (map_to_list m).

(** The dictionary that [_collapse_virtuals] stores as [self.virtuals]. *)
Definition _collapse_virtuals (stack : list N) : result (gmap string V) :=
  foldM (λ d profile, v ← node_virtuals profile; Ok (dict_update d v))
        ∅ stack.

End virtuals.

(** [tuple(x)] and [x.split()] on the values of the collapsed
    environment. *)
Definition py_split (v : env_value) : result (list string) :=
  match v with
  | EStr s => Ok (str_split s)
  | EList _ | ETuple _ => Raise AttributeError
  end.

(** The properties [use_expand] and [use_expand_hidden], on the collapsed
    [default_env]. *)
Definition expand_property (name : string) (incrementals : list string)
    (default_env : gmap string env_value) : result (list string) :=
  if bool_decide (name ∈ incrementals) then
    Ok (tokens_of (default (ETuple []) (default_env !! name)))
  else
    py_split (default (EStr "") (default_env !! name)).

Definition use_expand := expand_property "USE_EXPAND".
Definition use_expand_hidden := expand_property "USE_EXPAND_HIDDEN".

End ProfileStack.

(** ** pkgcore.ebuild.repository: the tree on disk *)

Module RepoTree.
Import Profiles.

(** A [for] loop inside a [try]: the state reached when the body raised is
    kept, beside the exception. *)
Fixpoint loop {S X} (body : S → X → S * option exn) (st : S) (l : list X)
    : S * option exn :=
  match l with
  | [] => (st, None)
  | x :: l' =>
      match body st x with
      | (st', None) => loop body st' l'
      | (st', Some e) => (st', Some e)
      end
  end.

(** Where a slice index falls in a sequence of length [len]: a negative
    index counts from the end, and both ends are clamped. *)
Definition py_index (len : nat) (i : Z) : nat :=
  if (i <? 0)%Z then Z.to_nat (Z.max 0 (Z.of_nat len + i))
  else Nat.min (Z.to_nat i) len.

(** [s[start:stop]]; [None] is an omitted bound. *)
Definition slice (s : string) (start stop : option Z) : string :=
  let l := list_ascii_of_string s in
  let n := length l in
  let a := from_option (py_index n) 0 start in
  let b := from_option (py_index n) n stop in
  string_of_list_ascii (take (b - a) (drop a l)).

(** [s.upper()] on the ASCII range. *)
Definition ascii_upper (c : ascii) : ascii :=
  let n := nat_of_ascii c in
  if (97 <=? n)%nat && (n <=? 122)%nat then ascii_of_nat (n - 32) else c.
Fixpoint upper (s : string) : string :=
  match s with
  | String c s' => String (ascii_upper c) (upper s')
  | EmptyString => EmptyString
  end.

(** [except EnvironmentError]: [OSError] and its subclasses. *)
Definition is_EnvironmentError (e : exn) : bool :=
  match e with
  | OSError | FileNotFoundError => true
  | _ => false
  end.

(** The class attributes of [UnconfiguredTree]. *)
Definition false_categories : list string :=
  ["eclass"; "profiles"; "packages"; "distfiles"; "metadata";
   "licenses"; "scripts"; "CVS"; "local"].
Definition extension : string := ".ebuild".

(** The attributes of a package that name its ebuild. *)
Record cpv := CPV {
  category : string;
  package : string;
  fullver : string;
}.

Section tree.
(** [self.base], and what [listdir_files] and [listdir_dirs] of
    [snakeoil.osutils] answer for a path. *)
Variable base : string.
Variable listdir_files listdir_dirs : string → result (list string).

(** [repo.hardcoded_categories] for each [repo] of [self.trees]: [None]
    when the repository has no [profiles/categories]. *)
Variable trees : list (result (option (list string))).

(** [tuple(categories)] lists a set in an order Python does not fix; it is
    modelled by [elements]. *)
Definition _get_categories (optional_category : list string)
    : result (list string) :=
  if bool_decide (optional_category ≠ []) then Ok []
  else
    cats ← foldM (λ (acc : gset string) hc,
                    hc ← hc;
                    match hc with
                    | Some l => Ok (acc ∪ list_to_set l)
                    | None => Ok acc
                    end) ∅ trees;
    if bool_decide (cats ≠ ∅) then Ok (elements cats)
    else
      match listdir_dirs base with
      | Ok dirs =>
          Ok (filter (λ x, x ∉ false_categories)
                (filter (λ x, slice x (Some 0%Z) (Some 1%Z) ≠ ".") dirs))
      | Raise e => if is_EnvironmentError e then Raise KeyError else Raise e
      end.

Definition _get_versions (catpkg : string * string) : result (list string) :=
  let cppath := pjoin (pjoin base catpkg.1) catpkg.2 in
  let pkg := catpkg.2 +:+ "-" in
  let lp := Z.of_nat (String.length pkg) in
  let ext_len := (- Z.of_nat (String.length extension))%Z in
  match listdir_files cppath with
  | Ok files =>
      Ok ((λ x, slice x (Some lp) (Some ext_len))
            <$> filter (λ x, slice x (Some ext_len) None = extension ∧
                             slice x None (Some lp) = pkg) files)
  | Raise e => if is_EnvironmentError e then Raise KeyError else Raise e
  end.

Definition _get_ebuild_path (pkg : cpv) : string :=
  pjoin (pjoin (pjoin base (category pkg)) (package pkg))
        (package pkg +:+ "-" +:+ fullver pkg +:+ extension).

End tree.

(** *** [_visibility_limiters] *)

(** What [logger.warning] is called with: the path, the line number and the
    reason. *)
Inductive reason := EmptyNegation | Malformed.
Abbreviation warning := (string * nat * reason)%type.

Section limiters.
Context {A : Type}.
(** [atom.atom], [self.base], the test on the EAPI and the profile formats
    that selects a directory of mask files, and the two readers. *)
Variable atom : string → result A.
Variable base : string.
Variable has_profile_data_dirs : bool.
Variable sorted_scan : string → result (list string).
Variable iter_read_bash : string → result (list (nat * string)).

Record limiters := Limiters {
  neg : list A;
  pos : list A;
  warnings : list warning;
}.

Definition warn (st : limiters) (w : warning) : limiters :=
  Limiters (neg st) (pos st) (warnings st ++ [w]).

(** The body of the inner loop. *)
Definition limiter_line (path : string) (st : limiters) (ln : nat * string)
    : limiters * option exn :=
  let '(lineno, line) := ln in
  let line := strip line in
  if decide (line = "-") then (warn st (path, lineno, EmptyNegation), None)
  else
    if String.prefix "-" line then
      match atom (str_drop 1 line) with
      | Ok a => (Limiters (neg st ++ [a]) (pos st) (warnings st), None)
      | Raise MalformedAtom => (warn st (path, lineno, Malformed), None)
      | Raise e => (st, Some e)
      end
    else
      match atom line with
      | Ok a => (Limiters (neg st) (pos st ++ [a]) (warnings st), None)
      | Raise MalformedAtom => (warn st (path, lineno, Malformed), None)
      | Raise e => (st, Some e)
      end.

Definition limiter_file (st : limiters) (path : string)
    : limiters * option exn :=
  match iter_read_bash path with
  | Ok lines => loop (limiter_line path) st lines
  | Raise e => (st, Some e)
  end.

(** The value returned, beside the warnings logged on the way. *)
Definition _visibility_limiters
    : result (list A * list A) * list warning :=
  let path := pjoin (pjoin base "profiles") "package.mask" in
  let '(st, err) :=
    match (if has_profile_data_dirs then sorted_scan path else Ok [path]) with
    | Ok paths => loop limiter_file (Limiters [] [] []) paths
    | Raise e => (Limiters [] [] [], Some e)
    end in
  match err with
  | None | Some FileNotFoundError => (Ok (neg st, pos st), warnings st)
  | Some e => (Raise e, warnings st)
  end.

End limiters.

(** *** [_sort_eclasses] *)

(** The attributes of a [repo_config] that are read. *)
Record repo_config := RepoConfig {
  location : string;
  repo_id : string;
  masters : option (list string);
  _missing_masters : bool;
}.

(** [eclass_cache.cache(path, location=...)], and what is returned: one
    cache or [eclass_cache.StackedCaches]. *)
Record cache := Cache {
  cache_path : string;
  cache_location : string;
}.
Inductive eclass_cache :=
| Single (c : cache)
| StackedCaches (caches : list cache) (loc eclassdir : string).

(** [default] is [config.get_default('repo_config')] and [configured] the
    values of [config.objects['repo_config']]. *)
Definition _sort_eclasses (default : option repo_config)
    (configured : list repo_config) (rc : repo_config)
    : result eclass_cache :=
  let repo_path := location rc in
  let loc :=
    match default with
    | Some d => if _missing_masters rc then location d else repo_path
    | None => repo_path
    end in
  eclasses ←
    match masters rc with
    | None | Some [] => Ok [loc]
    | Some ms =>
        let repo_map : gmap string string :=
          foldl (λ m r, <[repo_id r := location r]> m) ∅ configured in
        mapM (λ x, match repo_map !! x with
                   | Some l => Ok l
                   | None => Raise KeyError
                   end) ms
    end;
  let eclasses :=
    if bool_decide (repo_path ∈ eclasses) then eclasses
    else eclasses ++ [repo_path] in
  let eclasses := (λ x, Cache (pjoin x "eclass") loc) <$> eclasses in
  match eclasses with
  | [c] => Ok (Single c)
  | _ => Ok (StackedCaches (reverse eclasses) loc loc)
  end.

(** *** [ProvidesRepo.__init__] *)

Abbreviation versions_dict := (gmap string (gmap string (list string))).

(** [d.setdefault(pkg.category, {}).setdefault(pkg.package, []).append(
    pkg.fullver)] *)
Definition provide (d : versions_dict) (pkg : cpv) : versions_dict :=
  let inner := default ∅ (d !! category pkg) in
  <[category pkg :=
      <[package pkg := default [] (inner !! package pkg) ++ [fullver pkg]]>
        inner]> d.

(** The dictionary handed to [SimpleTree], and whether [match], [itermatch]
    and [has_match] are replaced by the ones that answer without looking. *)
Record provides_repo := ProvidesRepo {
  versions : versions_dict;
  answers_empty : bool;
}.

Definition ProvidesRepo_init (pkgs : list cpv) : provides_repo :=
  let d := foldl provide ∅ pkgs in
  ProvidesRepo d (bool_decide (d = ∅)).

(** *** [ConfiguredTree.__init__] *)

(** What the constructor raises: [errors.InitializationError] naming the
    missing settings, or a Python exception. *)
Inductive init_exn :=
| InitializationError (missing : gset string)
| Py (e : exn).

(** The values of [scope_update]. *)
Inductive scope_value :=
| Setting (s : string)
| Callback.

Definition required_settings : gset string := {[ "USE"; "CHOST" ]}.

(** The statements of the constructor up to [scope_update]: the injections
    handed to the base class. *)
Definition scope_update (domain_settings : gmap string string)
    : gmap string scope_value + init_exn :=
  let missing_settings := required_settings ∖ dom domain_settings in
  if bool_decide (missing_settings ≠ ∅)
  then inr (InitializationError missing_settings)
  else
    match domain_settings !! "CHOST" with
    | None => inr (Py KeyError)
    | Some chost =>
        let scope : gmap string scope_value := {[ "chost" := Setting chost ]} in
        let scope :=
          foldl (λ m x, <[x := Setting (default chost
                                          (domain_settings !! upper x))]> m)
                scope ["cbuild"; "ctarget"] in
        match
          foldl (λ r x,
                   match r with
                   | inl m =>
                       match domain_settings !! upper x with
                       | Some v => inl (<[x := Setting v]> m)
                       | None => inr (Py KeyError)
                       end
                   | inr e => inr e
                   end)
                (inl scope) ["cflags"; "cxxflags"; "ldflags"]
        with
        | inl m => inl (<["operations_callback" := Callback]> m)
        | inr e => inr e
        end
    end.

End RepoTree.

(** * Properties *)

(** ** Collapsing pair-valued attributes *)

Module CollapseFacts.
Import Profiles OnDiskProfile.

Section generic.
Context {N T : Type} `{Countable T}.
Variable node_pair : N → string → result (list T * list T).

Lemma difference_update_spec (s : gset T) xs :
  difference_update s xs = s ∖ list_to_set xs.
Proof.
  revert s. induction xs as [|x xs IH]; intros s; simpl.
  - set_solver.
  - unfold difference_update in *. simpl. rewrite IH. set_solver.
Qed.

Lemma update_spec (s : gset T) xs : update s xs = s ∪ list_to_set xs.
Proof.
  revert s. induction xs as [|x xs IH]; intros s; simpl.
  - set_solver.
  - unfold update in *. simpl. rewrite IH. set_solver.
Qed.

(** The loop of [_collapse_generic] from an arbitrary starting set. *)
Lemma collapse_loop stack attr vals (s : gset T) :
  Forall2 (λ n v, node_pair n attr = Ok v) stack vals →
  foldM (λ s node,
           val ← node_pair node attr;
           Ok (update (difference_update s val.1) val.2)) s stack
  = Ok (foldl (λ S v, (S ∖ list_to_set v.1) ∪ list_to_set v.2) s vals).
Proof.
  intros HF. revert s.
  induction HF as [|n v stack vals Hn _ IH]; intros s; simpl; [done|].
  rewrite Hn. simpl. rewrite difference_update_spec, update_spec. apply IH.
Qed.

Lemma collapse_spec_empty (vals : list (list T * list T)) :
  Forall (λ v, v = ([], [])) vals → collapse_spec vals = ∅.
Proof.
  assert (∀ s : gset T, Forall (λ v, v = ([], [])) vals →
            foldl (λ S v, (S ∖ list_to_set v.1) ∪ list_to_set v.2) s vals = s)
    as Hgen.
  { intros s Hv. revert s. induction Hv as [|v vals -> _ IH]; intros s;
      simpl; [done|].
    rewrite IH. set_solver. }
  intros Hv. by apply Hgen.
Qed.


(** The [masks] view of the profile joins the collapsed [masks] and
    [visibility] of the nodes. *)
Lemma collapse_masks_union stack ms vs :
  Forall2 (λ n v, node_pair n "masks" = Ok v) stack ms →
  Forall2 (λ n v, node_pair n "visibility" = Ok v) stack vs →
  _collapse_masks node_pair stack = Ok (collapse_spec ms ∪ collapse_spec vs).
Proof.
  intros Hm Hv. unfold _collapse_masks, _collapse_generic.
  rewrite (collapse_loop _ _ _ _ Hm). simpl.
  by rewrite (collapse_loop _ _ _ _ Hv).
Qed.

End generic.
End CollapseFacts.

(** ** A bare [-] line in a list-style file *)

Module NegationFacts.
Import Profiles.

Lemma split_negations_go_dash {T} (func : string → result T) data neg pos :
  "-"%string ∈ data → ∃ e, split_negations_go func data neg pos = Raise e.
Proof.
  revert neg pos. induction data as [|line data IH]; intros neg pos Hin.
  - by apply elem_of_nil in Hin.
  - apply elem_of_cons in Hin as [<-|Hin]; simpl.
    + eauto.
    + destruct (str_head line) as [c|e]; simpl; [|eauto].
      destruct (decide (c = "-"%char)).
      * destruct (decide (String.length line = 1)); [eauto|].
        destruct (func _); simpl; [by apply IH|eauto].
      * destruct (func _); simpl; [by apply IH|eauto].
Qed.

(** With the default [func=str] the exception is the [ValueError] of the
    guard, provided the earlier lines are not themselves empty or bare. *)
Lemma split_negations_go_str_dash pre post neg pos :
  Forall (λ l, l ≠ ""%string ∧ l ≠ "-"%string) pre →
  split_negations_go str_func (pre ++ "-"%string :: post) neg pos
  = Raise (ValueError "'-' negation without a token").
Proof.
  intros Hpre. revert neg pos.
  induction Hpre as [|line pre [Hne Hnd] _ IH]; intros neg pos; simpl; [done|].
  destruct line as [|c line]; [done|]. simpl.
  destruct (decide (c = "-"%char)) as [->|]; [|apply IH].
  destruct (decide (S (String.length line) = 1)) as [Hl|]; [|apply IH].
  destruct line; [done|discriminate].
Qed.

Section node.
Context {A C : Type} `{Env A C}.
Variable dk : disk.
Variable path : string.

(** A method that raises from every state. *)
Definition raises {X} (m : @M A C X) : Prop :=
  ∀ s, ∃ e s', runM m s = (Raise e, s').

Lemma raises_raise {X} e : raises (raise (X:=X) e).
Proof. intros s. by eexists _, _. Qed.

Lemma raises_lift {X} (r : result X) e : r = Raise e → raises (lift r).
Proof. intros -> s. by eexists _, _. Qed.

Lemma raises_bind {X Y} (m : @M A C X) (k : X → @M A C Y) :
  (∀ x, raises (k x)) → raises (m ≫= k).
Proof.
  intros Hk s. unfold mbind, M_bind. simpl.
  destruct (runM m s) as [[x|e] s']; [apply Hk|by eexists _, _].
Qed.

Lemma raises_bind_l {X Y} (m : @M A C X) (k : X → @M A C Y) :
  raises m → raises (m ≫= k).
Proof.
  intros Hm s. unfold mbind, M_bind. simpl.
  destruct (Hm s) as (e & s' & ->). by eexists _, _.
Qed.

Lemma raises_split_negations {T} (func : string → result T) data :
  "-"%string ∈ data → raises (lift (split_negations data func)).
Proof.
  intros Hin. destruct (split_negations_go_dash func data [] [] Hin) as [e He].
  by apply raises_lift with (e := e).
Qed.

Lemma raises_forM {X S} (f : S → X → @M A C S) x l :
  (∀ acc, raises (f acc x)) → x ∈ l → ∀ acc, raises (forM f acc l).
Proof.
  intros Hf. induction l as [|y l IH]; intros Hin acc.
  - by apply elem_of_nil in Hin.
  - apply elem_of_cons in Hin as [<-|Hin]; simpl.
    + intros s. unfold mbind, M_bind. simpl.
      destruct (Hf acc s) as (e & s' & ->). by eexists _, _.
    + apply raises_bind. intros acc'. by apply IH.
Qed.

Lemma load_decorator_raises {D X} file (handler : list string → D)
    fallback (func : D → @M A C X) lines :
  read_file dk (pjoin path file) = Ok (Some lines) →
  raises (func (handler lines)) →
  ∀ s, ∃ e s',
    runM (load_decorator dk path file handler fallback func) s
    = (Raise (reraise path file e), s').
Proof.
  intros Hread Hraise s. unfold load_decorator, try_with. simpl.
  rewrite Hread. simpl.
  destruct (Hraise s) as (e & s' & ->). by eexists _, _.
Qed.

Lemma parse_package_use_raises data :
  "-"%string ∈ data → raises (_parse_package_use dk path data).
Proof.
  intros Hin. unfold _parse_package_use. apply raises_bind_l.
  unfold package_use_chunks. apply raises_forM with (x := "-"%string);
    [|done].
  intros acc. change (str_split "-") with ["-"%string].
  apply raises_bind. intros kls. apply raises_bind. intros a.
  simpl. apply raises_raise.
Qed.

Lemma global_use_raises attr base data :
  "-"%string ∈ data → raises (global_use attr base data).
Proof.
  intros Hin. unfold global_use. apply raises_bind. intros [].
  all: try apply raises_raise.
  apply raises_bind_l. by apply raises_split_negations.
Qed.


End node.
End NegationFacts.

Module NegationExamples.
Import Profiles SimpleEnv NegationFacts.

Definition dk : disk :=
  one_profile [("use.mask"%string, ["foo"; "-"; "bar"]%string)].



End NegationExamples.

(** ** Collapsing the environment *)

Module EnvFacts.
Import Profiles OnDiskProfile.

Section env.
Context {N : Type}.
Variable node_env : N → result (gmap string string).
Variable incrementals : list string.
Variable incrementals_unfinalized : gset string.

(** Values stored under incremental keys are lists, or tuples that are
    not empty. *)
Definition incremental_shape (d : gmap string env_value) : Prop :=
  ∀ k v, k ∈ incrementals → d !! k = Some v →
    (∃ l, v = EList l) ∨ (∃ l, v = ETuple l ∧ l ≠ []).

Lemma accumulate_shape d kv d' :
  incremental_shape d → accumulate incrementals d kv = Ok d' →
  incremental_shape d'.
Proof.
  intros Hd. destruct kv as [key val]. unfold accumulate.
  case_bool_decide as Hk.
  - destruct (d !! key) as [[]|] eqn:Hl; intros [= <-]; intros k v Hin;
      (destruct (decide (k = key)) as [->|];
       [rewrite lookup_insert_eq; intros [= <-]; eauto
       |rewrite lookup_insert_ne by done; by apply Hd]).
  - intros [= <-] k v Hin. rewrite lookup_insert_ne by congruence.
    by apply Hd.
Qed.

Lemma accumulated_shape stack d :
  accumulated node_env incrementals stack = Ok d → incremental_shape d.
Proof.
  unfold accumulated.
  assert (incremental_shape ∅) as H0 by (intros k v _; by rewrite lookup_empty).
  revert H0. generalize (∅ : gmap string env_value). revert d.
  induction stack as [|n stack IH]; intros d d0 H0; simpl.
  - by intros [= <-].
  - destruct (node_env n) as [env|]; simpl; [|done].
    destruct (foldM (accumulate incrementals) d0 (map_to_list env))
      as [d1|] eqn:Hacc; simpl; [|done].
    apply IH. clear IH. revert d0 d1 H0 Hacc.
    induction (map_to_list env) as [|kv l IHl]; intros d0 d1 H0; simpl.
    + by intros [= <-].
    + destruct (accumulate incrementals d0 kv) as [d2|] eqn:Ha; simpl; [|done].
      apply IHl. by eapply accumulate_shape.
Qed.

(** A step of the second loop keeps the shape and touches only the key it
    is about. *)
Lemma finalize_ok d k d' :
  incremental_shape d → k ∈ incrementals →
  finalize incrementals_unfinalized d k = Ok d' →
  incremental_shape d' ∧ (∀ k', k' ≠ k → d' !! k' = d !! k').
Proof.
  intros Hd Hk. unfold finalize.
  destruct (d !! k) as [v|] eqn:Hv; [|by intros [= <-]].
  destruct (Hd k v Hk Hv) as [[l ->]|(l & -> & Hl)]; simpl.
  - case_bool_decide as He; simpl; [done|].
    case_bool_decide; [|case_decide]; intros [= <-]; split.
    all: try (intros k' Hne; by rewrite ?lookup_insert_ne, ?lookup_delete_ne
                by done).
    + intros k' v' Hin. destruct (decide (k' = k)) as [->|].
      * rewrite lookup_insert_eq. intros [= <-]. right. eauto.
      * rewrite lookup_insert_ne by done. by apply Hd.
    + intros k' v' Hin. destruct (decide (k' = k)) as [->|].
      * by rewrite lookup_delete_eq.
      * rewrite lookup_delete_ne by done. by apply Hd.
    + intros k' v' Hin. destruct (decide (k' = k)) as [->|].
      * rewrite lookup_insert_eq. intros [= <-]. right. eexists. split; [done|].
        intros Hnil. apply elements_empty_inv in Hnil.
        by apply leibniz_equiv in Hnil.
      * rewrite lookup_insert_ne by done. by apply Hd.
  - case_bool_decide as He; simpl; [done|].
    case_bool_decide; [|case_decide]; intros [= <-]; split.
    all: try (intros k' Hne; by rewrite ?lookup_insert_ne, ?lookup_delete_ne
                by done).
    + intros k' v' Hin. destruct (decide (k' = k)) as [->|].
      * rewrite lookup_insert_eq. intros [= <-]. right. eauto.
      * rewrite lookup_insert_ne by done. by apply Hd.
    + intros k' v' Hin. destruct (decide (k' = k)) as [->|].
      * by rewrite lookup_delete_eq.
      * rewrite lookup_delete_ne by done. by apply Hd.
    + intros k' v' Hin. destruct (decide (k' = k)) as [->|].
      * rewrite lookup_insert_eq. intros [= <-]. right. eexists. split; [done|].
        intros Hnil. apply elements_empty_inv in Hnil.
        by apply leibniz_equiv in Hnil.
      * rewrite lookup_insert_ne by done. by apply Hd.
Qed.

Lemma finalize_raises d k e :
  incremental_shape d → k ∈ incrementals →
  finalize incrementals_unfinalized d k = Raise e → e = TypeError.
Proof.
  intros Hd Hk. unfold finalize.
  destruct (d !! k) as [v|] eqn:Hv; [|done].
  destruct (Hd k v Hk Hv) as [[l ->]|(l & -> & Hl)]; simpl.
  - case_bool_decide; simpl; [by intros [= <-]|].
    case_bool_decide; [done|]. by case_decide.
  - case_bool_decide; simpl; [done|].
    case_bool_decide; [done|]. by case_decide.
Qed.

Lemma finalize_loop_raises rest d inc :
  incremental_shape d → (∀ k, k ∈ rest → k ∈ incrementals) →
  inc ∈ rest → d !! inc = Some (EList []) →
  foldM (finalize incrementals_unfinalized) d rest = Raise TypeError.
Proof.
  revert d. induction rest as [|k rest IH]; intros d Hd Hsub Hin Hinc.
  - by apply elem_of_nil in Hin.
  - simpl.
    assert (k ∈ incrementals) as Hk by (apply Hsub; left).
    destruct (finalize incrementals_unfinalized d k) as [d'|e] eqn:Hf; simpl.
    + destruct (finalize_ok _ _ _ Hd Hk Hf) as [Hd' Hother].
      destruct (decide (inc = k)) as [->|Hne].
      * unfold finalize in Hf. rewrite Hinc in Hf. simpl in Hf. discriminate.
      * apply elem_of_cons in Hin as [?|Hin]; [done|].
        apply IH; [done|intros; apply Hsub; by right|done|].
        by rewrite Hother.
    + f_equal. by eapply finalize_raises.
Qed.

(** C5 at the point where the code departs from it: when the first loop
    leaves an incremental key with an empty token list, [_collapse_env]
    does not return a mapping without that key; [del d[val]] raises
    [TypeError]. *)
Theorem collapse_env_empty_list_raises (stack : list N)
    (d : gmap string env_value) (inc : string) :
  accumulated node_env incrementals stack = Ok d →
  inc ∈ incrementals →
  d !! inc = Some (EList []) →
  _collapse_env node_env incrementals incrementals_unfinalized stack
  = Raise TypeError.
Proof.
  intros Hacc Hin Hd. unfold _collapse_env. rewrite Hacc. simpl.
  eapply finalize_loop_raises; eauto using accumulated_shape.
Qed.

(** The sibling branch does what the specification says: when the
    expansion of a non-empty token list is the empty set, the key is
    deleted. *)
Lemma finalize_empty_expansion d inc l :
  d !! inc = Some (EList l) → l ≠ [] →
  inc ∉ incrementals_unfinalized →
  incremental_expansion ∅ l = ∅ →
  ∃ d', finalize incrementals_unfinalized d inc = Ok d' ∧ d' !! inc = None.
Proof.
  intros Hd Hl Hu He. unfold finalize. rewrite Hd. simpl.
  rewrite bool_decide_eq_false_2 by done. simpl.
  rewrite bool_decide_eq_false_2 by done. rewrite He.
  rewrite decide_True by done. eexists. split; [done|].
  apply lookup_delete_eq.
Qed.

End env.

Lemma collapse_env_empty_list_raises_witness :
  let node_env := λ _ : unit, Ok ({[ "USE"%string := ""%string ]}
                                  : gmap string string) in
  accumulated node_env ["USE"%string] [tt]
  = Ok {[ "USE"%string := EList [] ]} ∧
  "USE"%string ∈ ["USE"%string] ∧
  ({[ "USE"%string := EList [] ]} : gmap string env_value) !! "USE"%string
  = Some (EList []) ∧
  _collapse_env node_env ["USE"%string] ∅ [tt] = Raise TypeError.
Proof.
  intros node_env.
  assert (accumulated node_env ["USE"%string] [tt]
          = Ok {[ "USE"%string := EList [] ]}) as H1 by (by vm_compute).
  assert ("USE"%string ∈ ["USE"%string]) as H2 by apply list_elem_of_here.
  assert (({[ "USE"%string := EList [] ]} : gmap string env_value)
            !! "USE"%string = Some (EList [])) as H3 by reflexivity.
  split; [exact H1|]. split; [exact H2|]. split; [exact H3|].
  exact (collapse_env_empty_list_raises node_env _ ∅ [tt] _ _ H1 H2 H3).
Defined.

End EnvFacts.

Module CollapseExamples.
Import OnDiskProfile CollapseFacts.

(** Two nodes: the parent lists [a] and [b], the child removes [a] and
    adds [c]. *)
Definition two_nodes (n : nat) (attr : string)
    : result (list string * list string) :=
  match n with
  | 0 => Ok ([], ["a"; "b"]%string)
  | _ => Ok (["a"%string], ["c"%string])
  end.


End CollapseExamples.

(** ** Packages with bad metadata are masked *)

Module FilterFacts.
Import Repository.

Section pkg_filter.
Context {Pkg VAtom : Type} `{Countable VAtom}.
Variable versioned_atom : Pkg → VAtom.

Abbreviation masked_repo := (gmap VAtom (MetadataException (Pkg:=Pkg))).

(** The metadata of [p] is bad: its EAPI is unsupported, or reading it
    raises a [MetadataException] attached to [p], or the ebuild file is not
    where its name says. *)
Definition bad_metadata (ev : evaluator) (p : Pkg) : Prop :=
  match check ev p with
  | inl (Some _) => True
  | inl None => False
  | inr (RMetadata e) => e_pkg e = p
  | inr RFileNotFound => True
  | inr (ROther _) => False
  end.

Lemma filter_step_bad ev (m : masked_repo) p :
  bad_metadata ev p →
  ∃ m', filter_step versioned_atom ev m p = Ok (None, m') ∧
        is_Some (m' !! versioned_atom p) ∧
        ∀ k, is_Some (m !! k) → is_Some (m' !! k).
Proof.
  unfold bad_metadata, filter_step, in_masked. intros Hbad.
  case_bool_decide as Hm; [by eauto|].
  destruct (check ev p) as [[e|]|[e| |e]]; try done.
  - eexists. split; [done|]. split; [by rewrite lookup_insert_eq|].
    intros k Hk. destruct (decide (versioned_atom p = k)) as [<-|];
      [by rewrite lookup_insert_eq|by rewrite lookup_insert_ne].
  - subst p. eexists. split; [done|]. split; [by rewrite lookup_insert_eq|].
    intros k Hk. destruct (decide (versioned_atom (e_pkg e) = k)) as [<-|];
      [by rewrite lookup_insert_eq|by rewrite lookup_insert_ne].
  - eexists. split; [done|]. split; [by rewrite lookup_insert_eq|].
    intros k Hk. destruct (decide (versioned_atom p = k)) as [<-|];
      [by rewrite lookup_insert_eq|by rewrite lookup_insert_ne].
Qed.

(** Entries of [_masked] are never removed by the filter. *)
Lemma filter_step_mono ev (m m' : masked_repo) p y k :
  filter_step versioned_atom ev m p = Ok (y, m') →
  is_Some (m !! k) → is_Some (m' !! k).
Proof.
  unfold filter_step. destruct (in_masked versioned_atom m p);
    [by intros [= <- <-]|].
  destruct (check ev p) as [[e|]|[e| |e]]; intros Heq Hk; simplify_eq; try done.
  - destruct (decide (versioned_atom p = k)) as [<-|];
      [by rewrite lookup_insert_eq|by rewrite lookup_insert_ne].
  - destruct (decide (versioned_atom (e_pkg e) = k)) as [<-|];
      [by rewrite lookup_insert_eq|by rewrite lookup_insert_ne].
  - destruct (decide (versioned_atom p = k)) as [<-|];
      [by rewrite lookup_insert_eq|by rewrite lookup_insert_ne].
Qed.

Lemma pkg_filter_mono ev (m : masked_repo) pkgs k :
  is_Some (m !! k) →
  is_Some (masked_after (_pkg_filter versioned_atom ev m pkgs) !! k).
Proof.
  revert m. induction pkgs as [|p pkgs IH]; intros m Hk; simpl; [done|].
  destruct (filter_step versioned_atom ev m p) as [[y m']|e] eqn:Hs;
    simpl; [|done].
  apply IH. by eapply filter_step_mono.
Qed.

(** A masked package is not yielded, whatever its metadata now says. *)
Lemma masked_not_yielded ev (m : masked_repo) pkgs p :
  is_Some (m !! versioned_atom p) →
  p ∉ yielded (_pkg_filter versioned_atom ev m pkgs).
Proof.
  revert m. induction pkgs as [|q pkgs IH]; intros m Hp; simpl.
  - apply not_elem_of_nil.
  - destruct (filter_step versioned_atom ev m q) as [[y m']|e] eqn:Hs; simpl;
      [|apply not_elem_of_nil].
    intros [Hin|Hin]%elem_of_app.
    + destruct y as [y|]; simpl in Hin; [|by apply elem_of_nil in Hin].
      apply list_elem_of_singleton in Hin as ->.
      unfold filter_step in Hs.
      destruct (in_masked versioned_atom m q) eqn:Hm; [discriminate|].
      destruct (check ev q) as [[?|]|[?| |?]]; simplify_eq.
      unfold in_masked in Hm. by apply bool_decide_eq_false_1 in Hm.
    + revert Hin. apply IH. by eapply filter_step_mono.
Qed.

(** A package with bad metadata is not yielded either. *)
Lemma bad_not_yielded ev (m : masked_repo) pkgs p :
  bad_metadata ev p → p ∉ yielded (_pkg_filter versioned_atom ev m pkgs).
Proof.
  intros Hbad. revert m. induction pkgs as [|q pkgs IH]; intros m; simpl.
  - apply not_elem_of_nil.
  - destruct (filter_step versioned_atom ev m q) as [[y m']|e] eqn:Hs; simpl;
      [|apply not_elem_of_nil].
    intros [Hin|Hin]%elem_of_app; [|by apply IH in Hin].
    destruct y as [y|]; simpl in Hin; [|by apply elem_of_nil in Hin].
    apply list_elem_of_singleton in Hin as ->.
    unfold filter_step in Hs.
    destruct (in_masked versioned_atom m q); [discriminate|].
    destruct (check ev q) as [[?|]|[?| |?]] eqn:Hc; simplify_eq.
    unfold bad_metadata in Hbad. by rewrite Hc in Hbad.
Qed.

Lemma pkg_filter_app ev (m : masked_repo) l1 l2 :
  raised_exn (_pkg_filter versioned_atom ev m l1) = None →
  _pkg_filter versioned_atom ev m (l1 ++ l2)
  = let r1 := _pkg_filter versioned_atom ev m l1 in
    let r2 := _pkg_filter versioned_atom ev (masked_after r1) l2 in
    Run (yielded r1 ++ yielded r2) (masked_after r2) (raised_exn r2).
Proof.
  revert m. induction l1 as [|p l1 IH]; intros m; simpl.
  - intros _. by destruct (_pkg_filter versioned_atom ev m l2).
  - destruct (filter_step versioned_atom ev m p) as [[y m']|e]; simpl;
      [|done].
    intros Hr. rewrite IH by done. simpl. by rewrite app_assoc.
Qed.


End pkg_filter.

(** Three packages named by numbers; the second has an unsupported EAPI. *)
Definition sample_evaluator : evaluator (Pkg:=nat) :=
  Evaluator (λ p, inl (negb (p =? 1))) (λ _, inl "99"%string)
            (λ _, inl tt) (λ _, inl tt).


End FilterFacts.

(** ** Framing of the agent RPC *)

Module RpcFacts.
Import AgentRPC.

Lemma to_N_byte_of_N x : Byte.to_N (byte_of_N x) = N.land x 255.
Proof.
  unfold byte_of_N.
  destruct (Byte.of_N (N.land x 255)) as [b|] eqn:Hb; simpl.
  - by apply Byte.to_of_N.
  - apply Byte.of_N_None_iff in Hb.
    change 255%N with (N.ones 8) in Hb. rewrite N.land_ones in Hb.
    pose proof (N.mod_upper_bound x (2 ^ 8)) as Hlt.
    change (N.ones 8) with 255%N in Hb. change (2 ^ 8)%N with 256%N in *. lia.
Qed.

Lemma testbit_byte_of_N x j :
  N.testbit (Byte.to_N (byte_of_N x)) j = N.testbit x j && (j <? 8)%N.
Proof.
  rewrite to_N_byte_of_N, N.land_spec. f_equal.
  change 255%N with (N.ones 8).
  destruct (j <? 8)%N eqn:Hj.
  - apply N.ones_spec_low. by apply N.ltb_lt.
  - apply N.ones_spec_high. by apply N.ltb_ge.
Qed.

Lemma testbit_above n i : (n < 2 ^ 32)%N → (32 ≤ i)%N → N.testbit n i = false.
Proof.
  intros Hn Hi. rewrite <- (N.mod_small n (2 ^ 32)) by done.
  by apply N.mod_pow2_bits_high.
Qed.

(** [struct.unpack] undoes [struct.pack] below 2^32. *)
Lemma unpack_pack n bs :
  struct_pack_L n = Ok bs → struct_unpack_L bs = Ok n ∧ length bs = 4.
Proof.
  unfold struct_pack_L. destruct (n <? 2 ^ 32)%N eqn:Hn; [|done].
  apply N.ltb_lt in Hn. intros [= <-]. split; [|done].
  unfold struct_unpack_L. f_equal. apply N.bits_inj. intros i.
  rewrite !N.lor_spec.
  destruct (N.lt_ge_cases i 8) as [H8|H8];
    [|destruct (N.lt_ge_cases i 16) as [H16|H16];
      [|destruct (N.lt_ge_cases i 24) as [H24|H24]]].
  - rewrite !N.shiftl_spec_low by lia. simpl.
    rewrite testbit_byte_of_N.
    replace (i <? 8)%N with true by (symmetry; by apply N.ltb_lt).
    by rewrite andb_true_r.
  - rewrite (N.shiftl_spec_low _ 24), (N.shiftl_spec_low _ 16) by lia.
    rewrite N.shiftl_spec_high' by lia. rewrite !testbit_byte_of_N.
    rewrite N.shiftr_spec'. replace (i - 8 + 8)%N with i by lia.
    replace (i - 8 <? 8)%N with true by (symmetry; apply N.ltb_lt; lia).
    replace (i <? 8)%N with false by (symmetry; apply N.ltb_ge; lia).
    simpl. by rewrite !andb_true_r, andb_false_r, orb_false_r.
  - rewrite (N.shiftl_spec_low _ 24) by lia.
    rewrite !N.shiftl_spec_high' by lia. rewrite !testbit_byte_of_N.
    rewrite !N.shiftr_spec'.
    replace (i - 16 + 16)%N with i by lia.
    replace (i - 16 <? 8)%N with true by (symmetry; apply N.ltb_lt; lia).
    replace (i - 8 <? 8)%N with false by (symmetry; apply N.ltb_ge; lia).
    replace (i <? 8)%N with false by (symmetry; apply N.ltb_ge; lia).
    simpl. by rewrite !andb_true_r, !andb_false_r, !orb_false_r.
  - rewrite !N.shiftl_spec_high' by lia. rewrite !testbit_byte_of_N.
    rewrite !N.shiftr_spec'.
    replace (i - 24 + 24)%N with i by lia.
    replace (i - 16 <? 8)%N with false by (symmetry; apply N.ltb_ge; lia).
    replace (i - 8 <? 8)%N with false by (symmetry; apply N.ltb_ge; lia).
    replace (i <? 8)%N with false by (symmetry; apply N.ltb_ge; lia).
    rewrite !andb_false_r, !orb_false_r.
    destruct (N.lt_ge_cases i 32) as [H32|H32].
    + replace (i - 24 <? 8)%N with true by (symmetry; apply N.ltb_lt; lia).
      by rewrite andb_true_r.
    + replace (i - 24 <? 8)%N with false by (symmetry; apply N.ltb_ge; lia).
      rewrite andb_false_r. symmetry. by apply testbit_above.
Qed.

Lemma os_write_spec fd bs w p :
  fd_pipe w !! fd = Some p →
  os_write fd bs w
  = Ok (World (fd_pipe w)
          (<[p := default [] (pipe_buf w !! p) ++ bs]> (pipe_buf w))).
Proof. intros Hfd. unfold os_write. by rewrite Hfd. Qed.

Lemma os_read_spec fd n w p xs ys :
  fd_pipe w !! fd = Some p →
  pipe_buf w !! p = Some (xs ++ ys) →
  length xs = N.to_nat n →
  os_read fd n w = Ok (xs, World (fd_pipe w) (<[p := ys]> (pipe_buf w))).
Proof.
  intros Hfd Hbuf Hlen. unfold os_read. rewrite Hfd, Hbuf. simpl.
  by rewrite <- Hlen, take_app_length, drop_app_length.
Qed.

Section rpc.
Context `{JsonCodec}.

(** C10. A value written by [JsonRPC.write] on one end of an empty pipe is
    what [JsonRPC.read] returns on the other end, for every value whose
    encoding [json.loads] maps back to it and is at most 2^32 - 1 bytes
    long; the pipe is empty again afterwards. *)
Theorem write_read_roundtrip (writer reader : JsonRPC) (v : json)
    (s : list byte) (w : world) (p : nat) :
  fd_pipe w !! out_pipe_ writer = Some p →
  fd_pipe w !! in_pipe_ reader = Some p →
  default [] (pipe_buf w !! p) = [] →
  json_dumps v = Ok s →
  json_loads s = Ok v →
  (N.of_nat (length s) ≤ 2 ^ 32 - 1)%N →
  ∃ w1 w2, write writer v w = Ok w1 ∧ read reader w1 = Ok (v, w2) ∧
           pipe_buf w2 !! p = Some [].
Proof.
  intros Hout Hin Hempty Hdumps Hloads Hlen.
  destruct (struct_pack_L (N.of_nat (length s))) as [szs|e] eqn:Hpack.
  2:{ unfold struct_pack_L in Hpack.
      replace (N.of_nat (length s) <? 2 ^ 32)%N with true in Hpack; [done|].
      symmetry. apply N.ltb_lt. change (2 ^ 32)%N with 4294967296%N in *. lia. }
  destruct (unpack_pack _ _ Hpack) as [Hunpack Hszs].
  set (w1 := World (fd_pipe w) (<[p := szs]> (pipe_buf w))).
  set (w2 := World (fd_pipe w) (<[p := szs ++ s]> (pipe_buf w1))).
  set (w3 := World (fd_pipe w) (<[p := s]> (pipe_buf w2))).
  set (w4 := World (fd_pipe w) (<[p := []]> (pipe_buf w3))).
  assert (write writer v w = Ok w2) as Hwrite.
  { unfold write. rewrite Hdumps. simpl. rewrite Hpack. simpl.
    rewrite (os_write_spec _ _ w p Hout), Hempty. simpl.
    rewrite (os_write_spec _ _ w1 p Hout). simpl.
    by rewrite lookup_insert_eq. }
  assert (read reader w2 = Ok (v, w4)) as Hread.
  { unfold read.
    rewrite (os_read_spec _ 4 w2 p szs s Hin); simpl;
      [|by rewrite lookup_insert_eq|by rewrite Hszs].
    rewrite Hunpack. simpl.
    rewrite (os_read_spec _ _ w3 p s [] Hin); simpl;
      [|by rewrite lookup_insert_eq, app_nil_r|by rewrite Nat2N.id].
    by rewrite Hloads. }
  exists w2, w4. split; [done|]. split; [done|].
  simpl. by rewrite lookup_insert_eq.
Qed.

End rpc.
End RpcFacts.

(** A codec that knows a finite table of messages and their encodings:
    enough to run the RPC on examples. *)
Module TableCodec.
Import AgentRPC.

Definition codec (table : list (json * list byte)) : JsonCodec := {|
  json_dumps := λ v,
    match list_find (λ e, json_eqb v e.1 = true) table with
    | Some (_, e) => Ok e.2
    | None => Raise TypeError
    end;
  json_loads := λ bs,
    match list_find (λ e, e.2 = bs) table with
    | Some (_, e) => Ok e.1
    | None => Raise (ValueError "no JSON object could be decoded")
    end;
|}.

Definition request : list (string * json) :=
  [("status"%string, JStr "request"); ("id"%string, JNum 7)].
Definition request_bytes : list byte := list_byte_of_string "request-7".

(** A reply that echoes the request's [id] but has no [status]. *)
Definition reply : list (string * json) := [("id"%string, JNum 7)].
Definition reply_bytes : list byte := list_byte_of_string "reply-7".

Definition table : list (json * list byte) :=
  [(JDict request, request_bytes); (JDict reply, reply_bytes);
   (JNull, list_byte_of_string "null")].

(** Descriptor 3 reads from pipe 0, which already holds the framed reply;
    descriptor 4 writes to pipe 1. *)
Definition agent_world : world :=
  World {[ 3%Z := 0; 4%Z := 1 ]}
        {[ 0 := ["000"; "000"; "000"; "007"]%byte ++ reply_bytes; 1 := [] ]}.

(** Descriptors 5 (write end) and 6 (read end) of one empty pipe. *)
Definition pipe_world : world :=
  World {[ 5%Z := 0; 6%Z := 0 ]} {[ 0 := [] ]}.

End TableCodec.

Module RpcCallFacts.
Import AgentRPC.

Section call.
Context `{JsonCodec}.

(** C8 at the point where the code departs from it: a reply that echoes
    every request field but carries no [status] is a malformed reply, yet
    what leaves [agent_rpc_call] is the [KeyError] of [repl['status']], not
    [GenericBuildError]. *)
Theorem reply_without_status_raises_KeyError
    (environ : gmap string string) (fds : string) (i o : Z)
    (request request' repl : list (string * json)) (w w1 w2 : world) :
  environ !! "CB_AGENT_RPC_FDS"%string = Some fds →
  mapM int (str_split fds) = Ok [i; o] →
  write (MkJsonRPC i o) (JDict request) w = Ok w1 →
  read (MkJsonRPC i o) w1 = Ok (JDict repl, w2) →
  py_del "status" request = Ok request' →
  check_echo (JDict repl) request' = Ok tt →
  assoc "status" repl = None →
  agent_rpc_call environ request w = Raise KeyError.
Proof.
  intros Henv Hfds Hwrite Hread Hdel Hecho Hstatus.
  unfold agent_rpc_call. rewrite Henv, Hfds. simpl. rewrite Hwrite. simpl.
  unfold read_reply. rewrite Hread. simpl. rewrite Hdel. simpl.
  rewrite Hecho. simpl. by rewrite Hstatus.
Qed.

End call.

Lemma reply_without_status_raises_KeyError_witness :
  let _ := TableCodec.codec TableCodec.table in
  let environ : gmap string string :=
    {[ "CB_AGENT_RPC_FDS"%string := "3 4"%string ]} in
  ∃ w1 w2,
    environ !! "CB_AGENT_RPC_FDS"%string = Some "3 4"%string ∧
    mapM int (str_split "3 4") = Ok [3%Z; 4%Z] ∧
    write (MkJsonRPC 3 4) (JDict TableCodec.request) TableCodec.agent_world
    = Ok w1 ∧
    read (MkJsonRPC 3 4) w1 = Ok (JDict TableCodec.reply, w2) ∧
    py_del "status" TableCodec.request = Ok TableCodec.reply ∧
    check_echo (JDict TableCodec.reply) TableCodec.reply = Ok tt ∧
    assoc "status" TableCodec.reply = None ∧
    agent_rpc_call environ TableCodec.request TableCodec.agent_world
    = Raise KeyError.
Proof.
  intros codec environ.
  destruct (write (MkJsonRPC 3 4) (JDict TableCodec.request)
              TableCodec.agent_world) as [w1|] eqn:Hw; [|by vm_compute in Hw].
  destruct (read (MkJsonRPC 3 4) w1) as [[r w2]|] eqn:Hr.
  2:{ vm_compute in Hw. injection Hw as <-. by vm_compute in Hr. }
  assert (r = JDict TableCodec.reply) as ->.
  { vm_compute in Hw. injection Hw as <-. vm_compute in Hr. by injection Hr. }
  assert (environ !! "CB_AGENT_RPC_FDS"%string = Some "3 4"%string) as H1
    by reflexivity.
  assert (mapM int (str_split "3 4") = Ok [3%Z; 4%Z]) as H2 by reflexivity.
  assert (py_del "status" TableCodec.request = Ok TableCodec.reply) as H3
    by reflexivity.
  assert (check_echo (JDict TableCodec.reply) TableCodec.reply = Ok tt) as H4
    by reflexivity.
  assert (assoc "status" TableCodec.reply = None) as H5 by reflexivity.
  exists w1, w2. repeat (split; [assumption || reflexivity|]).
  exact (reply_without_status_raises_KeyError environ "3 4" 3 4 _ _ _ _ _ _
           H1 H2 Hw Hr H3 H4 H5).
Defined.

Lemma write_read_roundtrip_witness :
  let _ := TableCodec.codec TableCodec.table in
  let s := list_byte_of_string "null" in
  fd_pipe TableCodec.pipe_world !! out_pipe_ (MkJsonRPC 6 5) = Some 0 ∧
  fd_pipe TableCodec.pipe_world !! in_pipe_ (MkJsonRPC 6 5) = Some 0 ∧
  default [] (pipe_buf TableCodec.pipe_world !! 0) = [] ∧
  json_dumps JNull = Ok s ∧
  json_loads s = Ok JNull ∧
  (N.of_nat (length s) ≤ 2 ^ 32 - 1)%N ∧
  ∃ w1 w2,
    write (MkJsonRPC 6 5) JNull TableCodec.pipe_world = Ok w1 ∧
    read (MkJsonRPC 6 5) w1 = Ok (JNull, w2) ∧
    pipe_buf w2 !! 0 = Some [].
Proof.
  intros codec s.
  assert (fd_pipe TableCodec.pipe_world !! out_pipe_ (MkJsonRPC 6 5) = Some 0)
    as H1 by reflexivity.
  assert (fd_pipe TableCodec.pipe_world !! in_pipe_ (MkJsonRPC 6 5) = Some 0)
    as H2 by reflexivity.
  assert (default [] (pipe_buf TableCodec.pipe_world !! 0) = []) as H3
    by reflexivity.
  assert (json_dumps JNull = Ok s) as H4 by reflexivity.
  assert (json_loads s = Ok JNull) as H5 by reflexivity.
  assert (N.of_nat (length s) ≤ 2 ^ 32 - 1)%N as H6 by (vm_compute; discriminate).
  do 6 (split; [assumption|]).
  exact (RpcFacts.write_read_roundtrip (MkJsonRPC 6 5) (MkJsonRPC 6 5) JNull s
           TableCodec.pipe_world 0 H1 H2 H3 H4 H5 H6).
Defined.

End RpcCallFacts.

(** ** Lazy attributes of a node are cached *)

Module CacheFacts.
Import Profiles.

Section node.
Context {A C : Type} `{Env A C}.

Lemma py_eq_refl (v : @value A C) : py_eq v v.
Proof. by destruct v. Qed.

Lemma bind_ok {X Y} (m : @M A C X) (k : X → @M A C Y) s y s1 :
  runM (m ≫= k) s = (Ok y, s1) →
  ∃ x s', runM m s = (Ok x, s') ∧ runM (k x) s' = (Ok y, s1).
Proof.
  unfold mbind, M_bind. simpl.
  destruct (runM m s) as [[x|e] s']; [eauto|done].
Qed.

Lemma try_with_ok {X} (m : @M A C X) h s x s1 :
  runM (try_with m h) s = (Ok x, s1) → runM m s = (Ok x, s1).
Proof. unfold try_with. simpl. by destruct (runM m s) as [[?|?] ?]. Qed.

Lemma lift_ok {X} (r : result X) (s : gmap string (@value A C)) x s1 :
  runM (lift r) s = (Ok x, s1) → r = Ok x ∧ s1 = s.
Proof. simpl. by intros [= -> ->]. Qed.

Lemma setattr_ok attr (v : @value A C) s u s1 :
  runM (setattr attr v) s = (Ok u, s1) → s1 = <[attr := v]> s.
Proof. simpl. by intros [= _ <-]. Qed.

Lemma mret_ok {X} (x y : X) (s s1 : gmap string (@value A C)) :
  runM (mret x) s = (Ok y, s1) → y = x ∧ s1 = s.
Proof. unfold mret, M_ret. simpl. by intros [= -> ->]. Qed.

Lemma lookup_or_raise_ok attr e (s : gmap string (@value A C)) v s1 :
  runM (lookup_or attr (raise e)) s = (Ok v, s1) →
  s1 = s ∧ s !! attr = Some v.
Proof.
  unfold lookup_or. simpl. destruct (s !! attr); [|done].
  by intros [= -> ->].
Qed.

Lemma load_decorator_ok {D X} dk path file (handler : list string → D)
    fallback (func : D → @M A C X) s x s1 :
  runM (load_decorator dk path file handler fallback func) s = (Ok x, s1) →
  ∃ data, runM (func data) s = (Ok x, s1).
Proof.
  unfold load_decorator. intros Hrun%try_with_ok.
  apply bind_ok in Hrun as (data & s' & [_ ->]%lift_ok & Hrun).
  destruct data; eauto.
Qed.

(** The tail shared by the loaders: store, then return. *)
Lemma store_return_ok attr (stored returned : @value A C) s v s1 :
  runM (setattr attr stored ≫= λ _, mret returned) s = (Ok v, s1) →
  py_eq returned stored →
  ∃ v', s1 !! attr = Some v' ∧ py_eq v v'.
Proof.
  intros (u & s' & ->%setattr_ok & [-> ->]%mret_ok)%bind_ok Heq.
  exists stored. by rewrite lookup_insert_eq.
Qed.

Variable dk : disk.
Variable path : string.

(** Every loader, when it returns, has stored under the attribute's name a
    value equal to the one it returns. *)
Definition stores (attr : string) (m : @M A C value) : Prop :=
  ∀ s v s1, runM m s = (Ok v, s1) →
    ∃ v', s1 !! attr = Some v' ∧ py_eq v v'.

Lemma stores_eapi : stores "eapi" (_load_eapi dk path).
Proof.
  intros s v s1 [data Hrun]%load_decorator_ok. simpl in Hrun.
  destruct (filter _ _) as [|e [|]]; [done| |done].
  destruct (_ && _); [|done].
  eapply store_return_ok; [done|]. apply py_eq_refl.
Qed.

Lemma stores_eapi_atom : stores "eapi_atom" (_load_eapi_atom dk path).
Proof.
  intros s v s1 (e & s' & _ & Hrun)%bind_ok.
  destruct e; try done. destruct (has_eapi_atom _); [|done].
  eapply store_return_ok; [done|]. apply py_eq_refl.
Qed.

Lemma stores_parents : stores "parents" (_load_parents dk path).
Proof.
  intros s v s1 [data Hrun]%load_decorator_ok.
  apply bind_ok in Hrun as (ps & s' & _ & Hrun).
  eapply store_return_ok; [done|]. apply py_eq_refl.
Qed.

Lemma stores_pkg_provided : stores "pkg_provided" (_load_pkg_provided dk path).
Proof.
  intros s v s1 [data Hrun]%load_decorator_ok.
  apply bind_ok in Hrun as ([neg pos] & s' & _ & Hrun).
  eapply store_return_ok; [done|]. apply py_eq_refl.
Qed.

Lemma stores_virtuals : stores "virtuals" (_load_virtuals dk path).
Proof.
  intros s v s1 [data Hrun]%load_decorator_ok.
  apply bind_ok in Hrun as (d & s' & _ & Hrun).
  eapply store_return_ok; [done|]. done.
Qed.

Lemma stores_masks : stores "masks" (_load_masks dk path).
Proof.
  intros s v s1 [data Hrun]%load_decorator_ok.
  apply bind_ok in Hrun as (kls & s' & _ & Hrun).
  destruct kls; try done.
  apply bind_ok in Hrun as ([neg pos] & s'' & _ & Hrun).
  eapply store_return_ok; [done|]. apply py_eq_refl.
Qed.

Lemma stores_deprecated : stores "deprecated" (_load_deprecated dk path).
Proof.
  intros s v s1 [data Hrun]%load_decorator_ok.
  destruct data as [[|first rest]|]; [done| |];
    (eapply store_return_ok; [done|]; apply py_eq_refl).
Qed.

Lemma stores_use attr file :
  stores attr
    (load_decorator dk path file iter_read_bash [] (λ data,
       d ← _parse_package_use dk path data;
       _ ← setattr attr (VUse d); mret (VUse d))).
Proof.
  intros s v s1 [data Hrun]%load_decorator_ok.
  apply bind_ok in Hrun as (d & s' & _ & Hrun).
  eapply store_return_ok; [done|]. apply py_eq_refl.
Qed.

Lemma stores_global_use attr file base :
  stores attr
    (load_decorator dk path file iter_read_bash [] (global_use attr base)).
Proof.
  intros s v s1 [data Hrun]%load_decorator_ok. unfold global_use in Hrun.
  apply bind_ok in Hrun as (d & s' & _ & Hrun).
  destruct d; try done.
  apply bind_ok in Hrun as ([neg pos] & s'' & _ & Hrun).
  eapply store_return_ok; [done|]. apply py_eq_refl.
Qed.

Lemma stores_default_env : stores "default_env" (_load_default_env dk path).
Proof.
  intros s v s1 Hrun. unfold _load_default_env in Hrun.
  destruct (read_file dk _) as [[f|]|]; [| |done].
  - apply bind_ok in Hrun as (d & s' & _ & Hrun).
    eapply store_return_ok; [done|]. done.
  - eapply store_return_ok; [done|]. done.
Qed.

Lemma stores_bashrc : stores "bashrc" (_load_bashrc dk path).
Proof.
  intros s v s1 Hrun. eapply store_return_ok; [done|]. apply py_eq_refl.
Qed.

(** [_load_packages] stores both [system] and [visibility]. *)
Lemma packages_ok s v s1 :
  runM (_load_packages dk path) s = (Ok v, s1) →
  is_Some (s1 !! "system"%string) ∧ is_Some (s1 !! "visibility"%string).
Proof.
  intros [data Hrun]%load_decorator_ok.
  apply bind_ok in Hrun as ([[[sys neg_sys] vis] neg_vis] & s' & _ & Hrun).
  apply bind_ok in Hrun as (u & s2 & ->%setattr_ok & Hrun).
  apply bind_ok in Hrun as (u' & s3 & ->%setattr_ok & [_ ->]%mret_ok).
  split.
  - by rewrite lookup_insert_ne, lookup_insert_eq.
  - by rewrite lookup_insert_eq.
Qed.

Lemma getattr_stores attr s v s1 :
  attr ∈ lazy_attrs →
  runM (getattr dk path attr) s = (Ok v, s1) →
  ∃ v', s1 !! attr = Some v' ∧ py_eq v v'.
Proof.
  intros Hattr. unfold getattr, lookup_or at 1. simpl.
  destruct (s !! attr) as [v0|] eqn:Hs.
  { intros [= <- <-]. exists v0. split; [done|apply py_eq_refl]. }
  unfold lazy_attrs in Hattr.
  repeat (apply elem_of_cons in Hattr as [->|Hattr]);
    [..|by apply elem_of_nil in Hattr].
  - intros (u & s' & _ & [-> Hl]%lookup_or_raise_ok)%bind_ok.
    exists v. split; [done|apply py_eq_refl].
  - intros (u & s' & _ & [-> Hl]%lookup_or_raise_ok)%bind_ok.
    exists v. split; [done|apply py_eq_refl].
  - apply stores_masks.
  - apply stores_use.
  - apply stores_use.
  - apply stores_use.
  - apply stores_global_use.
  - apply stores_global_use.
  - apply stores_default_env.
  - apply stores_virtuals.
  - apply stores_pkg_provided.
  - apply stores_eapi.
  - apply stores_eapi_atom.
  - apply stores_deprecated.
  - apply stores_parents.
  - apply stores_bashrc.
Qed.

End node.

(** C7. When reading a lazy attribute of a node returns a value, reading
    it again returns an equal value: the second read finds the attribute on
    the instance, leaves the instance as it is, and does not depend on what
    the disk holds by then. *)
Theorem lazy_attribute_is_cached {A C : Type} `{Env A C} (dk dk' : disk)
    (path attr : string) (s s1 : inst_dict) (v : value) :
  attr ∈ lazy_attrs →
  runM (getattr dk path attr) s = (Ok v, s1) →
  ∃ v', runM (getattr dk' path attr) s1 = (Ok v', s1) ∧ py_eq v v'.
Proof.
  intros Hattr Hrun.
  destruct (getattr_stores dk path attr s v s1 Hattr Hrun) as (v' & Hs1 & Heq).
  exists v'. split; [|done].
  unfold getattr, lookup_or. simpl. by rewrite Hs1.
Qed.

End CacheFacts.

Module CacheExamples.
Import Profiles SimpleEnv CacheFacts.

Definition dk : disk :=
  one_profile [("virtuals"%string, ["virtual/editor app-editors/nano"%string])].

(** The same profile after its files were removed. *)
Definition dk_later : disk := one_profile [].

Lemma lazy_attribute_is_cached_witness :
  "virtuals"%string ∈ lazy_attrs ∧
  ∃ v s1, runM (getattr dk "/p" "virtuals") ∅ = (Ok v, s1) ∧
    ∃ v', runM (getattr dk_later "/p" "virtuals") s1 = (Ok v', s1) ∧
          py_eq v v'.
Proof.
  assert ("virtuals"%string ∈ lazy_attrs) as H1.
  { unfold lazy_attrs. do 9 apply list_elem_of_further.
    apply list_elem_of_here. }
  split; [exact H1|].
  destruct (runM (getattr dk "/p" "virtuals") ∅) as [[v|e] s1] eqn:Hrun;
    [|by vm_compute in Hrun].
  exists v, s1. split; [reflexivity|].
  exact (lazy_attribute_is_cached dk dk_later "/p" "virtuals" ∅ s1 v H1 Hrun).
Defined.

End CacheExamples.

(** ** Scanning the updates directory *)

Module ScanFacts.
Import PkgUpdates.

(** The pattern as the specification words it: [^[1-4]Q-\d{4}$]. *)
Definition spec_re_match (x : string) : option (string * string) :=
  match valid_updates_re_match x with
  | Some (q, y) =>
      if bool_decide (q ∈ ["1"; "2"; "3"; "4"]%string) then Some (q, y)
      else None
  | None => None
  end.

(** Year and quarter of a file name, as numbers. *)
Definition year_quarter (x : string) : nat * nat :=
  match valid_updates_re_match x with
  | Some (q, y) => (digits_val y, digits_val q)
  | None => (0, 0)
  end.

Definition lex_le (a b : nat * nat) : Prop :=
  a.1 < b.1 ∨ (a.1 = b.1 ∧ a.2 ≤ b.2).

Lemma digits_val_go_spec acc s :
  digits_val_go acc s = acc * 10 ^ String.length s + digits_val s.
Proof.
  unfold digits_val. revert acc.
  induction s as [|c s IH]; intros acc; simpl; [lia|].
  rewrite IH, (IH (digit_val c)). lia.
Qed.

Lemma digits_val_cons c s :
  digits_val (String c s) = digit_val c * 10 ^ String.length s + digits_val s.
Proof. unfold digits_val at 1. simpl. by rewrite digits_val_go_spec. Qed.

Lemma digit_val_bound c : is_digit c = true → digit_val c < 10.
Proof.
  unfold is_digit, digit_val. intros [H1 H2]%andb_true_iff.
  apply Nat.leb_le in H1, H2. lia.
Qed.

Lemma digits_val_bound s :
  all_digits s = true → digits_val s < 10 ^ String.length s.
Proof.
  induction s as [|c s IH]; simpl; [unfold digits_val; simpl; lia|].
  intros [Hc Hs]%andb_true_iff. rewrite digits_val_cons.
  specialize (IH Hs). pose proof (digit_val_bound c Hc). nia.
Qed.

Lemma ascii_compare_digits c1 c2 :
  is_digit c1 = true → is_digit c2 = true →
  Ascii.compare c1 c2 = Nat.compare (digit_val c1) (digit_val c2).
Proof.
  unfold is_digit, digit_val, Ascii.compare, nat_of_ascii.
  intros [H1 _]%andb_true_iff [H2 _]%andb_true_iff.
  apply Nat.leb_le in H1, H2.
  rewrite N2Nat.inj_compare.
  destruct (Nat.compare_spec (N.to_nat (N_of_ascii c1))
              (N.to_nat (N_of_ascii c2)));
    symmetry; [apply Nat.compare_eq_iff|apply Nat.compare_lt_iff
              |apply Nat.compare_gt_iff]; lia.
Qed.

(** On digit strings of one length, code-point order is numeric order. *)
Lemma compare_digits s t :
  all_digits s = true → all_digits t = true →
  String.length s = String.length t →
  String.compare s t = Nat.compare (digits_val s) (digits_val t).
Proof.
  revert t. induction s as [|c s IH]; intros [|d t]; simpl; try done.
  intros [Hc Hs]%andb_true_iff [Hd Ht]%andb_true_iff [= Hlen].
  rewrite !digits_val_cons, ascii_compare_digits, IH by done.
  pose proof (digits_val_bound s Hs). pose proof (digits_val_bound t Ht).
  rewrite Hlen in *.
  destruct (Nat.compare_spec (digit_val c) (digit_val d)) as [->| |].
  - destruct (Nat.compare_spec (digits_val s) (digits_val t));
      symmetry; [apply Nat.compare_eq_iff|apply Nat.compare_lt_iff
                |apply Nat.compare_gt_iff]; lia.
  - symmetry. apply Nat.compare_lt_iff. nia.
  - symmetry. apply Nat.compare_gt_iff. nia.
Qed.

Lemma re_match_groups x q y :
  valid_updates_re_match x = Some (q, y) →
  all_digits q = true ∧ String.length q = 1 ∧
  all_digits y = true ∧ String.length y = 4.
Proof.
  unfold valid_updates_re_match.
  destruct x as [|c0 [|c1 [|c2 [|y1 [|y2 [|y3 [|y4 rest]]]]]]]; try done.
  destruct (is_digit c0) eqn:H0; [|done].
  destruct (bool_decide (c1 = "Q"%char)); [|done].
  destruct (bool_decide (c2 = "-"%char)); [|done].
  destruct (is_digit y1) eqn:H1; [|done].
  destruct (is_digit y2) eqn:H2; [|done].
  destruct (is_digit y3) eqn:H3; [|done].
  destruct (is_digit y4) eqn:H4; [|done].
  simpl. destruct (_ || _); [|done]. intros [= <- <-]. simpl.
  by rewrite H0, H1, H2, H3, H4.
Qed.

(** An entry of the list being sorted: the key was taken from the name. *)
Definition wf_entry (e : (string * string) * string) : Prop :=
  valid_updates_re_match e.2 = Some (e.1.2, e.1.1).

Lemma key_le_entry e1 e2 :
  wf_entry e1 → wf_entry e2 →
  key_le e1.1 e2.1 = true ↔ lex_le (year_quarter e1.2) (year_quarter e2.2).
Proof.
  unfold wf_entry, year_quarter, key_le, lex_le, String.leb.
  intros H1 H2. rewrite H1, H2. simpl.
  apply re_match_groups in H1 as (Hq1 & Hlq1 & Hy1 & Hly1).
  apply re_match_groups in H2 as (Hq2 & Hlq2 & Hy2 & Hly2).
  rewrite !compare_digits by (done || congruence).
  destruct (Nat.compare_spec (digits_val e1.1.1) (digits_val e2.1.1));
    destruct (Nat.compare_spec (digits_val e1.1.2) (digits_val e2.1.2));
    split; (done || lia || auto).
Qed.

Definition entry_le (e1 e2 : (string * string) * string) : Prop :=
  lex_le (year_quarter e1.2) (year_quarter e2.2).

Lemma entry_le_total e1 e2 : entry_le e1 e2 ∨ entry_le e2 e1.
Proof. unfold entry_le, lex_le. lia. Qed.

Lemma sort_insert_perm {T} (x : (string * string) * T) l :
  sort_insert x l ≡ₚ x :: l.
Proof.
  induction l as [|y l IH]; simpl; [done|].
  destruct (key_le x.1 y.1); [done|]. rewrite IH. apply Permutation_swap.
Qed.

Lemma sort_by_key_perm {T} (l : list ((string * string) * T)) :
  sort_by_key l ≡ₚ l.
Proof.
  induction l as [|x l IH]; simpl; [done|].
  by rewrite sort_insert_perm, IH.
Qed.

Lemma sort_insert_sorted x l :
  wf_entry x → Forall wf_entry l →
  Sorted entry_le l → Sorted entry_le (sort_insert x l).
Proof.
  intros Hx Hl Hs. induction Hs as [|y l Hs IH Hhd]; simpl.
  - by repeat constructor.
  - apply Forall_cons in Hl as [Hy Hl].
    destruct (key_le x.1 y.1) eqn:Hle.
    + constructor; [by constructor|]. constructor.
      by apply key_le_entry.
    + assert (entry_le y x) as Hyx.
      { destruct (entry_le_total x y) as [Hxy|]; [|done].
        apply key_le_entry in Hxy; [congruence|done..]. }
      constructor; [by apply IH|].
      destruct l as [|z l]; simpl; [by constructor|].
      destruct (key_le x.1 z.1); constructor; [done|].
      by inversion Hhd.
Qed.

Lemma sort_by_key_sorted l :
  Forall wf_entry l → Sorted entry_le (sort_by_key l).
Proof.
  induction 1 as [|x l Hx Hl IH]; simpl; [constructor|].
  apply sort_insert_sorted; [done| |done].
  by rewrite sort_by_key_perm.
Qed.

(** The entries collected by the loop of [_scan_directory]. *)
Lemma entries_wf (listing : list string) :
  Forall wf_entry
    (omap (λ x, (λ m : string * string, ((m.2, m.1), x))
                  <$> valid_updates_re_match x) listing).
Proof.
  induction listing as [|x listing IH]; simpl; [constructor|].
  destruct (valid_updates_re_match x) as [[q y]|] eqn:Hm; simpl; [|done].
  constructor; [|done]. by unfold wf_entry.
Qed.

Lemma entries_names (listing : list string) :
  snd <$> omap (λ x, (λ m : string * string, ((m.2, m.1), x))
                       <$> valid_updates_re_match x) listing
  = filter (λ x, is_Some (valid_updates_re_match x)) listing.
Proof.
  induction listing as [|x listing IH]; simpl; [done|].
  rewrite filter_cons.
  destruct (valid_updates_re_match x) as [[q y]|] eqn:Hm; simpl.
  - f_equal. apply IH.
  - apply IH.
Qed.

Lemma scan_directory_perm (listing : list string) :
  _scan_directory listing
  ≡ₚ filter (λ x, is_Some (valid_updates_re_match x)) listing.
Proof.
  unfold _scan_directory. rewrite <- entries_names.
  by rewrite sort_by_key_perm.
Qed.

Lemma scan_directory_sorted (listing : list string) :
  Sorted (λ x y, lex_le (year_quarter x) (year_quarter y))
    (_scan_directory listing).
Proof.
  unfold _scan_directory.
  apply Sorted_fmap with (R1 := entry_le); [done|].
  apply sort_by_key_sorted, entries_wf.
Qed.

Lemma scan_directory_filter {T} (fs : list (string * T)) :
  _scan_directory
    (fst <$> filter (λ f, is_Some (valid_updates_re_match f.1)) fs)
  = _scan_directory (fst <$> fs).
Proof.
  unfold _scan_directory. do 2 f_equal.
  induction fs as [|[x c] fs IH]; simpl; [done|].
  rewrite filter_cons. simpl.
  destruct (valid_updates_re_match x) as [[q y]|] eqn:Hm; simpl.
  - rewrite Hm. simpl. f_equal. apply IH.
  - apply IH.
Qed.

Lemma list_find_filter_valid (fs : list (string * list string)) fp :
  is_Some (valid_updates_re_match fp) →
  snd <$> list_find (λ f, f.1 = fp)
            (filter (λ f, is_Some (valid_updates_re_match f.1)) fs)
  = snd <$> list_find (λ f : string * list string, f.1 = fp) fs.
Proof.
  intros Hfp. induction fs as [|[x c] fs IH]; [done|].
  rewrite filter_cons. simpl.
  assert (∀ o : option (nat * (string * list string)),
            snd <$> (prod_map S id <$> o) = snd <$> o) as Hsnd
    by (by intros [[]|]).
  destruct (decide (is_Some (valid_updates_re_match x))) as [Hx|Hx]; simpl.
  - destruct (decide (x = fp)); [done|]. by rewrite !Hsnd.
  - destruct (decide (x = fp)) as [->|]; [done|]. by rewrite Hsnd.
Qed.

Lemma readlines_filter (fs : list (string * list string)) fp :
  is_Some (valid_updates_re_match fp) →
  readlines
    (Some (filter (λ f, is_Some (valid_updates_re_match f.1)) fs)) fp
  = readlines (Some fs) fp.
Proof.
  intros Hfp. unfold readlines.
  pose proof (list_find_filter_valid fs fp Hfp) as Hfind.
  destruct (list_find _ (filter _ _)) as [[]|], (list_find _ fs) as [[]|];
    simpl in *; congruence.
Qed.

Section updates.
Context {A : Type} `{AtomOps A}.

Lemma for_each_ext_in {X} (f g : state (A:=A) → X → state * option exn)
    st l :
  (∀ st x, x ∈ l → f st x = g st x) → for_each f st l = for_each g st l.
Proof.
  revert st. induction l as [|x l IH]; intros st Hfg; simpl; [done|].
  rewrite Hfg by left. destruct (g st x) as [st' [e|]]; [done|].
  apply IH. intros; apply Hfg. by right.
Qed.

Lemma process_directory_some (fs : list (string * list string)) :
  process_directory (A:=A) (Some fs)
  = for_each (file_turn (Some fs)) init (_scan_directory (fst <$> fs)).
Proof. reflexivity. Qed.


End updates.

Import SimpleAtom.


End ScanFacts.

(** ** Reading package updates *)

Module UpdateFacts.
Import PkgUpdates.

Section updates.
Context {A : Type} `{AtomOps A}.

Abbreviation command := (@PkgUpdates.command A).
Abbreviation item := (@PkgUpdates.item A).
Abbreviation state := (@PkgUpdates.state A).

(** *** Flattening with end markers

    [eflat] flattens like [iflatten_instance] but also records, as
    [EvEnd d], the place where deque [d] ends: that is where anything
    appended to [d] later will show up. *)

Inductive event :=
| EvCmd (c : command)
| EvEnd (d : nat).

Definition item_events (rec : nat → option (list event)) (it : item)
    : option (list event) :=
  match it with
  | ICmd c => Some [EvCmd c]
  | IRef d => rec d
  end.

Fixpoint eflat (fuel : nat) (h : list (list item)) (d : nat)
    : option (list event) :=
  match fuel with
  | 0 => None
  | S fuel' =>
      its ← h !! d;
      ls ← mapM (item_events (eflat fuel' h)) its;
      Some (mjoin ls ++ [EvEnd d])
  end.

Definition cmds (l : list event) : list command :=
  omap (λ e, match e with EvCmd c => Some c | EvEnd _ => None end) l.

(** What an append does to a flattened list: [g x] is inserted in front of
    every end marker of [x]. *)
Definition expand (g : nat → list event) (e : event) : list event :=
  match e with
  | EvCmd c => [EvCmd c]
  | EvEnd x => g x ++ [EvEnd x]
  end.
Definition apply (g : nat → list event) (l : list event) : list event :=
  l ≫= expand g.

Definition at_end (t : nat) (ins : list event) (x : nat) : list event :=
  if decide (x = t) then ins else [].

Lemma cmds_app l1 l2 : cmds (l1 ++ l2) = cmds l1 ++ cmds l2.
Proof. unfold cmds. apply omap_app. Qed.

Lemma cmds_join ls : cmds (mjoin ls) = mjoin (cmds <$> ls).
Proof.
  induction ls as [|l ls IH]; simpl; [done|]. by rewrite cmds_app, IH.
Qed.

Lemma eflat_S fuel h d l :
  eflat (S fuel) h d = Some l ↔
  ∃ its ls, h !! d = Some its ∧
            Forall2 (λ it l', item_events (eflat fuel h) it = Some l') its ls ∧
            l = mjoin ls ++ [EvEnd d].
Proof.
  simpl. split.
  - destruct (h !! d) as [its|]; simpl; [|done].
    destruct (mapM _ its) as [ls|] eqn:Hm; simpl; [|done].
    intros [= <-]. apply mapM_Some in Hm. eauto.
  - intros (its & ls & -> & Hm & ->). simpl.
    apply mapM_Some in Hm. by rewrite Hm.
Qed.

Lemma iflatten_eflat fuel h d :
  iflatten_instance fuel h d = cmds <$> eflat fuel h d.
Proof.
  revert d. induction fuel as [|fuel IH]; intros d; simpl; [done|].
  destruct (h !! d) as [its|]; simpl; [|done].
  assert (mapM (λ it, match it with
                      | ICmd c => Some [c]
                      | IRef d' => iflatten_instance fuel h d'
                      end) its
          = fmap cmds <$> mapM (item_events (eflat fuel h)) its) as ->.
  { induction its as [|it its IHits]; simpl; [done|].
    rewrite IHits. destruct it as [c|r]; simpl.
    - destruct (mapM (item_events (eflat fuel h)) its); reflexivity.
    - rewrite IH. destruct (eflat fuel h r); simpl; [|done].
      destruct (mapM (item_events (eflat fuel h)) its); reflexivity. }
  destruct (mapM _ its) as [ls|]; simpl; [|done].
  by rewrite cmds_app, cmds_join, app_nil_r.
Qed.

Lemma eflat_mono fuel fuel' h d l :
  eflat fuel h d = Some l → fuel ≤ fuel' → eflat fuel' h d = Some l.
Proof.
  revert fuel' d l. induction fuel as [|fuel IH]; intros fuel' d l; [done|].
  intros (its & ls & Hd & Hits & ->)%eflat_S Hle.
  destruct fuel' as [|fuel']; [lia|]. apply eflat_S.
  exists its, ls. split; [done|]. split; [|done].
  eapply Forall2_impl; [done|]. intros [c|r] l'; simpl; [done|].
  intros Hr. apply IH; [done|lia].
Qed.

(** Allocation leaves what was flattened alone. *)
Lemma eflat_alloc fuel h h' d l :
  eflat fuel h d = Some l → eflat fuel (h ++ h') d = Some l.
Proof.
  revert d l. induction fuel as [|fuel IH]; intros d l; [done|].
  intros (its & ls & Hd & Hits & ->)%eflat_S. apply eflat_S.
  exists its, ls. split; [by apply lookup_app_l_Some|]. split; [|done].
  eapply Forall2_impl; [done|]. intros [c|r] l'; simpl; [done|]. apply IH.
Qed.

Lemma eflat_empty fuel h d :
  h !! d = Some [] → eflat (S fuel) h d = Some [EvEnd d].
Proof. intros Hd. apply eflat_S. exists [], []. by repeat split. Qed.

(** End markers name deques of the store. *)
Lemma eflat_marker fuel h d l x :
  eflat fuel h d = Some l → EvEnd x ∈ l → x < length h.
Proof.
  revert d l. induction fuel as [|fuel IH]; intros d l; [done|].
  intros (its & ls & Hd & Hits & ->)%eflat_S.
  intros [Hin|Hin]%elem_of_app.
  - apply list_elem_of_join in Hin as (l' & Hin & Hl').
    apply list_elem_of_lookup in Hl' as [i Hi].
    destruct (Forall2_lookup_r _ _ _ _ _ Hits Hi) as (it & _ & Hit).
    destruct it as [c|r]; simpl in Hit.
    + injection Hit as <-. by apply list_elem_of_singleton in Hin.
    + by eapply IH.
  - apply list_elem_of_singleton in Hin as [= ->].
    by eapply lookup_lt_Some.
Qed.

Lemma apply_app g l1 l2 : apply g (l1 ++ l2) = apply g l1 ++ apply g l2.
Proof. apply bind_app. Qed.

Lemma apply_join g ls : apply g (mjoin ls) = mjoin (apply g <$> ls).
Proof.
  induction ls as [|l ls IH]; simpl; [done|]. by rewrite apply_app, IH.
Qed.

Lemma apply_nil_id l : apply (λ _, []) l = l.
Proof.
  induction l as [|[c|x] l IH]; [done|..];
    change (?e :: l) with ([e] ++ l); by rewrite apply_app, IH.
Qed.

Lemma apply_cmd g c : apply g [EvCmd c] = [EvCmd c].
Proof. done. Qed.

Lemma apply_end g x : apply g [EvEnd x] = g x ++ [EvEnd x].
Proof. unfold apply. simpl. by rewrite app_nil_r. Qed.

Lemma apply_cons g e l : apply g (e :: l) = expand g e ++ apply g l.
Proof. done. Qed.

(** Appending item [x], whose events are [ex], to deque [t].  [δ] is the
    extra fuel the new item needs: none for a command, one for a
    reference to an empty deque. *)
Lemma eflat_append δ h t x ex fuel d l :
  let h' := alter (λ its, its ++ [x]) t h in
  (∀ f, item_events (eflat (δ + f) h') x = Some ex) →
  eflat fuel h d = Some l →
  eflat (δ + fuel) h' d = Some (apply (at_end t ex) l).
Proof.
  intros h' Hx. revert d l.
  induction fuel as [|fuel IH]; intros d l; [done|].
  intros (its & ls & Hd & Hits & ->)%eflat_S.
  rewrite Nat.add_succ_r. apply eflat_S.
  assert (Forall2 (λ it l', item_events (eflat (δ + fuel) h') it = Some l')
            its (apply (at_end t ex) <$> ls)) as Hits'.
  { apply Forall2_fmap_r. eapply Forall2_impl; [done|].
    intros [c|r] l'; simpl; [by intros [= <-]|]. apply IH. }
  rewrite apply_app, apply_join, apply_end.
  destruct (decide (d = t)) as [->|Hne].
  - exists (its ++ [x]), ((apply (at_end t ex) <$> ls) ++ [ex]).
    split; [by unfold h'; rewrite list_lookup_alter_eq, Hd|].
    split; [apply Forall2_app; [done|by repeat constructor]|].
    unfold at_end at 2. rewrite decide_True by done.
    rewrite join_app. simpl. by rewrite app_nil_r, <- app_assoc.
  - exists its, (apply (at_end t ex) <$> ls).
    split; [by unfold h'; rewrite list_lookup_alter_ne|].
    split; [done|]. unfold at_end at 2. by rewrite decide_False.
Qed.

Lemma eflat_append_cmd h t c fuel d l :
  eflat fuel h d = Some l →
  eflat fuel (alter (λ its, its ++ [ICmd c]) t h) d
  = Some (apply (at_end t [EvCmd c]) l).
Proof. intros Hl. by apply (eflat_append 0). Qed.

Lemma eflat_append_ref h t r fuel d l :
  r ≠ t → h !! r = Some [] →
  eflat fuel h d = Some l →
  eflat (S fuel) (alter (λ its, its ++ [IRef r]) t h) d
  = Some (apply (at_end t [EvEnd r]) l).
Proof.
  intros Hne Hr Hl. apply (eflat_append 1); [|done].
  intros f. simpl. by rewrite list_lookup_alter_ne, Hr.
Qed.

(** *** Facts about insertions *)

Definition countb (p : event → bool) (l : list event) : nat :=
  length (filter (λ e, p e = true) l).

Definition is_end (t : nat) (e : event) : bool :=
  match e with
  | EvEnd x => bool_decide (x = t)
  | EvCmd _ => false
  end.

(** [e] is a move whose source has key [k]. *)
Definition is_move_from (k : string) (e : event) : bool :=
  match e with
  | EvCmd (Move a _) => bool_decide (key a = k)
  | _ => false
  end.

Lemma countb_app p l1 l2 : countb p (l1 ++ l2) = countb p l1 + countb p l2.
Proof. unfold countb. by rewrite filter_app, length_app. Qed.

Lemma countb_cons p e l :
  countb p (e :: l) = (if p e then 1 else 0) + countb p l.
Proof.
  unfold countb. rewrite filter_cons.
  destruct (p e); [by rewrite decide_True|by rewrite decide_False].
Qed.

Lemma countb_singleton p e : countb p [e] = if p e then 1 else 0.
Proof. rewrite countb_cons. unfold countb. simpl. lia. Qed.

Lemma countb_zero p l : countb p l = 0 ↔ ∀ e, e ∈ l → p e = false.
Proof.
  induction l as [|e l IH]; [split; [by intros _ ? ?%elem_of_nil|done]|].
  rewrite countb_cons. split.
  - intros Hc e' [->|Hin]%elem_of_cons.
    + destruct (p e); [simpl in Hc; lia|done].
    + apply IH; [|done]. destruct (p e); simpl in Hc; lia.
  - intros Hall. rewrite (Hall e) by left. simpl. apply IH.
    intros e' Hin. apply Hall. by right.
Qed.

Lemma countb_end_zero t l : countb (is_end t) l = 0 ↔ EvEnd t ∉ l.
Proof.
  rewrite countb_zero. split.
  - intros Hall Hin. specialize (Hall _ Hin). simpl in Hall.
    by rewrite bool_decide_eq_true_2 in Hall.
  - intros Hnin [c|x] Hin; simpl; [done|].
    apply bool_decide_eq_false_2. by intros ->.
Qed.

Lemma countb_apply p t ex l :
  countb p (apply (at_end t ex) l)
  = countb p l + countb (is_end t) l * countb p ex.
Proof.
  induction l as [|e l IH]; [done|].
  rewrite apply_cons, countb_app, IH, !countb_cons.
  destruct e as [c|x]; simpl.
  - rewrite countb_cons. unfold countb at 1. simpl. lia.
  - rewrite countb_app, countb_cons. unfold at_end.
    destruct (decide (x = t)) as [->|Hne].
    + rewrite bool_decide_eq_true_2 by done. unfold countb at 2. simpl. lia.
    + rewrite bool_decide_eq_false_2 by done. unfold countb at 1 2. simpl.
      lia.
Qed.

Lemma apply_keeps g e l : e ∈ l → e ∈ apply g l.
Proof.
  intros Hin. apply list_elem_of_bind. exists e. split; [|done].
  destruct e; simpl; [by left|]. apply elem_of_app. right. by left.
Qed.

Lemma apply_inv t ex e l :
  e ∈ apply (at_end t ex) l → e ∈ l ∨ (e ∈ ex ∧ EvEnd t ∈ l).
Proof.
  intros (e' & He & Hin)%list_elem_of_bind. destruct e' as [c|x]; simpl in He.
  - apply list_elem_of_singleton in He as ->. by left.
  - apply elem_of_app in He as [He|He].
    + unfold at_end in He. destruct (decide (x = t)) as [->|];
        [by right|by apply elem_of_nil in He].
    + apply list_elem_of_singleton in He as ->. by left.
Qed.

Lemma apply_inserts t ex e l :
  EvEnd t ∈ l → e ∈ ex → e ∈ apply (at_end t ex) l.
Proof.
  intros Hin He. apply list_elem_of_bind. exists (EvEnd t). split; [|done].
  simpl. apply elem_of_app. left. unfold at_end. by rewrite decide_True.
Qed.

Lemma apply_absent t ex l : EvEnd t ∉ l → apply (at_end t ex) l = l.
Proof.
  induction l as [|e l IH]; [done|]. intros Hnin.
  rewrite apply_cons, IH by (intros ?; apply Hnin; by right).
  destruct e as [c|x]; simpl; [done|]. unfold at_end.
  rewrite decide_False; [done|]. intros ->. apply Hnin. by left.
Qed.

(** *** What a line does to the state *)

(** The state after a move line that is carried out. *)
Definition move_result (src trg : A) (st : state) : state :=
  let '(d, st) := alloc st in
  let '((_, tl), st) := mods_get (key src) st in
  let st := extend tl [ICmd (Move src trg); IRef d] st in
  let '((_, tl'), st) := mods_get (key trg) st in
  let st := extend tl' [IRef d] st in
  let st := set_tail (key trg) d st in
  set_moved (key src) trg st.

(** The state after a slotmove line that is carried out. *)
Definition slotmove_result (src : A) (c : command) (st : state) : state :=
  let '((_, tl), st) := mods_get (key src) st in
  extend tl [ICmd c] st.

Inductive line_kind (st : state) (raw : string) (st' : state) : Prop :=
| line_logged r :
    st' = emit r st → line_kind st raw st'
| line_ignored :
    st' = st → line_kind st raw st'
| line_slotmove a old_slot new_slot src src_slot :
    str_split raw = ["slotmove"; a; old_slot; new_slot]%string →
    atom a = Ok src →
    moved st !! key src = None →
    st' = slotmove_result src (SlotMove src_slot new_slot) st →
    line_kind st raw st'
| line_move s t src trg :
    str_split raw = ["move"; s; t]%string →
    atom s = Ok src → atom t = Ok trg →
    fullver src = None → fullver trg = None →
    moved st !! key src = None →
    st' = move_result src trg st →
    line_kind st raw st'.

Lemma process_line_kind fn st n raw st' :
  process_line fn st (n, raw) = Ok st' → line_kind st raw st'.
Proof.
  unfold process_line.
  destruct (str_split raw) as [|cmd args] eqn:Hsplit; [done|].
  destruct (decide (cmd = "move"%string)) as [->|Hnm].
  - destruct args as [|s [|t [|? ?]]];
      try (intros [= <-]; by eapply line_logged).
    destruct (atom s) as [src|] eqn:Hs; simpl; [|done].
    destruct (atom t) as [trg|] eqn:Ht; simpl; [|done].
    destruct (fullver src) eqn:Hfs; [intros [= <-]; by eapply line_logged|].
    destruct (fullver trg) eqn:Hft; [intros [= <-]; by eapply line_logged|].
    destruct (moved st !! key src) eqn:Hm;
      [intros [= <-]; by eapply line_logged|].
    intros Hres. eapply line_move; try done.
    unfold move_result, alloc. simpl.
    destruct (mods_get (key src) _) as [[hS tS] st2].
    destruct (mods_get (key trg) _) as [[hT tT] st3].
    by injection Hres.
  - destruct (decide (cmd = "slotmove"%string)) as [->|Hns];
      [|intros [= <-]; by apply line_ignored].
    destruct args as [|a [|old_slot [|new_slot [|? ?]]]];
      try (intros [= <-]; by eapply line_logged).
    destruct (atom a) as [src|] eqn:Ha; simpl; [|done].
    destruct (moved st !! key src) eqn:Hm;
      [intros [= <-]; by eapply line_logged|].
    destruct (slot src); [intros [= <-]; by eapply line_logged|].
    destruct (atom (atom_str src +:+ _)) as [src_slot|]; simpl; [|done].
    destruct (atom (key src +:+ _)) as [trg_slot|]; simpl; [|done].
    intros Hres. eapply line_slotmove; try done.
    unfold slotmove_result.
    destruct (mods_get (key src) st) as [[hS tS] st1]. by injection Hres.
Qed.

(** *** The invariant of the reader

    For the key [k] with tail [tl], flattening its head gives [l]:
    - the end of the tail occurs in [l];
    - every move in [l] comes from a key recorded in [moved];
    - while [k] has not been moved, the end of its tail occurs once and the
      tails of the other keys do not occur;
    - at most one move in [l] comes from [k]. *)
Record list_ok (st : state) (k : string) (tl : nat) (l : list event)
    : Prop := ListOk {
  ok_tail : EvEnd tl ∈ l;
  ok_moves : ∀ a b, EvCmd (Move a b) ∈ l → is_Some (moved st !! key a);
  ok_unmoved :
    moved st !! k = None →
    countb (is_end tl) l = 1 ∧
    ∀ k' hd' tl', k' ≠ k → mods st !! k' = Some (hd', tl') → EvEnd tl' ∉ l;
  ok_once : countb (is_move_from k) l ≤ 1;
}.

Definition inv (F : nat) (st : state) : Prop :=
  ∀ k hd tl, mods st !! k = Some (hd, tl) →
    ∃ l, eflat F (heap st) hd = Some l ∧ list_ok st k tl l.

(** Deque [d] is empty and nothing refers to it. *)
Definition fresh (F d : nat) (st : state) : Prop :=
  heap st !! d = Some [] ∧
  ∀ k hd tl l, mods st !! k = Some (hd, tl) →
    eflat F (heap st) hd = Some l → EvEnd d ∉ l.

Definition fuel_of (st : state) : nat := S (2 * length (heap st)).

Lemma inv_mono F F' st : inv F st → F ≤ F' → inv F' st.
Proof.
  intros Hinv Hle k hd tl Hk. destruct (Hinv k hd tl Hk) as (l & Hl & Hok).
  exists l. split; [by eapply eflat_mono|done].
Qed.

Lemma inv_tail_lt F st k hd tl :
  inv F st → mods st !! k = Some (hd, tl) → tl < length (heap st).
Proof.
  intros Hinv Hk. destruct (Hinv k hd tl Hk) as (l & Hl & Hok).
  eapply eflat_marker; [done|]. apply Hok.
Qed.

Lemma inv_init F : inv F init.
Proof. intros k hd tl Hk. simpl in Hk. by rewrite lookup_empty in Hk. Qed.

Lemma list_ok_same st st' k tl l :
  mods st' = mods st → moved st' = moved st →
  list_ok st k tl l → list_ok st' k tl l.
Proof.
  intros Hmods Hmoved [H1 H2 H3 H4].
  split; [done|by rewrite Hmoved| |done].
  rewrite Hmoved, Hmods. exact H3.
Qed.

Lemma inv_emit F r st : inv F st → inv F (emit r st).
Proof.
  intros Hinv k hd tl Hk. destruct (Hinv k hd tl Hk) as (l & Hl & Hok).
  exists l. split; [done|]. by apply (list_ok_same st).
Qed.

Lemma inv_alloc F st :
  inv F st →
  inv F (alloc st).2 ∧ fresh F (length (heap st)) (alloc st).2.
Proof.
  intros Hinv. split.
  - intros k hd tl Hk. destruct (Hinv k hd tl Hk) as (l & Hl & Hok).
    exists l. split; [by apply eflat_alloc|]. by apply (list_ok_same st).
  - split; [simpl; by apply list_lookup_middle|].
    intros k hd tl l Hk Hl Hin. simpl in *.
    destruct (Hinv k hd tl Hk) as (l0 & Hl0 & Hok).
    apply (eflat_alloc _ _ [[]]) in Hl0 as Hl0'.
    rewrite Hl0' in Hl. injection Hl as <-.
    pose proof (eflat_marker _ _ _ _ _ Hl0 Hin). lia.
Qed.

(** [mods[k]] on the defaultdict keeps the invariant: a key that was
    missing starts with an empty deque of its own. *)
Lemma inv_mods_get F k st v st' :
  inv F st → 1 ≤ F → mods_get k st = (v, st') →
  inv F st' ∧ mods st' !! k = Some v ∧ moved st' = moved st ∧
  length (heap st) ≤ length (heap st') ∧
  (∀ k' v', mods st !! k' = Some v' → mods st' !! k' = Some v') ∧
  (∀ k' v', mods st' !! k' = Some v' → k' ≠ k → mods st !! k' = Some v') ∧
  (∀ F' hd l, eflat F' (heap st) hd = Some l →
              eflat F' (heap st') hd = Some l) ∧
  (∀ d, d < length (heap st) → heap st' !! d = heap st !! d) ∧
  (mods st !! k = None → v = (length (heap st), length (heap st))).
Proof.
  intros Hinv HF. unfold mods_get.
  destruct (mods st !! k) as [v0|] eqn:Hk.
  { intros [= <- <-]. by repeat split. }
  simpl. intros [= <- <-]. simpl.
  set (n := length (heap st)).
  split; [|split; [by rewrite lookup_insert_eq|]; split; [done|];
           split; [rewrite length_app; lia|]; split;
           [|split; [|split; [|split; [|done]]]]].
  - intros k' hd tl. simpl. destruct (decide (k' = k)) as [->|Hne].
    + rewrite lookup_insert_eq. intros [= <- <-].
      exists [EvEnd n]. destruct F as [|F]; [lia|].
      split; [apply eflat_empty; by apply list_lookup_middle|].
      split.
      * by left.
      * by intros a b ?%list_elem_of_singleton.
      * intros _. split; [rewrite countb_cons; simpl;
                          by rewrite bool_decide_eq_true_2|].
        intros k' hd' tl' Hne. simpl. rewrite lookup_insert_ne by done.
        intros Hk' [= ->]%list_elem_of_singleton.
        pose proof (inv_tail_lt _ _ _ _ _ Hinv Hk'). lia.
      * rewrite countb_cons. simpl. unfold countb. simpl. lia.
    + rewrite lookup_insert_ne by done. intros Hk'.
      destruct (Hinv k' hd tl Hk') as (l & Hl & [H1 H2 H3 H4]).
      exists l. split; [by apply eflat_alloc|].
      split; [done|done| |done]. simpl. intros Hm.
      destruct (H3 Hm) as [Hc Hothers]. split; [done|].
      intros k'' hd'' tl'' Hne'. destruct (decide (k'' = k)) as [->|Hne''].
      * rewrite lookup_insert_eq. intros [= <- <-] Hin.
        pose proof (eflat_marker _ _ _ _ _ Hl Hin). lia.
      * rewrite lookup_insert_ne by done. by apply Hothers.
  - intros k' v' Hk'. rewrite lookup_insert_ne; [done|]. congruence.
  - intros k' v' Hk' Hne. by rewrite lookup_insert_ne in Hk'.
  - intros F' hd l. apply eflat_alloc.
  - intros d Hd. by apply lookup_app_l.
Qed.

Lemma fresh_mods_get F d k st v st' :
  inv F st → fresh F d st → d < length (heap st) →
  mods_get k st = (v, st') → fresh F d st'.
Proof.
  intros Hinv [Hd Hfresh] Hlt. unfold mods_get.
  destruct (mods st !! k) as [v0|] eqn:Hk; [by intros [= <- <-]|].
  simpl. intros [= <- <-]. split; simpl.
  - by apply lookup_app_l_Some.
  - intros k' hd tl l. destruct (decide (k' = k)) as [->|Hne].
    + rewrite lookup_insert_eq. intros [= <- <-].
      destruct F as [|F]; [done|].
      rewrite eflat_empty by (by apply list_lookup_middle).
      intros [= <-] [= ->]%list_elem_of_singleton. lia.
    + rewrite lookup_insert_ne by done. intros Hk' Hl.
      destruct (Hinv k' hd tl Hk') as (l0 & Hl0 & Hok).
      apply (eflat_alloc _ _ [[]]) in Hl0 as Hl0'.
      rewrite Hl0' in Hl. injection Hl as <-. by eapply Hfresh.
Qed.

(** *** Carrying out a move *)

(** The appends and assignments of a move, once the deque [d] is
    allocated and both keys are present. *)
Definition finish_move (src trg : A) (d tS tT : nat) (st : state) : state :=
  set_moved (key src) trg
    (set_tail (key trg) d
       (extend tT [IRef d]
          (extend tS [ICmd (Move src trg); IRef d] st))).

(** What it does to a flattened list. *)
Definition move_map (src trg : A) (d tS tT : nat) (l : list event)
    : list event :=
  apply (at_end tT [EvEnd d])
    (apply (at_end tS [EvEnd d])
       (apply (at_end tS [EvCmd (Move src trg)]) l)).

Lemma alter_app2 {T} (x y : T) t (h : list (list T)) :
  alter (λ its, its ++ [x; y]) t h
  = alter (λ its, its ++ [y]) t (alter (λ its, its ++ [x]) t h).
Proof.
  revert t. induction h as [|its h IH]; intros [|t]; simpl; [done..| |].
  - by rewrite <- app_assoc.
  - f_equal. apply IH.
Qed.

Lemma mods_get_extend k t (xs : list item) (st : state) :
  t < length (heap st) →
  mods_get k (extend t xs st)
  = ((mods_get k st).1, extend t xs (mods_get k st).2).
Proof.
  intros Ht. unfold mods_get, extend. simpl.
  destruct (mods st !! k); simpl; [done|].
  rewrite length_alter. do 2 f_equal. by rewrite alter_app_l.
Qed.

Lemma heap_finish_move src trg d tS tT (st : state) :
  heap (finish_move src trg d tS tT st)
  = alter (λ its, its ++ [IRef d]) tT
      (alter (λ its, its ++ [ICmd (Move src trg); IRef d]) tS (heap st)).
Proof. done. Qed.

Lemma eflat_finish_move src trg d tS tT (st : state) F x l :
  heap st !! d = Some [] → d ≠ tS → d ≠ tT →
  eflat F (heap st) x = Some l →
  eflat (S (S F)) (heap (finish_move src trg d tS tT st)) x
  = Some (move_map src trg d tS tT l).
Proof.
  intros Hd HS HT Hl. rewrite heap_finish_move. unfold move_map.
  rewrite alter_app2.
  apply eflat_append_ref; [done|by rewrite !list_lookup_alter_ne|].
  apply eflat_append_ref; [done|by rewrite !list_lookup_alter_ne|].
  by apply eflat_append_cmd.
Qed.

Lemma move_map_keeps src trg d tS tT e l :
  e ∈ l → e ∈ move_map src trg d tS tT l.
Proof. intros Hin. unfold move_map. by do 3 apply apply_keeps. Qed.

Lemma move_map_inv src trg d tS tT e l :
  e ∈ move_map src trg d tS tT l →
  e ∈ l ∨ e = EvCmd (Move src trg) ∨ e = EvEnd d.
Proof.
  unfold move_map.
  intros [[[Hin|[Hin _]]%apply_inv|[Hin _]]%apply_inv|[Hin _]]%apply_inv.
  - by left.
  - apply list_elem_of_singleton in Hin. auto.
  - apply list_elem_of_singleton in Hin. auto.
  - apply list_elem_of_singleton in Hin. auto.
Qed.

Lemma move_map_app src trg d tS tT l1 l2 :
  move_map src trg d tS tT (l1 ++ l2)
  = move_map src trg d tS tT l1 ++ move_map src trg d tS tT l2.
Proof. unfold move_map. by rewrite !apply_app. Qed.

Lemma move_map_cmd src trg d tS tT c :
  move_map src trg d tS tT [EvCmd c] = [EvCmd c].
Proof. done. Qed.

(** Where the tail of the source ends, the move and then the end of [d]
    appear. *)
Lemma move_map_source src trg d tS tT l :
  EvEnd tS ∈ l →
  ∃ xs ys, move_map src trg d tS tT l = xs ++ EvCmd (Move src trg) :: ys ∧
           EvEnd d ∈ ys.
Proof.
  intros (l1 & l2 & ->)%list_elem_of_split.
  change (EvEnd tS :: l2) with ([EvEnd tS] ++ l2).
  rewrite !move_map_app.
  exists (move_map src trg d tS tT l1),
         (apply (at_end tT [EvEnd d])
            (apply (at_end tS [EvEnd d]) [EvEnd tS])
          ++ move_map src trg d tS tT l2).
  split.
  - f_equal. unfold move_map at 1. rewrite apply_end. unfold at_end at 3.
    rewrite decide_True by done. simpl.
    change ([EvCmd (Move src trg); EvEnd tS])
      with ([EvCmd (Move src trg)] ++ [EvEnd tS]).
    by rewrite !apply_app.
  - apply elem_of_app. left. apply apply_keeps.
    apply apply_inserts; by left.
Qed.

Lemma move_map_target src trg d tS tT l :
  EvEnd tT ∈ l → EvEnd d ∈ move_map src trg d tS tT l.
Proof.
  intros Hin. unfold move_map. apply apply_inserts; [|by left].
  by do 2 apply apply_keeps.
Qed.

Lemma move_map_absent src trg d tS tT l :
  EvEnd tS ∉ l → EvEnd tT ∉ l → move_map src trg d tS tT l = l.
Proof.
  intros HS HT. unfold move_map.
  rewrite (apply_absent tS _ l) by done.
  rewrite (apply_absent tS _ l) by done.
  by rewrite apply_absent.
Qed.

Lemma countb_move_map p src trg d tS tT l :
  p (EvEnd d) = false →
  countb p (move_map src trg d tS tT l)
  = countb p l
    + countb (is_end tS) l * (if p (EvCmd (Move src trg)) then 1 else 0).
Proof.
  intros Hp. unfold move_map. rewrite !countb_apply.
  rewrite !countb_singleton, Hp. simpl.
  destruct (p (EvCmd (Move src trg))); nia.
Qed.

Lemma mods_finish_move src trg d tS tT (st : state) k hd tl' :
  mods (finish_move src trg d tS tT st) !! k = Some (hd, tl') →
  ∃ tl, mods st !! k = Some (hd, tl) ∧
        tl' = if decide (k = key trg) then d else tl.
Proof.
  change (mods (finish_move src trg d tS tT st))
    with (alter (λ v : nat * nat, (v.1, d)) (key trg) (mods st)).
  destruct (decide (k = key trg)) as [->|Hne].
  - rewrite lookup_alter_eq. destruct (mods st !! key trg) as [[h t]|];
      [|done].
    simpl. intros [= <- <-]. eauto.
  - rewrite lookup_alter_ne by done. eauto.
Qed.

Lemma mods_finish_move_2 src trg d tS tT (st : state) k hd tl :
  mods st !! k = Some (hd, tl) →
  mods (finish_move src trg d tS tT st) !! k
  = Some (hd, if decide (k = key trg) then d else tl).
Proof.
  intros Hk.
  change (mods (finish_move src trg d tS tT st))
    with (alter (λ v : nat * nat, (v.1, d)) (key trg) (mods st)).
  destruct (decide (k = key trg)) as [->|Hne].
  - by rewrite lookup_alter_eq, Hk.
  - by rewrite lookup_alter_ne.
Qed.

Lemma fresh_not_tail F d (st : state) k hd tl :
  inv F st → fresh F d st → mods st !! k = Some (hd, tl) → d ≠ tl.
Proof.
  intros Hinv [_ Hfresh] Hk ->.
  destruct (Hinv k hd tl Hk) as (l & Hl & Hok).
  apply (Hfresh k hd tl l Hk Hl), Hok.
Qed.

(** The invariant survives a move. *)
Lemma inv_finish_move F src trg d hS tS hT tT (st : state) :
  inv F st → fresh F d st →
  mods st !! key src = Some (hS, tS) →
  mods st !! key trg = Some (hT, tT) →
  moved st !! key src = None →
  inv (S (S F)) (finish_move src trg d tS tT st).
Proof.
  intros Hinv Hfresh HkS HkT Hm.
  pose proof (fresh_not_tail _ _ _ _ _ _ Hinv Hfresh HkS) as HdS.
  pose proof (fresh_not_tail _ _ _ _ _ _ Hinv Hfresh HkT) as HdT.
  destruct Hfresh as [Hd Hfresh].
  intros k hd tl' (tl & Hk & ->)%mods_finish_move.
  destruct (Hinv k hd tl Hk) as (l & Hl & [Htail Hmoves Hunmoved Honce]).
  pose proof (Hfresh k hd tl l Hk Hl) as Hdl.
  exists (move_map src trg d tS tT l).
  split; [by apply eflat_finish_move|].
  change (moved (finish_move src trg d tS tT st))
    with (<[key src := trg]> (moved st)) in *.
  split.
  - (* the tail *)
    destruct (decide (k = key trg)) as [->|Hne].
    + rewrite HkT in Hk. injection Hk as <- <-. by apply move_map_target.
    + by apply move_map_keeps.
  - (* moves come from moved keys *)
    intros a b [Hin|[[= -> ->]|?]]%move_map_inv; [|
      |done].
    + change (moved (finish_move src trg d tS tT st))
        with (<[key src := trg]> (moved st)).
      destruct (decide (key src = key a)) as [->|];
        [by rewrite lookup_insert_eq|].
      rewrite lookup_insert_ne by done. by eapply Hmoves.
    + change (moved (finish_move src trg d tS tT st))
        with (<[key src := trg]> (moved st)).
      by rewrite lookup_insert_eq.
  - (* a key not yet moved *)
    change (moved (finish_move src trg d tS tT st))
      with (<[key src := trg]> (moved st)).
    intros Hmk.
    assert (k ≠ key src) as HneS
      by (intros ->; by rewrite lookup_insert_eq in Hmk).
    rewrite lookup_insert_ne in Hmk by done.
    destruct (Hunmoved Hmk) as [Hcount Hothers].
    assert (EvEnd tS ∉ l) as HS by (by eapply (Hothers (key src))).
    destruct (decide (k = key trg)) as [->|HneT].
    + rewrite HkT in Hk. injection Hk as <- <-. split.
      * unfold move_map.
        rewrite (apply_absent tS _ l) by done.
        rewrite (apply_absent tS _ l) by done.
        rewrite countb_apply, countb_singleton, Hcount. simpl.
        rewrite bool_decide_eq_true_2 by done.
        apply countb_end_zero in Hdl. lia.
      * intros k' hd' tl'' Hne' (tl0 & Hk' & ->)%mods_finish_move.
        rewrite decide_False by done.
        intros [Hin|[?|[= ->]]]%move_map_inv; [|done|].
        -- by eapply Hothers.
        -- by eapply (fresh_not_tail F d st k' hd' d).
    + assert (EvEnd tT ∉ l) as HT by (by eapply (Hothers (key trg))).
      rewrite move_map_absent by done. split; [done|].
      intros k' hd' tl'' Hne' (tl0 & Hk' & ->)%mods_finish_move.
      destruct (decide (k' = key trg)) as [->|]; [done|].
      by eapply Hothers.
  - (* at most one move from this key *)
    rewrite countb_move_map by done. simpl.
    destruct (decide (key src = k)) as [<-|Hne].
    + rewrite bool_decide_eq_true_2 by done.
      rewrite HkS in Hk. injection Hk as <- <-.
      destruct (Hunmoved Hm) as [-> _].
      assert (countb (is_move_from (key src)) l = 0) as ->; [|lia].
      apply countb_zero. intros [[a b|]|x] Hin; simpl; try done.
      apply bool_decide_eq_false_2. intros Hkey.
      destruct (Hmoves a b Hin) as [t Ht]. congruence.
    + rewrite bool_decide_eq_false_2 by done. lia.
Qed.

(** The invariant survives a slotmove. *)
Lemma inv_extend_cmd F c k hS tS (st : state) :
  inv F st → mods st !! k = Some (hS, tS) →
  (∀ a b, c ≠ Move a b) →
  inv F (extend tS [ICmd c] st).
Proof.
  intros Hinv HkS Hc k' hd tl Hk'. simpl in Hk'.
  destruct (Hinv k' hd tl Hk') as (l & Hl & [Htail Hmoves Hunmoved Honce]).
  exists (apply (at_end tS [EvCmd c]) l).
  split; [by apply eflat_append_cmd|]. split.
  - by apply apply_keeps.
  - intros a b [Hin|[Hin _]]%apply_inv; [by eapply Hmoves|].
    apply list_elem_of_singleton in Hin as [= <-]. by destruct (Hc a b).
  - intros Hm. destruct (Hunmoved Hm) as [Hcount Hothers]. split.
    + rewrite countb_apply, countb_singleton. simpl. lia.
    + intros k'' hd'' tl'' Hne Hk'' [Hin|[Hin _]]%apply_inv.
      * by eapply Hothers.
      * by apply list_elem_of_singleton in Hin.
  - rewrite countb_apply, countb_singleton.
    assert (is_move_from k' (EvCmd c) = false) as ->; [|lia].
    destruct c as [a b|]; [by destruct (Hc a b)|done].
Qed.

(** [move_result], with the two dictionary lookups done first. *)
Lemma move_result_eq src trg (st : state) vS st2 vT st3 :
  mods_get (key src) (alloc st).2 = (vS, st2) →
  mods_get (key trg) st2 = (vT, st3) →
  vS.2 < length (heap st2) →
  move_result src trg st
  = finish_move src trg (length (heap st)) vS.2 vT.2 st3.
Proof.
  intros HS HT Hlt. unfold move_result.
  change (alloc st) with (length (heap st), (alloc st).2).
  cbv beta iota. rewrite HS. destruct vS as [hS tS]. simpl in Hlt.
  rewrite mods_get_extend by done. rewrite HT.
  by destruct vT as [hT tT].
Qed.

(** Everything known about a state prepared for a move. *)
Lemma move_prepare src trg (st : state) :
  inv (fuel_of st) st →
  ∃ hS tS hT tT st3,
    let d := length (heap st) in
    move_result src trg st = finish_move src trg d tS tT st3 ∧
    inv (fuel_of st) st3 ∧ fresh (fuel_of st) d st3 ∧
    mods st3 !! key src = Some (hS, tS) ∧
    mods st3 !! key trg = Some (hT, tT) ∧
    moved st3 = moved st ∧
    S (length (heap st)) ≤ length (heap st3) ∧
    (∀ k v, mods st !! k = Some v → mods st3 !! k = Some v) ∧
    (∀ F x l, eflat F (heap st) x = Some l → eflat F (heap st3) x = Some l).
Proof.
  intros Hinv. set (F := fuel_of st).
  destruct (inv_alloc F st Hinv) as [Hinv1 Hfresh1].
  destruct (mods_get (key src) (alloc st).2) as [[hS tS] st2] eqn:HS.
  destruct (inv_mods_get F _ _ _ _ Hinv1 ltac:(unfold F, fuel_of; lia) HS)
    as (Hinv2 & HkS2 & Hmoved2 & Hlen2 & Hkeep2 & _ & Hflat2 & _).
  pose proof (fresh_mods_get F (length (heap st)) _ _ _ _ Hinv1 Hfresh1
                ltac:(simpl; rewrite length_app; simpl; lia) HS) as Hfresh2.
  destruct (mods_get (key trg) st2) as [[hT tT] st3] eqn:HT.
  destruct (inv_mods_get F _ _ _ _ Hinv2 ltac:(unfold F, fuel_of; lia) HT)
    as (Hinv3 & HkT3 & Hmoved3 & Hlen3 & Hkeep3 & _ & Hflat3 & _).
  simpl in Hlen2. rewrite length_app in Hlen2. simpl in Hlen2.
  pose proof (fresh_mods_get F (length (heap st)) _ _ _ _ Hinv2 Hfresh2
                ltac:(lia) HT) as Hfresh3.
  exists hS, tS, hT, tT, st3. simpl.
  split; [|split; [done|]; split; [done|]; split; [by apply Hkeep3|];
           split; [done|]; split; [by rewrite Hmoved3, Hmoved2|];
           split; [lia|]; split].
  - apply (move_result_eq src trg st (hS, tS) st2 (hT, tT) st3 HS HT).
    simpl. by eapply inv_tail_lt.
  - intros k v Hk. by apply Hkeep3, Hkeep2.
  - intros F' x l Hl. apply Hflat3, Hflat2. simpl. by apply eflat_alloc.
Qed.

Lemma slotmove_prepare src c (st : state) :
  inv (fuel_of st) st →
  ∃ hS tS st1,
    slotmove_result src c st = extend tS [ICmd c] st1 ∧
    inv (fuel_of st) st1 ∧
    mods st1 !! key src = Some (hS, tS) ∧
    moved st1 = moved st ∧
    length (heap st) ≤ length (heap st1) ∧
    (∀ k v, mods st !! k = Some v → mods st1 !! k = Some v) ∧
    (∀ F x l, eflat F (heap st) x = Some l → eflat F (heap st1) x = Some l).
Proof.
  intros Hinv. unfold slotmove_result.
  destruct (mods_get (key src) st) as [[hS tS] st1] eqn:HS.
  destruct (inv_mods_get _ _ _ _ _ Hinv ltac:(unfold fuel_of; lia) HS)
    as (Hinv1 & HkS & Hmoved & Hlen & Hkeep & _ & Hflat & _).
  by exists hS, tS, st1.
Qed.

(** The invariant holds after every line. *)
Lemma inv_line fn (st : state) ln st' :
  process_line fn st ln = Ok st' →
  inv (fuel_of st) st → inv (fuel_of st') st'.
Proof.
  destruct ln as [n raw]. intros Hline Hinv.
  destruct (process_line_kind _ _ _ _ _ Hline)
    as [r ->| ->|a o nw src src_slot _ _ Hm ->|s t src trg _ _ _ _ _ Hm ->].
  - by apply inv_emit.
  - done.
  - destruct (slotmove_prepare src (SlotMove src_slot nw) st Hinv)
      as (hS & tS & st1 & -> & Hinv1 & HkS & _ & Hlen & _).
    eapply inv_mono; [by eapply inv_extend_cmd|].
    unfold fuel_of. simpl. rewrite length_alter. lia.
  - destruct (move_prepare src trg st Hinv)
      as (hS & tS & hT & tT & st3 & -> & Hinv3 & Hfresh3 & HkS & HkT
          & Hmoved & Hlen & _).
    eapply inv_mono.
    + eapply inv_finish_move; try done. by rewrite Hmoved.
    + unfold fuel_of. rewrite heap_finish_move, !length_alter. lia.
Qed.

(** *** The lines of a directory, in reading order *)

(** A line that asks for a move and passes the checks on its form: three
    tokens, the first one [move], both atoms versionless. *)
Definition parse_move (raw : string) : option (A * A) :=
  match str_split raw with
  | [cmd; s; t] =>
      if decide (cmd = "move"%string) then
        match atom s, atom t with
        | Ok src, Ok trg =>
            match fullver src, fullver trg with
            | None, None => Some (src, trg)
            | _, _ => None
            end
        | _, _ => None
        end
      else None
  | _ => None
  end.

(** Such a line whose source has key [k]. *)
Definition move_source (k : string) (raw : string) : bool :=
  match parse_move raw with
  | Some (src, _) => bool_decide (key src = k)
  | None => false
  end.

(** The moves of a command list that start from key [k]. *)
Definition moves_from (k : string) (cs : list command) : nat :=
  length (filter (λ c, is_move_from k (EvCmd c) = true) cs).

Definition file_lines (fs : list (string * list string)) (fp : string)
    : list string :=
  match readlines (Some fs) fp with
  | Ok ls => ls
  | Raise _ => []
  end.

(** One turn of the inner loop, on a line tagged with its file name. *)
Definition step (st : state) (ln : string * (nat * string)) : result state :=
  process_line ln.1 st ln.2.

(** Every numbered line of every scanned file, in the order in which the
    two loops of [read_updates] and [_process_update] visit them. *)
Definition tagged_lines (fs : list (string * list string))
    : list (string * (nat * string)) :=
  mjoin ((λ fp, pair fp <$> enumerate1 (file_lines fs fp))
           <$> _scan_directory (fst <$> fs)).

(** The same turn as the loop takes it. *)
Definition step_turn (st : state) (ln : string * (nat * string))
    : state * option exn :=
  line_turn ln.1 st ln.2.

Lemma foldM_app {X S} (f : S → X → result S) s l1 l2 :
  foldM f s (l1 ++ l2) = (s' ← foldM f s l1; foldM f s' l2).
Proof.
  revert s. induction l1 as [|x l1 IH]; intros s; simpl; [done|].
  destruct (f s x); simpl; auto.
Qed.

Lemma foldM_cons_ok {X S} (f : S → X → result S) s x l s1 :
  f s x = Ok s1 → foldM f s (x :: l) = foldM f s1 l.
Proof. intros Hx. simpl. by rewrite Hx. Qed.

Lemma for_each_app {X} (f : state → X → state * option exn) st l1 l2 :
  for_each f st (l1 ++ l2)
  = let '(st', err) := for_each f st l1 in
    match err with
    | None => for_each f st' l2
    | Some e => (st', Some e)
    end.
Proof.
  revert st. induction l1 as [|x l1 IH]; intros st; simpl; [done|].
  by destruct (f st x) as [st' [e|]].
Qed.

Lemma for_each_join {X Y} (f : state → X → state * option exn)
    (g : Y → list X) st l :
  for_each (λ st y, for_each f st (g y)) st l
  = for_each f st (mjoin (g <$> l)).
Proof.
  revert st. induction l as [|y l IH]; intros st; simpl; [done|].
  rewrite for_each_app. by destruct (for_each f st (g y)) as [st' [e|]].
Qed.

Lemma for_each_fmap {X Y} (f : state → Y → state * option exn)
    (g : X → Y) st l :
  for_each f st (g <$> l) = for_each (λ st x, f st (g x)) st l.
Proof.
  revert st. induction l as [|x l IH]; intros st; simpl; [done|].
  by destruct (f st (g x)) as [st' [e|]].
Qed.

(** The two nested loops are one loop over the tagged lines. *)
Lemma process_directory_lines (fs : list (string * list string)) :
  process_directory (A:=A) (Some fs)
  = for_each step_turn init (tagged_lines fs).
Proof.
  rewrite ScanFacts.process_directory_some. unfold tagged_lines.
  rewrite <- for_each_join. apply ScanFacts.for_each_ext_in.
  intros st fp Hfp. rewrite for_each_fmap.
  assert (fp ∈ fst <$> fs) as Hin.
  { rewrite ScanFacts.scan_directory_perm in Hfp.
    by apply list_elem_of_filter in Hfp as [_ ?]. }
  unfold file_turn, file_lines, readlines.
  destruct (list_find (λ f, f.1 = fp) fs) as [[i f]|] eqn:Hfind; [done|].
  apply list_find_None in Hfind.
  apply list_elem_of_fmap in Hin as (f & -> & Hf).
  by destruct (proj1 (Forall_forall _ _) Hfind f Hf).
Qed.

(** The loop has run the lines before the one that raised, if any. *)
Lemma for_each_prefix lns (st st' : state) err :
  for_each step_turn st lns = (st', err) →
  ∃ l1 l2, lns = l1 ++ l2 ∧ foldM step st l1 = Ok st' ∧
           (err = None → l2 = []).
Proof.
  revert st. induction lns as [|ln lns IH]; intros st; simpl.
  - intros [= <- <-]. by exists [], [].
  - unfold step_turn at 1, line_turn.
    destruct (process_line ln.1 st ln.2) as [st1|e] eqn:Hline.
    + intros (l1 & l2 & -> & Hrun & Hnone)%IH.
      exists (ln :: l1), l2. split; [done|]. split; [|done].
      by rewrite (foldM_cons_ok step st ln l1 st1 Hline).
    + intros [= <- <-]. by exists [], (ln :: lns).
Qed.

Lemma for_each_ok lns (st st' : state) :
  foldM step st lns = Ok st' → for_each step_turn st lns = (st', None).
Proof.
  revert st. induction lns as [|ln lns IH]; intros st; simpl.
  - by intros [= <-].
  - unfold step_turn at 1, line_turn.
    change (step st ln) with (process_line ln.1 st ln.2).
    destruct (process_line ln.1 st ln.2) as [st1|e]; [|done]. apply IH.
Qed.

Lemma process_line_move fn (st : state) n raw src trg :
  parse_move raw = Some (src, trg) →
  process_line fn st (n, raw)
  = match moved st !! key src with
    | Some to =>
        Ok (emit (LogRecord LWarning (AlreadyMoved src to) fn n raw) st)
    | None => Ok (move_result src trg st)
    end.
Proof.
  unfold parse_move, process_line.
  destruct (str_split raw) as [|cmd [|s [|t [|? ?]]]]; try done.
  destruct (decide (cmd = "move"%string)) as [->|]; [|done].
  destruct (atom s) as [src'|]; [|done].
  destruct (atom t) as [trg'|]; [|done]. simpl.
  destruct (fullver src'); [done|]. destruct (fullver trg'); [done|].
  intros [= -> ->]. destruct (moved st !! key src); [done|].
  unfold move_result, alloc. simpl.
  destruct (mods_get (key src) _) as [[hS tS] st2].
  by destruct (mods_get (key trg) _) as [[hT tT] st3].
Qed.

(** *** How a line changes the flattened lists *)

Definition E (st : state) (d : nat) (l : list event) : Prop :=
  ∃ F, eflat F (heap st) d = Some l.

Lemma E_inj st d l l' : E st d l → E st d l' → l = l'.
Proof.
  intros [F HF] [F' HF'].
  apply (eflat_mono _ (F `max` F')) in HF; [|lia].
  apply (eflat_mono _ (F `max` F')) in HF'; [|lia]. congruence.
Qed.

(** A map on flattened lists that only inserts. *)
Record ins_map (σ : list event → list event) : Prop := InsMap {
  ins_app : ∀ l1 l2, σ (l1 ++ l2) = σ l1 ++ σ l2;
  ins_cmd : ∀ c, σ [EvCmd c] = [EvCmd c];
  ins_keeps : ∀ e l, e ∈ l → e ∈ σ l;
}.

(** State [st'] has the lists of [st] with [σ] applied, and the tail of
    every key is carried along. *)
Record follows (st st' : state) (σ : list event → list event) : Prop :=
  Follows {
  fol_map : ins_map σ;
  fol_flat : ∀ d l, E st d l → E st' d (σ l);
  fol_tail : ∀ k hd tl, mods st !! k = Some (hd, tl) →
    ∃ tl', mods st' !! k = Some (hd, tl') ∧
           ∀ l, EvEnd tl ∈ l → EvEnd tl' ∈ σ l;
}.

(** Command [c] is in the list of [kA], and what is appended to [kB] from
    now on lands after it. *)
Definition chained (c : command) (kA kB : string) (st : state) : Prop :=
  ∃ hA tA hB tB xs ys,
    mods st !! kA = Some (hA, tA) ∧ mods st !! kB = Some (hB, tB) ∧
    E st hA (xs ++ EvCmd c :: ys) ∧ EvEnd tB ∈ ys.

(** Command [c1] comes before [c2] in the list of [kA]. *)
Definition ordered (c1 c2 : command) (kA : string) (st : state) : Prop :=
  ∃ hA tA xs ys zs,
    mods st !! kA = Some (hA, tA) ∧
    E st hA (xs ++ EvCmd c1 :: ys ++ EvCmd c2 :: zs).

Lemma follows_refl st : follows st st (λ l, l).
Proof. split; [by split|done|]. intros k hd tl Hk. by exists tl. Qed.

Lemma follows_emit r st : follows st (emit r st) (λ l, l).
Proof. split; [by split|done|]. intros k hd tl Hk. by exists tl. Qed.

Lemma follows_chained st st' σ c kA kB :
  follows st st' σ → chained c kA kB st → chained c kA kB st'.
Proof.
  intros [[Happ Hcmd Hkeeps] Hflat Htail]
         (hA & tA & hB & tB & xs & ys & HkA & HkB & HE & Hin).
  destruct (Htail _ _ _ HkA) as (tA' & HkA' & _).
  destruct (Htail _ _ _ HkB) as (tB' & HkB' & HtB').
  exists hA, tA', hB, tB', (σ xs), (σ ys).
  split; [done|]. split; [done|]. split; [|by apply HtB'].
  apply Hflat in HE.
  change (xs ++ EvCmd c :: ys) with (xs ++ [EvCmd c] ++ ys) in HE.
  by rewrite Happ, (Happ [EvCmd c] ys), Hcmd in HE.
Qed.

Lemma follows_ordered st st' σ c1 c2 kA :
  follows st st' σ → ordered c1 c2 kA st → ordered c1 c2 kA st'.
Proof.
  intros [[Happ Hcmd Hkeeps] Hflat Htail]
         (hA & tA & xs & ys & zs & HkA & HE).
  destruct (Htail _ _ _ HkA) as (tA' & HkA' & _).
  exists hA, tA', (σ xs), (σ ys), (σ zs). split; [done|].
  apply Hflat in HE.
  change (xs ++ EvCmd c1 :: ys ++ EvCmd c2 :: zs)
    with (xs ++ [EvCmd c1] ++ ys ++ [EvCmd c2] ++ zs) in HE.
  by rewrite Happ, (Happ [EvCmd c1]), Hcmd, Happ, (Happ [EvCmd c2]), Hcmd
    in HE.
Qed.

Lemma ins_map_move_map src trg d tS tT :
  ins_map (move_map src trg d tS tT).
Proof.
  split.
  - apply move_map_app.
  - apply move_map_cmd.
  - apply move_map_keeps.
Qed.

(** What a move that is carried out does. *)
Lemma move_effect src trg (st : state) :
  inv (fuel_of st) st →
  ∃ d tS tT,
    let σ := move_map src trg d tS tT in
    let st' := move_result src trg st in
    follows st st' σ ∧
    moved st' = <[key src := trg]> (moved st) ∧
    (∀ hd tl, mods st !! key src = Some (hd, tl) → tl = tS) ∧
    chained (Move src trg) (key src) (key trg) st'.
Proof.
  intros Hinv.
  destruct (move_prepare src trg st Hinv)
    as (hS & tS & hT & tT & st3 & Heq & Hinv3 & Hfresh3 & HkS & HkT
        & Hmoved & Hlen & Hkeep & Hflat).
  set (d := length (heap st)) in *. exists d, tS, tT. simpl. rewrite Heq.
  assert (d ≠ tS) as HdS by (by eapply fresh_not_tail).
  assert (d ≠ tT) as HdT by (by eapply fresh_not_tail).
  assert (∀ x l, E st3 x l →
            E (finish_move src trg d tS tT st3) x
              (move_map src trg d tS tT l)) as Hflat'.
  { intros x l [F HF]. exists (S (S F)).
    apply eflat_finish_move; try done. apply Hfresh3. }
  split; [split|split; [|split]].
  - apply ins_map_move_map.
  - intros x l [F HF]. apply Hflat'. exists F. by apply Hflat.
  - intros k hd tl Hk. apply Hkeep in Hk.
    eexists. split; [by apply mods_finish_move_2|].
    intros l Hin. destruct (decide (k = key trg)) as [->|Hne].
    + rewrite HkT in Hk. injection Hk as -> ->.
      by apply move_map_target.
    + by apply move_map_keeps.
  - change (moved (finish_move src trg d tS tT st3))
      with (<[key src := trg]> (moved st3)). by rewrite Hmoved.
  - intros hd tl Hk. apply Hkeep in Hk. congruence.
  - destruct (Hinv3 _ _ _ HkS) as (l & Hl & Hok).
    destruct (move_map_source src trg d tS tT l (ok_tail _ _ _ _ Hok))
      as (xs & ys & Hxs & Hin).
    exists hS, (if decide (key src = key trg) then d else tS), hT, d, xs, ys.
    split; [by apply mods_finish_move_2|]. split.
    { rewrite (mods_finish_move_2 _ _ _ _ _ _ _ _ _ HkT).
      by rewrite decide_True. }
    split; [|done]. rewrite <- Hxs. apply Hflat'. by eexists.
Qed.

Lemma move_orders src trg c kA (st : state) :
  inv (fuel_of st) st →
  chained c kA (key src) st →
  ordered c (Move src trg) kA (move_result src trg st).
Proof.
  intros Hinv (hA & tA & hB & tB & xs & ys & HkA & HkB & HE & Hin).
  destruct (move_effect src trg st Hinv)
    as (d & tS & tT & [[Happ Hcmd _] Hflat Htail] & _ & HtS & _).
  rewrite (HtS _ _ HkB) in Hin.
  destruct (move_map_source src trg d tS tT ys Hin) as (ys1 & ys2 & Hys & _).
  destruct (Htail _ _ _ HkA) as (tA' & HkA' & _).
  exists hA, tA', (move_map src trg d tS tT xs), ys1, ys2.
  split; [done|]. apply Hflat in HE.
  change (xs ++ EvCmd c :: ys) with (xs ++ [EvCmd c] ++ ys) in HE.
  by rewrite Happ, (Happ [EvCmd c] ys), Hcmd, Hys in HE.
Qed.

Lemma slotmove_follows src c (st : state) :
  inv (fuel_of st) st →
  ∃ σ, follows st (slotmove_result src c st) σ ∧
       moved (slotmove_result src c st) = moved st.
Proof.
  intros Hinv.
  destruct (slotmove_prepare src c st Hinv)
    as (hS & tS & st1 & -> & Hinv1 & HkS & Hmoved & Hlen & Hkeep & Hflat).
  exists (apply (at_end tS [EvCmd c])). split; [split; [split|..]|done].
  - apply apply_app.
  - apply apply_cmd.
  - apply apply_keeps.
  - intros x l [F HF]. exists F. simpl. by apply eflat_append_cmd, Hflat.
  - intros k hd tl Hk. exists tl. split; [by apply Hkeep|].
    apply apply_keeps.
Qed.

(** Every line acts on the lists by insertion, and changes [moved] only
    when it is a move that is carried out. *)
Lemma line_follows fn (st : state) n raw st' :
  process_line fn st (n, raw) = Ok st' →
  inv (fuel_of st) st →
  (∃ σ, follows st st' σ) ∧
  (moved st' = moved st ∨
   ∃ src trg, parse_move raw = Some (src, trg) ∧
              moved st !! key src = None ∧
              moved st' = <[key src := trg]> (moved st)).
Proof.
  intros Hline Hinv.
  destruct (process_line_kind _ _ _ _ _ Hline)
    as [r ->| ->|a o nw src src_slot _ _ Hm ->
        |s t src trg Hsplit Hs Ht Hfs Hft Hm ->].
  - split; [|by left]. eexists. apply follows_emit.
  - split; [|by left]. eexists. apply follows_refl.
  - destruct (slotmove_follows src (SlotMove src_slot nw) st Hinv)
      as (σ & Hfol & Hmoved).
    split; [by exists σ|by left].
  - destruct (move_effect src trg st Hinv)
      as (d & tS & tT & Hfol & Hmoved & _).
    split; [by eexists|]. right. exists src, trg.
    split; [|done]. unfold parse_move.
    rewrite Hsplit, decide_True, Hs, Ht, Hfs, Hft; done.
Qed.

Lemma moved_kept fn (st : state) ln st' k t :
  process_line fn st ln = Ok st' → inv (fuel_of st) st →
  moved st !! k = Some t → moved st' !! k = Some t.
Proof.
  destruct ln as [n raw]. intros Hline Hinv Hk.
  destruct (line_follows _ _ _ _ _ Hline Hinv)
    as [_ [->|(src & trg & _ & Hnone & ->)]]; [done|].
  rewrite lookup_insert_ne; [done|]. congruence.
Qed.

Lemma moved_absent fn (st : state) ln st' k :
  process_line fn st ln = Ok st' → inv (fuel_of st) st →
  move_source k ln.2 = false →
  moved st !! k = None → moved st' !! k = None.
Proof.
  destruct ln as [n raw]. intros Hline Hinv Hsrc Hk.
  destruct (line_follows _ _ _ _ _ Hline Hinv)
    as [_ [->|(src & trg & Hparse & Hnone & ->)]]; [done|].
  simpl in Hsrc. unfold move_source in Hsrc. rewrite Hparse in Hsrc.
  apply bool_decide_eq_false in Hsrc. by rewrite lookup_insert_ne.
Qed.

(** The same facts along a run of lines. *)
Lemma run_inv lns (st st' : state) :
  foldM step st lns = Ok st' →
  inv (fuel_of st) st → inv (fuel_of st') st'.
Proof.
  revert st. induction lns as [|ln lns IH]; intros st; simpl.
  - by intros [= <-].
  - destruct (step st ln) as [st1|] eqn:Hline; simpl; [|done].
    intros Hrest Hinv. apply (IH st1); [done|]. by eapply inv_line.
Qed.

Lemma run_chained lns (st st' : state) c kA kB :
  foldM step st lns = Ok st' → inv (fuel_of st) st →
  chained c kA kB st → chained c kA kB st'.
Proof.
  revert st. induction lns as [|[fn [n raw]] lns IH]; intros st; simpl.
  - by intros [= <-].
  - destruct (step st _) as [st1|] eqn:Hline; simpl; [|done].
    intros Hrest Hinv Hch. apply (IH st1); [done|by eapply inv_line|].
    destruct (line_follows _ _ _ _ _ Hline Hinv) as [[σ Hfol] _].
    by eapply follows_chained.
Qed.

Lemma run_ordered lns (st st' : state) c1 c2 kA :
  foldM step st lns = Ok st' → inv (fuel_of st) st →
  ordered c1 c2 kA st → ordered c1 c2 kA st'.
Proof.
  revert st. induction lns as [|[fn [n raw]] lns IH]; intros st; simpl.
  - by intros [= <-].
  - destruct (step st _) as [st1|] eqn:Hline; simpl; [|done].
    intros Hrest Hinv Hch. apply (IH st1); [done|by eapply inv_line|].
    destruct (line_follows _ _ _ _ _ Hline Hinv) as [[σ Hfol] _].
    by eapply follows_ordered.
Qed.

Lemma run_moved_kept lns (st st' : state) k t :
  foldM step st lns = Ok st' → inv (fuel_of st) st →
  moved st !! k = Some t → moved st' !! k = Some t.
Proof.
  revert st. induction lns as [|ln lns IH]; intros st; simpl.
  - by intros [= <-].
  - destruct (step st ln) as [st1|] eqn:Hline; simpl; [|done].
    intros Hrest Hinv Hk. apply (IH st1); [done|by eapply inv_line|].
    by eapply moved_kept.
Qed.

Lemma run_moved_absent lns (st st' : state) k :
  foldM step st lns = Ok st' → inv (fuel_of st) st →
  Forall (λ ln, move_source k ln.2.2 = false) lns →
  moved st !! k = None → moved st' !! k = None.
Proof.
  revert st. induction lns as [|ln lns IH]; intros st; simpl.
  - by intros [= <-].
  - destruct (step st ln) as [st1|] eqn:Hline; simpl; [|done].
    intros Hrest Hinv [Hln Hlns]%Forall_cons Hk.
    apply (IH st1); [done|by eapply inv_line|done|].
    by eapply moved_absent.
Qed.

(** *** From the final state to the mapping *)

Lemma moves_from_cmds k l : moves_from k (cmds l) = countb (is_move_from k) l.
Proof.
  induction l as [|[c|d] l IH]; [done| |].
  - rewrite countb_cons. change (cmds (EvCmd c :: l)) with (c :: cmds l).
    unfold moves_from in *. rewrite filter_cons.
    destruct (is_move_from k (EvCmd c)) eqn:Hc.
    + rewrite decide_True by done. simpl. f_equal. exact IH.
    + rewrite decide_False by done. exact IH.
  - rewrite countb_cons. by change (cmds (EvEnd d :: l)) with (cmds l).
Qed.

Lemma inv_process_directory dir (st : state) err :
  process_directory dir = (st, err) → inv (fuel_of st) st.
Proof.
  destruct dir as [fs|]; [|intros [= <- <-]; apply inv_init].
  rewrite process_directory_lines.
  intros (l1 & l2 & _ & Hrun & _)%for_each_prefix.
  eapply run_inv; [done|apply inv_init].
Qed.

Lemma commands_of_lookup (st : state) k hd tl l :
  inv (fuel_of st) st → mods st !! k = Some (hd, tl) → E st hd l →
  flatten_mods (fuel_of st) st !! k = Some (Some (cmds l)).
Proof.
  intros Hinv Hk HE. unfold flatten_mods. rewrite lookup_fmap, Hk.
  change (Some (iflatten_instance (fuel_of st) (heap st) hd)
          = Some (Some (cmds l))).
  rewrite iflatten_eflat. destruct (Hinv _ _ _ Hk) as (l' & Hl' & _).
  rewrite Hl'. by rewrite (E_inj st hd l l' HE) by (by eexists).
Qed.

(** Flattening never runs out of fuel. *)
Lemma commands_of_total (st : state) :
  inv (fuel_of st) st →
  commands_of st = Some (Ok (omap nonempty (flatten_mods (fuel_of st) st))).
Proof.
  intros Hinv. unfold commands_of.
  change (S (2 * length (heap st))) with (fuel_of st).
  rewrite decide_True; [done|].
  intros k o Hko. pose proof Hko as Hko'. unfold flatten_mods in Hko'.
  rewrite lookup_fmap in Hko'.
  apply fmap_Some in Hko' as ([hd tl] & Hk & _).
  destruct (Hinv k hd tl Hk) as (l & Hl & _).
  rewrite (commands_of_lookup st k hd tl l Hinv Hk) in Hko by (by eexists).
  by injection Hko as <-.
Qed.

Lemma read_updates_total dir : is_Some (read_updates (A:=A) dir).
Proof.
  unfold read_updates.
  destruct (process_directory dir) as [st err] eqn:Hrun.
  apply inv_process_directory in Hrun.
  destruct err as [[]|]; try done; by rewrite commands_of_total.
Qed.

(** C9. [read_updates] returns, and no key of the mapping it returns has
    an empty command list. *)
Theorem read_updates_lists_nonempty (dir : directory) :
  ∃ r, read_updates (A:=A) dir = Some r ∧
       ∀ m k v, r = Ok m → m !! k = Some v → v ≠ [].
Proof.
  destruct (read_updates_total dir) as [r Hr]. exists r. split; [done|].
  intros m k v ->. unfold read_updates in Hr.
  destruct (process_directory dir) as [st err] eqn:Hrun.
  apply inv_process_directory in Hrun.
  assert (commands_of st = Some (Ok m)) as Hm
    by (destruct err as [[]|]; done).
  rewrite commands_of_total in Hm by done. injection Hm as <-.
  rewrite lookup_omap.
  destruct (flatten_mods _ st !! k) as [[[|c l]|]|]; simpl; try done.
  by intros [= <-].
Qed.

Lemma read_updates_lookup fs (st : state) k hd tl l :
  foldM step init (tagged_lines fs) = Ok st →
  mods st !! k = Some (hd, tl) → E st hd l → cmds l ≠ [] →
  ∃ m, read_updates (Some fs) = Some (Ok m) ∧ m !! k = Some (cmds l).
Proof.
  intros Hrun Hk HE Hne.
  assert (process_directory (Some fs) = (st, None)) as Hdir
    by (rewrite process_directory_lines; by apply for_each_ok).
  pose proof (inv_process_directory _ _ _ Hdir) as Hinv.
  unfold read_updates. rewrite Hdir, commands_of_total by done.
  eexists. split; [done|].
  rewrite lookup_omap, (commands_of_lookup st k hd tl l) by done.
  simpl. by destruct (cmds l).
Qed.

(** C1 (as amended). Let the lines read, in order, contain a well-formed
    versionless [move A B] that is the first move from [A]'s key, and later
    a well-formed versionless [move B C] that is the first move from [B]'s
    key, and let no line raise.  Then the command list of [A]'s key has
    [('move', A, B)] before [('move', B, C)], holds exactly one move from
    [A]'s key, and every later well-formed versionless move from [A]'s key
    changes nothing but the log, where it is reported as redundant. *)
Theorem move_chain_is_ordered
    (fs : list (string * list string))
    (pre mid post : list (string * (nat * string)))
    (l1 l2 : string * (nat * string)) (srcA trgB srcB trgC : A) :
  tagged_lines fs = pre ++ l1 :: mid ++ l2 :: post →
  parse_move l1.2.2 = Some (srcA, trgB) →
  parse_move l2.2.2 = Some (srcB, trgC) →
  key srcB = key trgB →
  Forall (λ ln, move_source (key srcA) ln.2.2 = false) pre →
  Forall (λ ln, move_source (key srcB) ln.2.2 = false) (pre ++ l1 :: mid) →
  (∃ st, foldM step init (tagged_lines fs) = Ok st) →
  ∃ m cs,
    read_updates (Some fs) = Some (Ok m) ∧
    m !! key srcA = Some cs ∧
    (∃ xs ys zs, cs = xs ++ Move srcA trgB :: ys ++ Move srcB trgC :: zs) ∧
    moves_from (key srcA) cs = 1 ∧
    ∀ q1 lx q2 sx tx (st : state),
      mid ++ l2 :: post = q1 ++ lx :: q2 →
      parse_move lx.2.2 = Some (sx, tx) → key sx = key srcA →
      foldM step init (pre ++ l1 :: q1) = Ok st →
      step st lx
      = Ok (emit (LogRecord LWarning (AlreadyMoved sx trgB)
                    lx.1 lx.2.1 lx.2.2) st).
Proof.
  intros Hlines Hp1 Hp2 HkB HpreA HmidB [st Hrun].
  pose proof Hrun as Hall. rewrite Hlines in Hrun.
  destruct l1 as [f1 [n1 raw1]], l2 as [f2 [n2 raw2]]. simpl in Hp1, Hp2.
  (* the run up to the first move *)
  rewrite foldM_app in Hrun.
  destruct (foldM step init pre) as [st0|] eqn:Hrun0; [|done].
  pose proof (run_inv _ _ _ Hrun0 (inv_init _)) as Hinv0.
  assert (moved st0 !! key srcA = None) as HnoneA
    by (by eapply run_moved_absent; [apply Hrun0|apply inv_init|..]).
  assert (step st0 (f1, (n1, raw1)) = Ok (move_result srcA trgB st0))
    as Hstep1.
  { unfold step. cbn [fst snd]. by rewrite (process_line_move _ _ _ _ _ _ Hp1),
      HnoneA. }
  change (foldM step st0 ((f1, (n1, raw1)) :: mid ++ (f2, (n2, raw2)) :: post)
          = Ok st) in Hrun.
  rewrite (foldM_cons_ok _ _ _ _ _ Hstep1) in Hrun.
  set (st1 := move_result srcA trgB st0) in *.
  pose proof (inv_line _ _ _ _ Hstep1 Hinv0) as Hinv1.
  destruct (move_effect srcA trgB st0 Hinv0)
    as (d1 & tS1 & tT1 & _ & Hmoved1 & _ & Hch1).
  fold st1 in Hmoved1, Hch1.
  (* the lines between the two moves *)
  rewrite foldM_app in Hrun.
  destruct (foldM step st1 mid) as [stm|] eqn:Hrunm; [|done].
  pose proof (run_inv _ _ _ Hrunm Hinv1) as Hinvm.
  pose proof (run_chained _ _ _ _ _ _ Hrunm Hinv1 Hch1) as Hchm.
  assert (foldM step init (pre ++ (f1, (n1, raw1)) :: mid) = Ok stm)
    as Hrun_to_m.
  { rewrite foldM_app, Hrun0.
    change (foldM step st0 ((f1, (n1, raw1)) :: mid) = Ok stm).
    by rewrite (foldM_cons_ok _ _ _ _ _ Hstep1). }
  assert (moved stm !! key srcB = None) as HnoneB
    by (by eapply run_moved_absent; [apply Hrun_to_m|apply inv_init|..]).
  (* the second move *)
  assert (step stm (f2, (n2, raw2)) = Ok (move_result srcB trgC stm))
    as Hstep2.
  { unfold step. cbn [fst snd]. by rewrite (process_line_move _ _ _ _ _ _ Hp2),
      HnoneB. }
  change (foldM step stm ((f2, (n2, raw2)) :: post) = Ok st) in Hrun.
  rewrite (foldM_cons_ok _ _ _ _ _ Hstep2) in Hrun.
  set (st2 := move_result srcB trgC stm) in *.
  pose proof (inv_line _ _ _ _ Hstep2 Hinvm) as Hinv2.
  rewrite <- HkB in Hchm.
  pose proof (move_orders srcB trgC _ _ stm Hinvm Hchm) as Hord2.
  fold st2 in Hord2.
  (* the rest *)
  pose proof (run_inv _ _ _ Hrun Hinv2) as Hinv.
  destruct (run_ordered _ _ _ _ _ _ Hrun Hinv2 Hord2)
    as (hA & tA & xs & ys & zs & HkA & HE).
  set (l := xs ++ EvCmd (Move srcA trgB) :: ys
               ++ EvCmd (Move srcB trgC) :: zs) in *.
  assert (cmds l = cmds xs ++ Move srcA trgB :: cmds ys
                     ++ Move srcB trgC :: cmds zs) as Hcmds.
  { unfold l. rewrite cmds_app.
    change (cmds (EvCmd (Move srcA trgB) :: ys
                    ++ EvCmd (Move srcB trgC) :: zs))
      with (Move srcA trgB :: cmds (ys ++ EvCmd (Move srcB trgC) :: zs)).
    by rewrite cmds_app. }
  destruct (read_updates_lookup fs st (key srcA) hA tA l Hall HkA HE)
    as (m & Hm & Hlook).
  { rewrite Hcmds. by destruct (cmds xs). }
  exists m, (cmds l). split; [done|]. split; [done|].
  split; [by eauto|]. split.
  - rewrite moves_from_cmds.
    destruct (Hinv _ _ _ HkA) as (l' & Hl' & Hok).
    rewrite <- (E_inj st hA l l' HE) in Hok by (by eexists).
    pose proof (ok_once _ _ _ _ Hok) as Hle.
    assert (1 ≤ countb (is_move_from (key srcA)) l); [|lia].
    unfold l. rewrite countb_app, countb_cons. simpl.
    rewrite bool_decide_eq_true_2 by done. lia.
  - intros q1 [fx [nx rawx]] q2 sx tx stx _ Hpx Hkx Hrunx. simpl in *.
    rewrite foldM_app, Hrun0 in Hrunx.
    change (foldM step st0 ((f1, (n1, raw1)) :: q1) = Ok stx) in Hrunx.
    rewrite (foldM_cons_ok _ _ _ _ _ Hstep1) in Hrunx.
    assert (moved stx !! key sx = Some trgB) as Hmv.
    { eapply run_moved_kept; [done..|].
      by rewrite Hmoved1, Hkx, lookup_insert_eq. }
    unfold step. cbn [fst snd].
    by rewrite (process_line_move _ _ _ _ _ _ Hpx), Hmv.
Qed.

End updates.
End UpdateFacts.

Module UpdateExamples.
Import PkgUpdates SimpleAtom UpdateFacts.

Definition pkg (k : string) : SimpleAtom.t := SimpleAtom.Atom k None None.

(** One file: [a/a] moves to [b/b], [b/b] moves on to [c/c], and a second
    move of [a/a] comes last. *)
Definition chain_dir : list (string * list string) :=
  [("1Q-2019"%string,
    ["move a/a b/b"; "move b/b c/c"; "move a/a x/x"]%string)].

Definition chain_line (n : nat) (raw : string) : string * (nat * string) :=
  ("1Q-2019"%string, (n, raw)).

Lemma move_chain_is_ordered_witness :
  ∃ m cs,
    read_updates (Some chain_dir) = Some (Ok m) ∧
    m !! key (pkg "a/a") = Some cs ∧
    (∃ xs ys zs,
       cs = xs ++ Move (pkg "a/a") (pkg "b/b") :: ys
               ++ Move (pkg "b/b") (pkg "c/c") :: zs) ∧
    moves_from (key (pkg "a/a")) cs = 1 ∧
    ∀ q1 lx q2 sx tx (st : state),
      [] ++ chain_line 2 "move b/b c/c" :: [chain_line 3 "move a/a x/x"]
      = q1 ++ lx :: q2 →
      parse_move lx.2.2 = Some (sx, tx) → key sx = key (pkg "a/a") →
      foldM step init ([] ++ chain_line 1 "move a/a b/b" :: q1) = Ok st →
      step st lx
      = Ok (emit (LogRecord LWarning (AlreadyMoved sx (pkg "b/b"))
                    lx.1 lx.2.1 lx.2.2) st).
Proof.
  apply (move_chain_is_ordered chain_dir [] []
           [chain_line 3 "move a/a x/x"]
           (chain_line 1 "move a/a b/b") (chain_line 2 "move b/b c/c")
           (pkg "a/a") (pkg "b/b") (pkg "b/b") (pkg "c/c")).
  - reflexivity.
  - reflexivity.
  - reflexivity.
  - reflexivity.
  - constructor.
  - repeat constructor.
  - eexists. vm_compute. reflexivity.
Defined.

(** C1, as stated, fails: [move a/a b/b] is followed by [move b/b c/c], but
    [b/b] has been moved to [q/q] in between, so the second line is dropped
    as redundant and never reaches the list of [a/a]. *)
Lemma later_move_not_chained :
  ∃ m,
    read_updates
      (Some [("1Q-2019"%string,
              ["move a/a b/b"; "move b/b q/q"; "move b/b c/c"]%string)])
    = Some (Ok m) ∧
    m !! "a/a"%string
    = Some [Move (pkg "a/a") (pkg "b/b"); Move (pkg "b/b") (pkg "q/q")].
Proof. eexists. split; [by vm_compute|]. reflexivity. Qed.

End UpdateExamples.

Module SplitFacts.
Import Profiles.

(** A line that starts with [-]. *)
Definition negated (line : string) : bool :=
  match line with
  | String "-" _ => true
  | _ => false
  end.

Lemma mapM_cons_ok {X Y} (f : X → result Y) x l r :
  mapM f (x :: l) = Ok r ↔
  ∃ y k, f x = Ok y ∧ mapM f l = Ok k ∧ r = y :: k.
Proof.
  simpl. destruct (f x) as [y|e]; simpl.
  - destruct (mapM f l) as [k|e]; simpl.
    + split; [intros [= <-]; by eauto|by intros (? & ? & [= <-] & [= <-] & ->)].
    + split; [done|by intros (? & ? & _ & ? & _)].
  - split; [done|by intros (? & ? & ? & _)].
Qed.

Lemma split_negations_go_ok {T} (func : string → result T) data n0 p0 n p :
  split_negations_go func data n0 p0 = Ok (n, p) ↔
  ∃ neg pos,
    n = n0 ++ neg ∧ p = p0 ++ pos ∧
    Forall (λ l, l ≠ ""%string ∧ l ≠ "-"%string) data ∧
    mapM func (str_drop 1 <$> filter (λ l, negated l = true) data) = Ok neg ∧
    mapM func (filter (λ l, negated l = false) data) = Ok pos.
Proof.
  revert n0 p0. induction data as [|line data IH]; intros n0 p0.
  - simpl. split.
    + intros [= <- <-]. exists [], []. by rewrite !app_nil_r.
    + intros (neg & pos & -> & -> & _ & [= <-] & [= <-]).
      by rewrite !app_nil_r.
  - destruct line as [|c line].
    { simpl. split; [done|].
      by intros (? & ? & _ & _ & [[] _]%Forall_cons & _). }
    cbn [split_negations_go str_head]. simpl mbind.
    destruct (decide (c = "-"%char)) as [->|Hc].
    + rewrite (filter_cons_True (λ l, negated l = true)) by done.
      rewrite (filter_cons_False (λ l, negated l = false))
        by (intros Hf; simpl in Hf; discriminate).
      destruct (decide (S (String.length line) = 1)) as [Hlen|Hlen].
      { split; [done|]. intros (? & ? & _ & _ & [[_ Hd] _]%Forall_cons & _).
        destruct line; [done|discriminate]. }
      rewrite fmap_cons. change (str_drop 1 (String "-" line)) with line.
      destruct (func line) as [x|e] eqn:Hx; simpl.
      * rewrite IH. split.
        -- intros (neg & pos & -> & -> & Hall & Hneg & Hpos).
           exists (x :: neg), pos. rewrite <- app_assoc.
           split; [done|]. split; [done|].
           split; [constructor; [|done]; split; [done|];
                   intros [= ->]; by simpl in Hlen|].
           split; [|done]. apply mapM_cons_ok. by eauto.
        -- intros (neg & pos & -> & -> & [_ Hall]%Forall_cons
                   & (y & k & Hy & Hk & ->)%mapM_cons_ok & Hpos).
           exists k, pos. rewrite <- app_assoc.
           by replace y with x by congruence.
      * split; [done|].
        intros (? & ? & _ & _ & _ & (y & k & Hy & _)%mapM_cons_ok & _).
        congruence.
    + assert (negated (String c line) = false) as Hn.
      { simpl. by destruct c as [[] [] [] [] [] [] [] []]. }
      rewrite (filter_cons_False (λ l, negated l = true))
        by (by rewrite Hn).
      rewrite (filter_cons_True (λ l, negated l = false)) by done.
      destruct (func (String c line)) as [x|e] eqn:Hx; simpl.
      * rewrite IH. split.
        -- intros (neg & pos & -> & -> & Hall & Hneg & Hpos).
           exists neg, (x :: pos). rewrite <- app_assoc.
           split; [done|]. split; [done|].
           split; [constructor; [|done]; split; [done|];
                   intros [= -> _]; by destruct Hc|].
           split; [done|]. apply mapM_cons_ok. by eauto.
        -- intros (neg & pos & -> & -> & [_ Hall]%Forall_cons & Hneg
                   & (y & k & Hy & Hk & ->)%mapM_cons_ok).
           exists neg, k. rewrite <- app_assoc.
           by replace y with x by congruence.
      * split; [done|].
        intros (? & ? & _ & _ & _ & _ & (y & k & Hy & _)%mapM_cons_ok).
        congruence.
Qed.

(** [split_negations] returns exactly when no line is empty or a bare [-]
    and [func] accepts every token; the first component then holds the
    tokens of the [-] lines with the [-] removed, the second the other
    lines, both in file order. *)
Theorem split_negations_sorts_tokens {T} (func : string → result T)
    (data : list string) (neg pos : list T) :
  split_negations data func = Ok (neg, pos) ↔
  Forall (λ l, l ≠ ""%string ∧ l ≠ "-"%string) data ∧
  mapM func (str_drop 1 <$> filter (λ l, negated l = true) data) = Ok neg ∧
  mapM func (filter (λ l, negated l = false) data) = Ok pos.
Proof.
  unfold split_negations. rewrite split_negations_go_ok. split.
  - by intros (? & ? & -> & -> & ? & ? & ?).
  - intros (? & ? & ?). by exists neg, pos.
Qed.

End SplitFacts.

Module LoaderFacts.
Import Profiles.

(** What callers of a profile node have to expect: [ProfileError], or one
    of the three exceptions that are never wrapped. *)
Definition expected (e : exn) : Prop :=
  match e with
  | KeyboardInterrupt | RuntimeError | SystemExit | ProfileError _ _ _ => True
  | _ => False
  end.

Section node.
Context {A C : Type} `{Env A C}.
Variable dk : disk.
Variable path : string.

Lemma load_decorator_expected {D X} file (handler : list string → D)
    fallback (func : D → @M A C X) s e s' :
  runM (load_decorator dk path file handler fallback func) s = (Raise e, s') →
  expected e.
Proof.
  unfold load_decorator, try_with. cbn [runM].
  destruct (runM _ s) as [[x|e0] s0]; [done|].
  intros [= <- <-]. by destruct e0.
Qed.

Lemma default_env_expected s e s' :
  runM (_load_default_env dk path) s = (Raise e, s') → expected e.
Proof.
  unfold _load_default_env.
  destruct (read_file dk _) as [[f|]|ie]; simpl.
  - destruct (read_bash_dict f) as [d|e0]; simpl; [done|].
    intros [= <- <-]. by destruct e0.
  - done.
  - by intros [= <- <-].
Qed.

Lemma bind_raise {X Y} (m : @M A C X) (k : X → @M A C Y) s e s' :
  runM (m ≫= k) s = (Raise e, s') →
  runM m s = (Raise e, s') ∨
  ∃ x s0, runM m s = (Ok x, s0) ∧ runM (k x) s0 = (Raise e, s').
Proof.
  unfold mbind, M_bind. cbn [runM].
  destruct (runM m s) as [[x|e0] s0]; intros Heq.
  - right. by exists x, s0.
  - left. by injection Heq as -> ->.
Qed.

Lemma packages_then_lookup_expected attr s e s' :
  runM (_load_packages dk path ≫= λ _, lookup_or attr (raise RuntimeError)) s
  = (Raise e, s') →
  expected e.
Proof.
  intros [Hp|(x & s0 & _ & Hl)]%bind_raise.
  - by eapply load_decorator_expected.
  - unfold lookup_or in Hl. cbn [runM] in Hl.
    destruct (s0 !! attr); [done|]. simpl in Hl. by injection Hl as <- _.
Qed.

(** Reading a lazy attribute either returns or fails with an expected
    exception; only [eapi_atom], which no loader file stands behind, can
    also fail with [AttributeError]. *)
Theorem lazy_attribute_fails_with_ProfileError (attr : string)
    (s s' : inst_dict) (e : exn) :
  attr ∈ lazy_attrs → attr ≠ "eapi_atom"%string →
  runM (getattr dk path attr) s = (Raise e, s') →
  expected e.
Proof.
  intros Hattr Hne. unfold getattr, lookup_or at 1. cbn [runM].
  destruct (s !! attr) as [v0|] eqn:Hs; [done|].
  unfold lazy_attrs in Hattr.
  repeat (apply elem_of_cons in Hattr as [->|Hattr]);
    [..|by apply elem_of_nil in Hattr]; try done.
  1,2: apply packages_then_lookup_expected.
  all: try (by apply load_decorator_expected).
  apply default_env_expected.
Qed.

(** The class attributes of [EmptyRootNode]. *)
Definition EmptyRootNode_attrs : list (string * @value A C) :=
  [("parents", VParents []); ("deprecated", VNone);
   ("forced_use", VUse ∅); ("masked_use", VUse ∅);
   ("pkg_provided", VCpvs [] []); ("visibility", VAtoms [] []);
   ("system", VAtoms [] []); ("virtuals", VVirtuals false ∅)]%string.

(** A profile directory without any of the files reads, on a fresh node,
    as [EmptyRootNode] declares its attributes. *)
Theorem bare_directory_reads_as_EmptyRootNode (attr : string)
    (v : @value A C) :
  (∀ file, read_file dk (pjoin path file) = Ok None) →
  (attr, v) ∈ EmptyRootNode_attrs →
  ∃ v' s', runM (getattr dk path attr) ∅ = (Ok v', s') ∧ py_eq v' v.
Proof.
  intros Hnone Hattr. unfold EmptyRootNode_attrs in Hattr.
  repeat (apply elem_of_cons in Hattr as [[= -> ->]|Hattr]);
    [..|by apply elem_of_nil in Hattr].
  all: unfold getattr, lookup_or at 1; cbn [runM]; rewrite lookup_empty.
  all: unfold __getattr__; simpl.
  all: rewrite ?Hnone; simpl; rewrite ?lookup_empty; simpl;
       rewrite ?Hnone; simpl.
  all: try (eexists _, _; split; [reflexivity|done]).
Qed.

Lemma load_decorator_run {D X} file (handler : list string → D)
    fallback (func : D → @M A C X) s :
  runM (load_decorator dk path file handler fallback func) s
  = match read_file dk (pjoin path file) with
    | Raise e => (Raise (reraise path file e), s)
    | Ok data =>
        match runM (func match data with
                         | None => fallback
                         | Some lines => handler lines
                         end) s with
        | (Raise e, s0) => (Raise (reraise path file e), s0)
        | r => r
        end
    end.
Proof.
  unfold load_decorator, try_with. cbn [runM].
  unfold mbind at 1, M_bind. cbn [runM lift].
  destruct (read_file dk (pjoin path file)) as [[lines|]|e]; done.
Qed.


End node.
End LoaderFacts.

Module LoaderExamples.
Import Profiles SimpleEnv LoaderFacts.

Lemma lazy_attribute_fails_with_ProfileError_witness :
  ∃ e s', runM (getattr NegationExamples.dk "/p" "masked_use") ∅
          = (Raise e, s') ∧
          expected e.
Proof.
  assert ("masked_use"%string ∈ lazy_attrs) as H1.
  { unfold lazy_attrs. do 7 apply list_elem_of_further.
    apply list_elem_of_here. }
  assert ("masked_use"%string ≠ "eapi_atom"%string) as H2 by done.
  destruct (runM (getattr NegationExamples.dk "/p" "masked_use") ∅)
    as [[v|e] s'] eqn:Hrun; [by vm_compute in Hrun|].
  exists e, s'. split; [reflexivity|].
  exact (lazy_attribute_fails_with_ProfileError NegationExamples.dk "/p"
           "masked_use" ∅ s' e H1 H2 Hrun).
Defined.

Lemma bare_directory_reads_as_EmptyRootNode_witness :
  ∃ v' s', runM (getattr (one_profile []) "/p" "virtuals") ∅ = (Ok v', s') ∧
           py_eq v' (VVirtuals false ∅).
Proof.
  apply (bare_directory_reads_as_EmptyRootNode (one_profile []) "/p"
           "virtuals" (VVirtuals false ∅)).
  - intros file. reflexivity.
  - unfold EmptyRootNode_attrs. do 7 apply list_elem_of_further.
    apply list_elem_of_here.
Defined.

End LoaderExamples.

(** ** The order of the profile stack *)

Module StackFacts.
Import Profiles OnDiskProfile ProfileStack.

Section stack.
Context {N : Type}.
Variable node_parents : N → result (list N).
Variable root_node : result N.

(** In [l] every parent of a node stands before the node. *)
Definition parents_first (l : list N) : Prop :=
  ∀ i n ps p, l !! i = Some n → node_parents n = Ok ps → p ∈ ps →
    ∃ j, j < i ∧ l !! j = Some p.

Lemma parents_first_app l1 l2 :
  parents_first l1 → parents_first l2 → parents_first (l1 ++ l2).
Proof.
  intros H1 H2 i n ps p Hi Hn Hp.
  apply lookup_app_Some in Hi as [Hi|[Hle Hi]].
  - destruct (H1 i n ps p Hi Hn Hp) as (j & Hj & Hlj).
    exists j. split; [done|]. by apply lookup_app_l_Some.
  - destruct (H2 _ n ps p Hi Hn Hp) as (j & Hj & Hlj).
    exists (length l1 + j). split; [lia|].
    by rewrite lookup_app_r, Nat.add_comm, Nat.add_sub by lia.
Qed.

Lemma walk_all_ok (rec : N → option (result (list N))) ps (ys : list N) :
  walk_all rec ps = Some (Ok ys) →
  ∃ yss, Forall2 (λ p l, rec p = Some (Ok l)) ps yss ∧ ys = mjoin yss.
Proof.
  revert ys. induction ps as [|x ps IH]; intros ys; simpl.
  - intros [= <-]. by exists [].
  - destruct (rec x) as [[l|]|] eqn:Hx; [|done..].
    destruct (walk_all rec ps) as [[zs|]|]; [|done..].
    intros [= <-]. destruct (IH zs eq_refl) as (yss & HF & ->).
    exists (l :: yss). split; [by constructor|done].
Qed.

Lemma walk_ok fuel node l :
  walk node_parents fuel node = Some (Ok l) →
  (∃ pre, l = pre ++ [node]) ∧ parents_first l.
Proof.
  revert node l. induction fuel as [|fuel IH]; intros node l; [done|].
  simpl. destruct (node_parents node) as [ps|] eqn:Hps; [|done].
  destruct (walk_all _ ps) as [[ys|]|] eqn:Hall; [|done..].
  intros [= <-]. split; [by eexists|].
  apply walk_all_ok in Hall as (yss & HF & ->).
  assert (parents_first (mjoin yss)) as Hsub.
  { clear Hps. induction HF as [|p l ps yss Hp _ IHF]; simpl.
    - by intros i n ? ? ?.
    - apply parents_first_app; [by apply (IH p l)|done]. }
  intros i n ps' p Hi Hn Hp.
  apply lookup_app_Some in Hi as [Hi|[Hle Hi]].
  - destruct (Hsub i n ps' p Hi Hn Hp) as (j & Hj & Hlj).
    exists j. split; [done|]. by apply lookup_app_l_Some.
  - apply list_lookup_singleton_Some in Hi as [Hi <-].
    assert (ps' = ps) as -> by congruence.
    apply list_elem_of_lookup in Hp as [k Hk].
    destruct (Forall2_lookup_l _ _ _ _ _ HF Hk) as (lp & Hlp & Hwalk).
    destruct (IH p lp Hwalk) as [[pre ->] _].
    assert (p ∈ mjoin yss) as Hin.
    { apply list_elem_of_join. exists (pre ++ [p]).
      split; [apply elem_of_app; right; by left|].
      by eapply list_elem_of_lookup_2. }
    apply list_elem_of_lookup in Hin as [j Hj].
    exists j. split; [|by apply lookup_app_l_Some].
    apply lookup_lt_Some in Hj. lia.
Qed.

Lemma walk_total (rank : N → nat) fuel node :
  (∀ n ps p, node_parents n = Ok ps → p ∈ ps → rank p < rank n) →
  rank node < fuel → is_Some (walk node_parents fuel node).
Proof.
  intros Hrank. revert node. induction fuel as [|fuel IH]; intros node Hlt;
    [lia|].
  simpl. destruct (node_parents node) as [ps|] eqn:Hps; [|done].
  assert (is_Some (walk_all (walk node_parents fuel) ps)) as [[ys|e] ->];
    [|done..].
  assert (∀ p, p ∈ ps → is_Some (walk node_parents fuel p)) as Hps'.
  { intros p Hp. apply IH. specialize (Hrank node ps p Hps Hp). lia. }
  clear Hps. induction ps as [|x ps IHps]; simpl; [done|].
  destruct (Hps' x) as [[l|e] ->]; [by left| |done].
  destruct IHps as [[zs|e] ->]; [|done..].
  intros p Hp. apply Hps'. by right.
Qed.

(** When the [parent] files have no cycle the stack is computed, and in
    it every node comes after all of its parents, the profile's own node
    comes last and, if asked for, the [EmptyRootNode] first. *)
Theorem stack_puts_parents_first (rank : N → nat) (fuel : nat) (node : N)
    (load_profile_base : bool) :
  (∀ n ps p, node_parents n = Ok ps → p ∈ ps → rank p < rank n) →
  rank node < fuel →
  ∃ r, _load_stack node_parents root_node fuel node load_profile_base
       = Some r ∧
       ∀ stack, r = Ok stack →
         ∃ l, last l = Some node ∧ parents_first l ∧
              if load_profile_base
              then ∃ root, root_node = Ok root ∧ stack = root :: l
              else stack = l.
Proof.
  intros Hrank Hfuel. unfold _load_stack.
  destruct (walk_total rank fuel node Hrank Hfuel) as [[l|e] Hw]; rewrite Hw.
  2:{ eexists. split; [done|]. by intros. }
  destruct (walk_ok _ _ _ Hw) as [[pre ->] Hpf].
  destruct load_profile_base.
  - destruct root_node as [r|e].
    + eexists. split; [done|]. intros stack [= <-]. exists (pre ++ [node]).
      split; [by rewrite last_snoc|]. split; [done|]. by exists r.
    + eexists. split; [done|]. by intros.
  - eexists. split; [done|]. intros stack [= <-]. exists (pre ++ [node]).
    split; [by rewrite last_snoc|]. by split.
Qed.

End stack.
End StackFacts.

(** ** Who has the last word in a collapsed attribute *)

Module LastWordFacts.
Import Profiles OnDiskProfile ProfileStack CollapseFacts.

Section generic.
Context {N T : Type} `{Countable T}.
Variable node_pair : N → string → result (list T * list T).

Lemma collapse_spec_snoc (vals : list (list T * list T)) v :
  collapse_spec (vals ++ [v])
  = (collapse_spec vals ∖ list_to_set v.1) ∪ list_to_set v.2.
Proof. unfold collapse_spec. by rewrite foldl_app. Qed.

Lemma collapse_spec_elem (vals : list (list T * list T)) x :
  x ∈ collapse_spec vals ↔
  ∃ i v, vals !! i = Some v ∧ x ∈ v.2 ∧
         ∀ j w, i < j → vals !! j = Some w → x ∈ w.1 → x ∈ w.2.
Proof.
  induction vals as [|v vals IH] using rev_ind.
  - split; [by intros ?%elem_of_empty|by intros (i & v & ? & _)].
  - rewrite collapse_spec_snoc, elem_of_union, elem_of_difference,
      !elem_of_list_to_set, IH.
    split.
    + intros [[(i & w & Hi & Hx & Hlater) Hneg]|Hpos].
      * exists i, w. split; [by apply lookup_app_l_Some|]. split; [done|].
        intros j w' Hij Hj Hn.
        apply lookup_app_Some in Hj as [Hj|[_ Hj]]; [by eapply Hlater|].
        by apply list_lookup_singleton_Some in Hj as [_ <-].
      * exists (length vals), v.
        split; [by rewrite list_lookup_middle|]. split; [done|].
        intros j w' Hij Hj. apply lookup_lt_Some in Hj.
        rewrite length_app in Hj. simpl in Hj. lia.
    + intros (i & w & Hi & Hx & Hlater).
      apply lookup_app_Some in Hi as [Hi|[_ Hi]].
      * destruct (decide (x ∈ v.2)) as [?|Hnp]; [by right|]. left. split.
        -- exists i, w. split; [done|]. split; [done|].
           intros j w' Hij Hj. apply (Hlater j w'); [done|].
           by apply lookup_app_l_Some.
        -- intros Hn. apply Hnp.
           apply (Hlater (length vals) v); [|by rewrite list_lookup_middle|done].
           by apply lookup_lt_Some in Hi.
      * apply list_lookup_singleton_Some in Hi as [_ <-]. by right.
Qed.

(** An entry is in the collapsed set exactly when some node of the stack
    adds it and every later node that negates it adds it again. *)
Theorem collapsed_entry_has_last_word (stack : list N) (attr : string)
    (vals : list (list T * list T)) (s : gset T) (x : T) :
  Forall2 (λ n v, node_pair n attr = Ok v) stack vals →
  _collapse_generic node_pair stack attr = Ok s →
  x ∈ s ↔
  ∃ i v, vals !! i = Some v ∧ x ∈ v.2 ∧
         ∀ j w, i < j → vals !! j = Some w → x ∈ w.1 → x ∈ w.2.
Proof.
  intros HF. unfold _collapse_generic.
  rewrite (collapse_loop _ _ _ _ _ HF). intros [= <-].
  apply collapse_spec_elem.
Qed.

End generic.

Section virtuals.
Context {N V : Type}.
Variable node_virtuals : N → result (gmap string V).

Lemma dict_update_lookup (d m : gmap string V) k :
  dict_update d m !! k = match m !! k with
                         | Some v => Some v
                         | None => d !! k
                         end.
Proof.
  unfold dict_update.
  assert (∀ l (d : gmap string V), NoDup l.*1 →
            foldl (λ d kv, <[kv.1 := kv.2]> d) d l !! k
            = match list_to_map (M:=gmap string V) l !! k with
              | Some v => Some v
              | None => d !! k
              end) as Hl.
  { induction l as [|[k' v'] l IH]; intros d0 Hnd; [done|].
    apply NoDup_cons in Hnd as [Hk' Hnd]. simpl. rewrite IH by done.
    destruct (decide (k = k')) as [->|Hne].
    - rewrite lookup_insert_eq.
      rewrite (not_elem_of_list_to_map_1 l k') by done.
      by rewrite lookup_insert_eq.
    - rewrite (lookup_insert_ne (list_to_map l)) by done.
      by rewrite lookup_insert_ne by done. }
  rewrite Hl by apply NoDup_fst_map_to_list.
  by rewrite list_to_map_to_list.
Qed.

(** The loop, from any starting dictionary. *)
Definition collapse_from (d : gmap string V) (vs : list (gmap string V))
    : gmap string V :=
  foldl dict_update d vs.

Lemma collapse_from_lookup d vs k a :
  collapse_from d vs !! k = Some a ↔
  (∃ i v, vs !! i = Some v ∧ v !! k = Some a ∧
          ∀ j w, i < j → vs !! j = Some w → w !! k = None) ∨
  (d !! k = Some a ∧ ∀ j w, vs !! j = Some w → w !! k = None).
Proof.
  unfold collapse_from. induction vs as [|v vs IH] using rev_ind.
  - simpl. split; [by right|]. by intros [(i & v & ? & _)|[? _]].
  - rewrite foldl_app. simpl. rewrite dict_update_lookup.
    destruct (v !! k) as [b|] eqn:Hv.
    + split.
      * intros [= ->]. left. exists (length vs), v.
        split; [by rewrite list_lookup_middle|]. split; [done|].
        intros j w Hij Hj. apply lookup_lt_Some in Hj.
        rewrite length_app in Hj. simpl in Hj. lia.
      * intros [(i & w & Hi & Hw & Hlater)|[_ Hnone]].
        -- apply lookup_app_Some in Hi as [Hi|[_ Hi]].
           ++ assert (v !! k = None); [|congruence].
              apply (Hlater (length vs)); [by apply lookup_lt_Some in Hi|].
              by rewrite list_lookup_middle.
           ++ apply list_lookup_singleton_Some in Hi as [_ <-]. congruence.
        -- assert (v !! k = None); [|congruence].
           apply (Hnone (length vs)). by rewrite list_lookup_middle.
    + rewrite IH. split.
      * intros [(i & w & Hi & Hw & Hlater)|[Hd Hnone]].
        -- left. exists i, w. split; [by apply lookup_app_l_Some|].
           split; [done|]. intros j w' Hij Hj.
           apply lookup_app_Some in Hj as [Hj|[_ Hj]]; [by eapply Hlater|].
           by apply list_lookup_singleton_Some in Hj as [_ <-].
        -- right. split; [done|]. intros j w' Hj.
           apply lookup_app_Some in Hj as [Hj|[_ Hj]]; [by eapply Hnone|].
           by apply list_lookup_singleton_Some in Hj as [_ <-].
      * intros [(i & w & Hi & Hw & Hlater)|[Hd Hnone]].
        -- apply lookup_app_Some in Hi as [Hi|[_ Hi]].
           ++ left. exists i, w. split; [done|]. split; [done|].
              intros j w' Hij Hj. apply (Hlater j); [done|].
              by apply lookup_app_l_Some.
           ++ apply list_lookup_singleton_Some in Hi as [_ <-]. congruence.
        -- right. split; [done|]. intros j w' Hj. apply (Hnone j).
           by apply lookup_app_l_Some.
Qed.

Lemma collapse_virtuals_loop stack vs (d : gmap string V) :
  Forall2 (λ n v, node_virtuals n = Ok v) stack vs →
  foldM (λ d profile, v ← node_virtuals profile; Ok (dict_update d v))
        d stack
  = Ok (collapse_from d vs).
Proof.
  intros HF. revert d.
  induction HF as [|n v stack vs Hn _ IH]; intros d; simpl; [done|].
  rewrite Hn. simpl. apply IH.
Qed.

(** A virtual maps to the provider named by the last profile of the stack
    that mentions it. *)
Theorem virtual_comes_from_last_profile (stack : list N)
    (vs : list (gmap string V)) (k : string) (a : V) :
  Forall2 (λ n v, node_virtuals n = Ok v) stack vs →
  ∃ d, _collapse_virtuals node_virtuals stack = Ok d ∧
       (d !! k = Some a ↔
        ∃ i v, vs !! i = Some v ∧ v !! k = Some a ∧
               ∀ j w, i < j → vs !! j = Some w → w !! k = None).
Proof.
  intros HF. exists (collapse_from ∅ vs).
  split; [by apply collapse_virtuals_loop|].
  rewrite collapse_from_lookup. split; [|by left].
  intros [?|[Hd _]]; [done|]. by rewrite lookup_empty in Hd.
Qed.

End virtuals.
End LastWordFacts.

(** ** What the collapsed environment holds *)

Module EnvResultFacts.
Import Profiles OnDiskProfile ProfileStack EnvFacts.

Section env.
Context {N : Type}.
Variable node_env : N → result (gmap string string).
Variable incrementals : list string.
Variable incrementals_unfinalized : gset string.

Abbreviation accumulate := (accumulate incrementals).
Abbreviation finalize := (finalize incrementals_unfinalized).
Abbreviation shape := (incremental_shape incrementals).

(** The tokens collected under [k] so far. *)
Definition prior (d : gmap string env_value) (k : string) : list string :=
  match d !! k with
  | Some (EList l) => l
  | _ => []
  end.

(** What the first loop writes for a key that the profile sets to [v]. *)
Definition written (d : gmap string env_value) (k v : string) : env_value :=
  if bool_decide (k ∈ incrementals) then EList (prior d k ++ str_split v)
  else EStr v.

Lemma accumulate_lookup d k0 v0 d' k :
  accumulate d (k0, v0) = Ok d' →
  d' !! k = if decide (k = k0) then Some (written d k0 v0) else d !! k.
Proof.
  unfold accumulate, OnDiskProfile.accumulate, written, prior.
  case_bool_decide.
  - destruct (d !! k0) as [[]|] eqn:Hk0; intros [= <-];
      (destruct (decide (k = k0)) as [->|];
       [by rewrite lookup_insert_eq|by rewrite lookup_insert_ne]).
  - intros [= <-]. destruct (decide (k = k0)) as [->|];
      [by rewrite lookup_insert_eq|by rewrite lookup_insert_ne].
Qed.

Lemma accumulate_list l (d d' : gmap string env_value) k :
  NoDup l.*1 → foldM accumulate d l = Ok d' →
  d' !! k = match list_to_map (M:=gmap string string) l !! k with
            | Some v => Some (written d k v)
            | None => d !! k
            end.
Proof.
  revert d. induction l as [|[k0 v0] l IH]; intros d Hnd Hfold.
  { simpl in Hfold. by injection Hfold as <-. }
  rewrite fmap_cons in Hnd. apply NoDup_cons in Hnd as [Hk0 Hnd].
  cbn [foldM] in Hfold.
  destruct (accumulate d (k0, v0)) as [d1|] eqn:Ha; [|done].
  change (foldM accumulate d1 l = Ok d') in Hfold.
  rewrite (IH d1 Hnd Hfold).
  pose proof (accumulate_lookup _ _ _ _ k Ha) as Hk.
  change (list_to_map ((k0, v0) :: l))
    with (<[k0 := v0]> (list_to_map (M:=gmap string string) l)).
  destruct (decide (k = k0)) as [->|Hne].
  - rewrite lookup_insert_eq.
    by rewrite (not_elem_of_list_to_map_1 l k0).
  - rewrite lookup_insert_ne by done.
    destruct (list_to_map l !! k) as [v|]; [|done].
    unfold written, prior. by rewrite Hk.
Qed.

(** One profile's environment added to the dictionary. *)
Lemma accumulate_env env (d d' : gmap string env_value) k :
  foldM accumulate d (map_to_list env) = Ok d' →
  d' !! k = match env !! k with
            | Some v => Some (written d k v)
            | None => d !! k
            end.
Proof.
  intros Hacc.
  rewrite (accumulate_list _ _ _ k (NoDup_fst_map_to_list env) Hacc).
  by rewrite list_to_map_to_list.
Qed.

(** The value that the last profile setting [k] gives it. *)
Fixpoint last_set (k : string) (envs : list (gmap string string))
    : option string :=
  match envs with
  | [] => None
  | env :: envs' =>
      match last_set k envs' with
      | Some v => Some v
      | None => env !! k
      end
  end.

(** The tokens of [k] in all profiles, in stack order. *)
Definition all_tokens (k : string) (envs : list (gmap string string))
    : list string :=
  mjoin ((λ env, from_option str_split [] (env !! k)) <$> envs).

Lemma last_set_spec k envs v :
  last_set k envs = Some v ↔
  ∃ i env, envs !! i = Some env ∧ env !! k = Some v ∧
           ∀ j w, i < j → envs !! j = Some w → w !! k = None.
Proof.
  revert v. induction envs as [|env envs IH]; intros v; simpl.
  { split; [done|]. by intros (i & ? & ? & _). }
  destruct (last_set k envs) as [v'|] eqn:Hl.
  - split.
    + intros [= <-]. destruct (proj1 (IH v') eq_refl) as (i & w & Hi & Hw & Hn).
      exists (S i), w. split; [done|]. split; [done|].
      intros [|j] w' Hij Hj; [lia|]. apply (Hn j); [lia|done].
    + intros ([|i] & w & Hi & Hw & Hn).
      * destruct (proj1 (IH v') eq_refl) as (i' & w' & Hi' & Hw' & _).
        assert (w' !! k = None) by (apply (Hn (S i')); [lia|done]).
        congruence.
      * apply IH. exists i, w. split; [done|].
        split; [done|]. intros j w' Hij Hj. apply (Hn (S j)); [lia|done].
  - split.
    + intros Hv. exists 0, env. split; [done|]. split; [done|].
      intros [|j] w Hij Hj; [lia|]. simpl in Hj.
      destruct (w !! k) as [x|] eqn:Hx; [|done].
      assert (None = Some x) as Hbad; [|done].
      apply IH. clear IH Hij Hv.
      revert j Hj. induction envs as [|e envs IHe]; intros j Hj; [done|].
      simpl in Hl. destruct (last_set k envs) eqn:Hl'; [done|].
      destruct j as [|j]; simpl in Hj; [injection Hj as ->; congruence|].
      destruct (IHe eq_refl j Hj) as (i & w' & Hi & Hw' & Hn).
      exists (S i), w'. split; [done|]. split; [done|].
      intros [|j'] w'' Hij Hj'; [lia|]. apply (Hn j'); [lia|done].
    + intros ([|i] & w & Hi & Hw & Hn).
      * by injection Hi as <-.
      * assert (None = Some v) as Hbad; [|done].
        apply IH. exists i, w. split; [done|]. split; [done|].
        intros j w' Hij Hj. apply (Hn (S j)); [lia|done].
Qed.

(** The first loop, for a key that is not incremental. *)
Lemma accumulated_plain stack envs (d0 d : gmap string env_value) k :
  k ∉ incrementals →
  Forall2 (λ n env, node_env n = Ok env) stack envs →
  foldM (λ d profile,
           env ← node_env profile;
           foldM accumulate d (map_to_list env)) d0 stack = Ok d →
  d !! k = match last_set k envs with
           | Some v => Some (EStr v)
           | None => d0 !! k
           end.
Proof.
  intros Hk HF. revert d0.
  induction HF as [|n env stack envs Hn _ IH]; intros d0; simpl.
  { by intros [= <-]. }
  rewrite Hn. simpl.
  destruct (foldM accumulate d0 (map_to_list env)) as [d1|] eqn:Hacc;
    simpl; [|done].
  intros Hrest. rewrite (IH d1 Hrest).
  destruct (last_set k envs); [done|].
  rewrite (accumulate_env _ _ _ k Hacc).
  destruct (env !! k); [|done]. unfold written.
  by rewrite bool_decide_eq_false_2.
Qed.

(** The first loop, for an incremental key. *)
Lemma accumulated_incremental stack envs (d0 d : gmap string env_value) k :
  k ∈ incrementals →
  Forall2 (λ n env, node_env n = Ok env) stack envs →
  foldM (λ d profile,
           env ← node_env profile;
           foldM accumulate d (map_to_list env)) d0 stack = Ok d →
  d !! k = if bool_decide (Exists (λ env, is_Some (env !! k)) envs)
           then Some (EList (prior d0 k ++ all_tokens k envs))
           else d0 !! k.
Proof.
  intros Hk HF. revert d0.
  induction HF as [|n env stack envs Hn _ IH]; intros d0; simpl.
  { by intros [= <-]. }
  rewrite Hn. simpl.
  destruct (foldM accumulate d0 (map_to_list env)) as [d1|] eqn:Hacc;
    simpl; [|done].
  intros Hrest. rewrite (IH d1 Hrest).
  pose proof (accumulate_env _ _ _ k Hacc) as Hd1.
  unfold all_tokens. rewrite fmap_cons. simpl.
  destruct (env !! k) as [v|] eqn:Hv; simpl.
  - unfold written in Hd1. rewrite bool_decide_eq_true_2 in Hd1 by done.
    rewrite (bool_decide_eq_true_2 (Exists _ (env :: envs)))
      by (left; by rewrite Hv).
    assert (prior d1 k = prior d0 k ++ str_split v) as Hp
      by (unfold prior at 1; by rewrite Hd1).
    case_bool_decide.
    + by rewrite Hp, <- app_assoc.
    + rewrite Hd1.
      assert (mjoin ((λ env, from_option str_split [] (env !! k)) <$> envs)
              = []) as Hnil; [|by rewrite Hnil, app_nil_r].
      clear -H. induction envs as [|e envs IHe]; [done|]. simpl.
      destruct (e !! k) eqn:He.
      { destruct H. left. by rewrite He. }
      simpl. apply IHe. intros Hex. apply H. by right.
  - assert (prior d1 k = prior d0 k) as Hp
      by (unfold prior; by rewrite Hd1).
    rewrite Hp, Hd1.
    assert (Exists (λ env, is_Some (env !! k)) (env :: envs)
            ↔ Exists (λ env, is_Some (env !! k)) envs) as Hiff.
    { rewrite Exists_cons. rewrite Hv. split; [|by right].
      by intros [[? ?]|?]. }
    by rewrite (bool_decide_ext _ _ Hiff).
Qed.

(** *** The second loop *)

(** Key [k] has been dealt with: it is gone, or holds a tuple that is not
    empty. *)
Definition settled (d : gmap string env_value) (k : string) : Prop :=
  match d !! k with
  | None => True
  | Some (ETuple l) => l ≠ []
  | Some _ => False
  end.

Lemma finalize_settles d k d' :
  shape d → k ∈ incrementals → finalize d k = Ok d' → settled d' k.
Proof.
  intros Hd Hk. unfold finalize, OnDiskProfile.finalize, settled.
  destruct (d !! k) as [v|] eqn:Hv; [|intros [= <-]; by rewrite Hv].
  assert (tokens_of v ≠ [] ∨ truthy v = false) as Htok.
  { destruct (Hd k v Hk Hv) as [[l ->]|(l & -> & Hl)]; simpl.
    - destruct l; [by right|by left].
    - by left. }
  destruct (truthy v) eqn:Ht; simpl.
  2:{ destruct (Hd k v Hk Hv) as [[l ->]|(l & -> & Hl)]; done. }
  destruct Htok as [Htok|?]; [|done].
  case_bool_decide; [|case_decide]; intros [= <-].
  - by rewrite lookup_insert_eq.
  - by rewrite lookup_delete_eq.
  - rewrite lookup_insert_eq. intros Hnil. apply elements_empty_inv in Hnil.
    by apply leibniz_equiv in Hnil.
Qed.

Lemma finalize_unfinalized d k d' l :
  k ∈ incrementals_unfinalized → finalize d k = Ok d' →
  d !! k = Some (EList l) ∨ d !! k = Some (ETuple l) →
  d' !! k = Some (ETuple l).
Proof.
  intros Hk. unfold finalize, OnDiskProfile.finalize.
  intros Hf [Hv|Hv]; rewrite Hv in Hf; simpl in Hf.
  - destruct l; simpl in Hf; [done|].
    rewrite bool_decide_eq_true_2 in Hf by done. injection Hf as <-.
    by rewrite lookup_insert_eq.
  - destruct l; simpl in Hf; [done|].
    rewrite bool_decide_eq_true_2 in Hf by done. injection Hf as <-.
    by rewrite lookup_insert_eq.
Qed.

Lemma finalize_loop incs (d d' : gmap string env_value) :
  shape d → (∀ x, x ∈ incs → x ∈ incrementals) →
  foldM finalize d incs = Ok d' →
  shape d' ∧
  (∀ k, k ∉ incs → d' !! k = d !! k) ∧
  (∀ k, k ∈ incs → settled d' k) ∧
  (∀ k l, k ∈ incs → k ∈ incrementals_unfinalized →
          d !! k = Some (EList l) ∨ d !! k = Some (ETuple l) →
          d' !! k = Some (ETuple l)) ∧
  (∀ k, d !! k = None → d' !! k = None).
Proof.
  revert d. induction incs as [|x incs IH]; intros d Hd Hsub Hfold.
  { simpl in Hfold. injection Hfold as <-. split; [done|]. split; [done|].
    split; [by intros k ?%elem_of_nil|].
    split; [by intros k l ?%elem_of_nil|done]. }
  cbn [foldM] in Hfold.
  destruct (finalize d x) as [d1|] eqn:Hf; [|done].
  change (foldM finalize d1 incs = Ok d') in Hfold.
  assert (x ∈ incrementals) as Hx by (apply Hsub; left).
  destruct (finalize_ok _ _ _ _ _ Hd Hx Hf) as [Hd1 Hother].
  destruct (IH d1 Hd1 (λ y Hy, Hsub y (list_elem_of_further _ _ _ Hy)) Hfold)
    as (Hd' & Hout & Hin & Hunf & Hnone).
  split; [done|]. split; [|split; [|split]].
  - intros k Hk. apply not_elem_of_cons in Hk as [Hne Hk].
    by rewrite Hout, Hother.
  - intros k Hk. destruct (decide (k ∈ incs)) as [?|Hnot]; [by apply Hin|].
    apply elem_of_cons in Hk as [->|?]; [|done].
    unfold settled. rewrite (Hout x Hnot).
    by apply (finalize_settles d x d1).
  - intros k l Hk Hku Hv.
    destruct (decide (k = x)) as [->|Hne].
    + pose proof (finalize_unfinalized _ _ _ _ Hku Hf Hv) as Hd1x.
      destruct (decide (x ∈ incs)) as [?|Hnot]; [by apply Hunf; auto|].
      by rewrite (Hout x Hnot).
    + apply elem_of_cons in Hk as [?|Hk]; [done|].
      apply Hunf; [done..|]. by rewrite (Hother k Hne).
  - intros k Hk. apply Hnone.
    destruct (decide (k = x)) as [->|Hne]; [|by rewrite Hother].
    unfold finalize, OnDiskProfile.finalize in Hf. rewrite Hk in Hf.
    by injection Hf as <-.
Qed.

Lemma accumulated_envs stack (d : gmap string env_value) :
  accumulated node_env incrementals stack = Ok d →
  ∃ envs, Forall2 (λ n env, node_env n = Ok env) stack envs.
Proof.
  unfold accumulated. generalize (∅ : gmap string env_value). revert d.
  induction stack as [|n stack IH]; intros d d0 Hacc; [by exists []|].
  cbn [foldM] in Hacc.
  destruct (node_env n) as [env|] eqn:Hn; [|done].
  simpl in Hacc.
  destruct (foldM accumulate d0 (map_to_list env)) as [d1|]; [|done].
  destruct (IH d d1 Hacc) as [envs HF].
  exists (env :: envs). by constructor.
Qed.

Lemma collapse_env_shape (stack : list N)
    (d : gmap string env_value) (k : string) (v : env_value) :
  _collapse_env node_env incrementals incrementals_unfinalized stack = Ok d →
  d !! k = Some v →
  if bool_decide (k ∈ incrementals)
  then ∃ l, v = ETuple l ∧ l ≠ []
  else ∃ s, v = EStr s.
Proof.
  unfold _collapse_env.
  destruct (accumulated node_env incrementals stack) as [d0|] eqn:Hacc;
    [|done].
  simpl. intros Hfin Hv.
  pose proof (accumulated_shape _ _ _ _ Hacc) as Hd0.
  destruct (finalize_loop incrementals d0 d Hd0 (λ _ H, H) Hfin)
    as (_ & Hout & Hin & _).
  case_bool_decide as Hk.
  - specialize (Hin k Hk). unfold settled in Hin. rewrite Hv in Hin.
    destruct v; try done. by eexists.
  - rewrite (Hout k Hk) in Hv.
    destruct (accumulated_envs _ _ Hacc) as [envs HF].
    rewrite (accumulated_plain stack envs ∅ d0 k Hk HF Hacc) in Hv.
    rewrite lookup_empty in Hv. destruct (last_set k envs); [|done].
    injection Hv as <-. by eexists.
Qed.

(** In the mapping returned by [_collapse_env] every incremental key holds
    a tuple that is not empty, and every other key holds a string. *)
Theorem collapsed_env_is_well_shaped (stack : list N)
    (d : gmap string env_value) (k : string) (v : env_value) :
  _collapse_env node_env incrementals incrementals_unfinalized stack = Ok d →
  d !! k = Some v →
  if bool_decide (k ∈ incrementals)
  then ∃ l, v = ETuple l ∧ l ≠ []
  else ∃ s, v = EStr s.
Proof. apply collapse_env_shape. Qed.

(** A key that is not incremental holds the value given by the last
    profile of the stack that sets it. *)
Theorem plain_key_comes_from_last_profile (stack : list N)
    (envs : list (gmap string string)) (d : gmap string env_value)
    (k : string) (v : env_value) :
  Forall2 (λ n env, node_env n = Ok env) stack envs →
  _collapse_env node_env incrementals incrementals_unfinalized stack = Ok d →
  k ∉ incrementals →
  d !! k = Some v ↔
  ∃ i env s, envs !! i = Some env ∧ env !! k = Some s ∧ v = EStr s ∧
             ∀ j w, i < j → envs !! j = Some w → w !! k = None.
Proof.
  intros HF. unfold _collapse_env.
  destruct (accumulated node_env incrementals stack) as [d0|] eqn:Hacc;
    [|done].
  simpl. intros Hfin Hk.
  pose proof (accumulated_shape _ _ _ _ Hacc) as Hd0.
  destruct (finalize_loop incrementals d0 d Hd0 (λ _ H, H) Hfin)
    as (_ & Hout & _).
  rewrite (Hout k Hk), (accumulated_plain stack envs ∅ d0 k Hk HF Hacc).
  rewrite lookup_empty. split.
  - destruct (last_set k envs) as [s|] eqn:Hl; [|done]. intros [= <-].
    apply last_set_spec in Hl as (i & env & Hi & Hs & Hn).
    by exists i, env, s.
  - intros (i & env & s & Hi & Hs & -> & Hn).
    assert (last_set k envs = Some s) as ->; [|done].
    apply last_set_spec. by exists i, env.
Qed.

(** An incremental key that is not finalized holds the tokens of all the
    profiles that set it, in stack order. *)
Theorem unfinalized_key_keeps_all_tokens (stack : list N)
    (envs : list (gmap string string)) (d : gmap string env_value)
    (k : string) :
  Forall2 (λ n env, node_env n = Ok env) stack envs →
  _collapse_env node_env incrementals incrementals_unfinalized stack = Ok d →
  k ∈ incrementals → k ∈ incrementals_unfinalized →
  d !! k = if bool_decide (Exists (λ env, is_Some (env !! k)) envs)
           then Some (ETuple (all_tokens k envs))
           else None.
Proof.
  intros HF. unfold _collapse_env.
  destruct (accumulated node_env incrementals stack) as [d0|] eqn:Hacc;
    [|done].
  simpl. intros Hfin Hk Hku.
  pose proof (accumulated_shape _ _ _ _ Hacc) as Hd0.
  destruct (finalize_loop incrementals d0 d Hd0 (λ _ H, H) Hfin)
    as (_ & _ & _ & Hunf & Hnone).
  pose proof (accumulated_incremental stack envs ∅ d0 k Hk HF Hacc) as Hd0k.
  unfold prior in Hd0k. rewrite lookup_empty in Hd0k. simpl in Hd0k.
  case_bool_decide.
  - apply Hunf; auto.
  - by apply Hnone.
Qed.

Lemma expand_property_words (stack : list N)
    (d : gmap string env_value) (name : string) :
  _collapse_env node_env incrementals incrementals_unfinalized stack = Ok d →
  expand_property name incrementals d
  = Ok match d !! name with
       | Some (ETuple l) => l
       | Some (EStr s) => str_split s
       | _ => []
       end.
Proof.
  intros Hd. unfold expand_property.
  destruct (d !! name) as [v|] eqn:Hv.
  - pose proof (collapse_env_shape stack d name v Hd Hv) as Hs.
    case_bool_decide; [by destruct Hs as (l & -> & _)|by destruct Hs as [s ->]].
  - by case_bool_decide.
Qed.

(** The words of a value of the collapsed environment. *)
Definition words (o : option env_value) : list string :=
  match o with
  | Some (ETuple l) => l
  | Some (EStr s) => str_split s
  | _ => []
  end.

(** On the environment that [_collapse_env] returns, [use_expand] and
    [use_expand_hidden] never raise and give the words of the variable:
    the tuple of an incremental, the split string otherwise. *)
Theorem use_expand_gives_words (stack : list N)
    (d : gmap string env_value) :
  _collapse_env node_env incrementals incrementals_unfinalized stack = Ok d →
  use_expand incrementals d = Ok (words (d !! "USE_EXPAND"%string)) ∧
  use_expand_hidden incrementals d
  = Ok (words (d !! "USE_EXPAND_HIDDEN"%string)).
Proof.
  intros Hd. split; by apply (expand_property_words stack).
Qed.

End env.
End EnvResultFacts.

Module StackExamples.
Import Profiles OnDiskProfile ProfileStack StackFacts LastWordFacts
  EnvResultFacts.

(** Profile 2 inherits from 0 and 1, profile 1 from 0. *)
Definition parents_of (n : nat) : result (list nat) :=
  match n with
  | 2 => Ok [0; 1]
  | 1 => Ok [0]
  | _ => Ok []
  end.

Lemma stack_puts_parents_first_witness :
  ∃ r, _load_stack parents_of (Ok 9) 3 2 true = Some r ∧
       ∀ stack, r = Ok stack →
         ∃ l, last l = Some 2 ∧ parents_first parents_of l ∧
              ∃ root, Ok 9 = Ok root ∧ stack = root :: l.
Proof.
  apply (stack_puts_parents_first parents_of (Ok 9) id 3 2 true).
  - intros [|[|[|n]]] ps p [= <-] Hp; simpl;
      repeat (apply elem_of_cons in Hp as [->|Hp]); try lia;
      by apply elem_of_nil in Hp.
  - simpl. lia.
Defined.

Lemma collapsed_entry_has_last_word_witness :
  let vals := [([], ["a"; "b"]%string); (["a"%string], ["c"%string])] in
  ∃ s, _collapse_generic CollapseExamples.two_nodes [0; 1] "system" = Ok s ∧
       ("b"%string ∈ s ↔
        ∃ i v, vals !! i = Some v ∧ "b"%string ∈ v.2 ∧
               ∀ j w, i < j → vals !! j = Some w →
                      "b"%string ∈ w.1 → "b"%string ∈ w.2).
Proof.
  intros vals.
  assert (Forall2 (λ n v, CollapseExamples.two_nodes n "system" = Ok v)
            [0; 1] vals) as H1 by repeat constructor.
  destruct (_collapse_generic CollapseExamples.two_nodes [0; 1] "system")
    as [s|] eqn:Hs; [|by vm_compute in Hs].
  exists s. split; [done|].
  exact (collapsed_entry_has_last_word CollapseExamples.two_nodes [0; 1]
           "system" vals s "b" H1 Hs).
Defined.

(** Two profiles: the child overrides the editor. *)
Definition virtuals_of (n : nat) : result (gmap string string) :=
  match n with
  | 0 => Ok {[ "editor"%string := "nano"%string; "mta"%string := "ssmtp"%string ]}
  | _ => Ok {[ "editor"%string := "vim"%string ]}
  end.

Lemma virtual_comes_from_last_profile_witness :
  let vs : list (gmap string string) :=
    [{[ "editor"%string := "nano"%string; "mta"%string := "ssmtp"%string ]};
     {[ "editor"%string := "vim"%string ]}] in
  ∃ d, _collapse_virtuals virtuals_of [0; 1] = Ok d ∧
       (d !! "editor"%string = Some "vim"%string ↔
        ∃ i v, vs !! i = Some v ∧ v !! "editor"%string = Some "vim"%string ∧
               ∀ j w, i < j → vs !! j = Some w → w !! "editor"%string = None).
Proof.
  intros vs.
  apply (virtual_comes_from_last_profile virtuals_of [0; 1] vs).
  repeat constructor.
Defined.

(** Two profiles: both set [USE] and [ARCH]. *)
Definition env_of (n : nat) : result (gmap string string) :=
  match n with
  | 0 => Ok {[ "USE"%string := "a b"%string; "ARCH"%string := "x86"%string ]}
  | _ => Ok {[ "USE"%string := "-b c"%string; "ARCH"%string := "amd64"%string ]}
  end.
Definition envs : list (gmap string string) :=
  [{[ "USE"%string := "a b"%string; "ARCH"%string := "x86"%string ]};
   {[ "USE"%string := "-b c"%string; "ARCH"%string := "amd64"%string ]}].

Lemma env_of_envs : Forall2 (λ n env, env_of n = Ok env) [0; 1] envs.
Proof. repeat constructor. Qed.

Lemma collapsed_env_is_well_shaped_witness :
  ∃ d v, _collapse_env env_of ["USE"%string] ∅ [0; 1] = Ok d ∧
         d !! "USE"%string = Some v ∧
         ∃ l, v = ETuple l ∧ l ≠ [].
Proof.
  destruct (_collapse_env env_of ["USE"%string] ∅ [0; 1]) as [d|] eqn:Hd;
    [|by vm_compute in Hd].
  destruct (d !! "USE"%string) as [v|] eqn:Hv.
  2:{ exfalso. vm_compute in Hd. injection Hd as <-. by vm_compute in Hv. }
  exists d, v. split; [done|]. split; [done|].
  exact (collapsed_env_is_well_shaped env_of ["USE"%string] ∅ [0; 1] d
           "USE" v Hd Hv).
Defined.

Lemma plain_key_comes_from_last_profile_witness :
  ∃ d, _collapse_env env_of ["USE"%string] ∅ [0; 1] = Ok d ∧
       ∀ v, d !! "ARCH"%string = Some v ↔
            ∃ i env s, envs !! i = Some env ∧ env !! "ARCH"%string = Some s ∧
                       v = EStr s ∧
                       ∀ j w, i < j → envs !! j = Some w →
                              w !! "ARCH"%string = None.
Proof.
  destruct (_collapse_env env_of ["USE"%string] ∅ [0; 1]) as [d|] eqn:Hd;
    [|by vm_compute in Hd].
  assert ("ARCH"%string ∉ ["USE"%string]) as Hk
    by (intros [= ?]%list_elem_of_singleton).
  exists d. split; [done|]. intros v.
  exact (plain_key_comes_from_last_profile env_of ["USE"%string] ∅ [0; 1]
           envs d "ARCH" v env_of_envs Hd Hk).
Defined.

Lemma unfinalized_key_keeps_all_tokens_witness :
  ∃ d, _collapse_env env_of ["USE"%string] {[ "USE"%string ]} [0; 1] = Ok d ∧
       d !! "USE"%string
       = if bool_decide (Exists (λ env, is_Some (env !! "USE"%string)) envs)
         then Some (ETuple (all_tokens "USE" envs))
         else None.
Proof.
  destruct (_collapse_env env_of ["USE"%string] {[ "USE"%string ]} [0; 1])
    as [d|] eqn:Hd; [|by vm_compute in Hd].
  exists d. split; [done|].
  exact (unfinalized_key_keeps_all_tokens env_of ["USE"%string]
           {[ "USE"%string ]} [0; 1] envs d "USE" env_of_envs Hd
           (list_elem_of_here _ _) (proj2 (elem_of_singleton _ _) eq_refl)).
Defined.

Lemma use_expand_gives_words_witness :
  ∃ d, _collapse_env env_of ["USE"%string] ∅ [0; 1] = Ok d ∧
       use_expand ["USE"%string] d = Ok (words (d !! "USE_EXPAND"%string)) ∧
       use_expand_hidden ["USE"%string] d
       = Ok (words (d !! "USE_EXPAND_HIDDEN"%string)).
Proof.
  destruct (_collapse_env env_of ["USE"%string] ∅ [0; 1]) as [d|] eqn:Hd;
    [|by vm_compute in Hd].
  exists d. split; [done|].
  exact (use_expand_gives_words env_of ["USE"%string] ∅ [0; 1] d Hd).
Defined.

End StackExamples.

Module RepoTreeFacts.
Import Profiles RepoTree.

Lemma list_ascii_app (s t : string) :
  list_ascii_of_string (s +:+ t)
  = list_ascii_of_string s ++ list_ascii_of_string t.
Proof. induction s as [|c s IH]; simpl; [done|by f_equal]. Qed.

Lemma str_app_assoc (s t u : string) : (s +:+ t) +:+ u = s +:+ t +:+ u.
Proof.
  induction s as [|c s IH]; [done|].
  change (String c ((s +:+ t) +:+ u) = String c (s +:+ t +:+ u)).
  by f_equal.
Qed.

Lemma list_ascii_length (s : string) :
  length (list_ascii_of_string s) = String.length s.
Proof. induction s as [|c s IH]; simpl; [done|by rewrite IH]. Qed.

Lemma list_ascii_inj (s t : string) :
  list_ascii_of_string s = list_ascii_of_string t → s = t.
Proof.
  intros Heq. rewrite <- (string_of_list_ascii_of_string s), Heq.
  apply string_of_list_ascii_of_string.
Qed.

Lemma string_of_list_inj (l k : list ascii) :
  string_of_list_ascii l = string_of_list_ascii k → l = k.
Proof.
  intros Heq. rewrite <- (list_ascii_of_string_of_list_ascii l), Heq.
  apply list_ascii_of_string_of_list_ascii.
Qed.

(** The three slices of [_get_versions], on the characters of the name. *)
Lemma slice_suffix (x : string) (k : nat) :
  0 < k →
  slice x (Some (- Z.of_nat k)%Z) None
  = string_of_list_ascii
      (drop (length (list_ascii_of_string x) - k) (list_ascii_of_string x)).
Proof.
  intros Hk. unfold slice, py_index. simpl.
  destruct (Z.ltb_spec (- Z.of_nat k) 0) as [_|?]; [|lia].
  set (l := list_ascii_of_string x).
  replace (Z.to_nat (Z.max 0 (Z.of_nat (length l) + - Z.of_nat k)))
    with (length l - k) by lia.
  f_equal. apply take_ge. rewrite length_drop. lia.
Qed.

Lemma slice_prefix (x : string) (n : nat) :
  slice x None (Some (Z.of_nat n))
  = string_of_list_ascii (take n (list_ascii_of_string x)).
Proof.
  unfold slice, py_index. simpl.
  destruct (Z.ltb_spec (Z.of_nat n) 0) as [?|_]; [lia|].
  set (l := list_ascii_of_string x).
  rewrite Nat2Z.id, Nat.sub_0_r. f_equal.
  destruct (Nat.min_spec n (length l)) as [[? ->]|[? ->]]; [done|].
  rewrite drop_0. by rewrite !take_ge by lia.
Qed.

Lemma slice_middle (x : string) (n k : nat) :
  0 < k →
  slice x (Some (Z.of_nat n)) (Some (- Z.of_nat k)%Z)
  = let l := list_ascii_of_string x in
    string_of_list_ascii
      (take (length l - k - Nat.min n (length l))
            (drop (Nat.min n (length l)) l)).
Proof.
  intros Hk. unfold slice, py_index. simpl.
  destruct (Z.ltb_spec (- Z.of_nat k) 0) as [_|?]; [|lia].
  destruct (Z.ltb_spec (Z.of_nat n) 0) as [?|_]; [lia|].
  set (l := list_ascii_of_string x).
  rewrite Nat2Z.id.
  by replace (Z.to_nat (Z.max 0 (Z.of_nat (length l) + - Z.of_nat k)))
    with (length l - k) by lia.
Qed.

(** A name that starts with [pre] and ends with [suf], where the last
    character of [pre] does not occur in [suf], has the two apart. *)
Lemma affixes_apart (l pre suf : list ascii) (c : ascii) :
  last pre = Some c → c ∉ suf →
  drop (length l - length suf) l = suf →
  take (length pre) l = pre →
  l = pre ++ take (length l - length suf - length pre) (drop (length pre) l)
      ++ suf.
Proof.
  intros Hlast Hc Hsuf Hpre.
  assert (length pre ≤ length l) as Hlp.
  { apply (f_equal length) in Hpre. rewrite length_take in Hpre. lia. }
  assert (length suf ≤ length l) as Hls.
  { apply (f_equal length) in Hsuf. rewrite length_drop in Hsuf. lia. }
  assert (0 < length pre) as Hpos by (destruct pre; [done|simpl; lia]).
  assert (length pre + length suf ≤ length l) as Hfit.
  { destruct (decide (length pre + length suf ≤ length l)); [done|].
    exfalso. apply Hc.
    assert (l !! (length pre - 1) = Some c) as Hat.
    { rewrite <- (take_drop (length pre) l), lookup_app_l
        by (rewrite length_take; lia).
      rewrite Hpre, <- Hlast, last_lookup. f_equal. lia. }
    rewrite <- Hsuf. apply list_elem_of_lookup.
    exists (length pre - 1 - (length l - length suf)).
    rewrite lookup_drop, <- Hat. f_equal. lia. }
  rewrite <- (take_drop (length pre) l) at 1. rewrite Hpre. f_equal.
  rewrite <- (take_drop (length l - length suf - length pre)
                (drop (length pre) l)) at 1.
  f_equal. rewrite drop_drop. etrans; [|exact Hsuf]. f_equal. lia.
Qed.

Lemma last_dash (pkg : string) :
  last (list_ascii_of_string (pkg +:+ "-")) = Some "-"%char.
Proof. rewrite list_ascii_app. simpl. apply last_snoc. Qed.

Lemma dash_not_in_extension :
  "-"%char ∉ list_ascii_of_string extension.
Proof.
  simpl. rewrite !elem_of_cons, elem_of_nil.
  intros [?|[?|[?|[?|[?|[?|[?|[]]]]]]]]; discriminate.
Qed.

Lemma ebuild_name_chars (pkg v : string) :
  list_ascii_of_string (pkg +:+ "-" +:+ v +:+ extension)
  = list_ascii_of_string (pkg +:+ "-") ++ list_ascii_of_string v
    ++ list_ascii_of_string extension.
Proof.
  rewrite <- (str_app_assoc pkg "-").
  by rewrite (list_ascii_app (pkg +:+ "-")), (list_ascii_app v).
Qed.

(** The filter of [_get_versions] keeps the names [<pkg>-<v>.ebuild], and
    the slice gives [<v>] back. *)
Lemma version_slices (pkg x : string) :
  let lp := Z.of_nat (String.length (pkg +:+ "-")) in
  let ext_len := (- Z.of_nat (String.length extension))%Z in
  (slice x (Some ext_len) None = extension ∧
   slice x None (Some lp) = pkg +:+ "-") ↔
  x = pkg +:+ "-" +:+ slice x (Some lp) (Some ext_len) +:+ extension.
Proof.
  intros lp ext_len. unfold lp, ext_len.
  rewrite slice_suffix, slice_prefix, slice_middle by (simpl; lia).
  cbv zeta. set (l := list_ascii_of_string x).
  set (pre := list_ascii_of_string (pkg +:+ "-")).
  set (suf := list_ascii_of_string extension).
  rewrite <- !list_ascii_length. fold pre suf.
  split.
  - intros [Hsuf Hpre].
    apply (f_equal list_ascii_of_string) in Hsuf, Hpre.
    rewrite list_ascii_of_string_of_list_ascii in Hsuf, Hpre.
    fold suf in Hsuf. fold pre in Hpre.
    assert (length pre ≤ length l) as Hlp.
    { apply (f_equal length) in Hpre. rewrite length_take in Hpre. lia. }
    apply list_ascii_inj. fold l.
    rewrite ebuild_name_chars.
    rewrite list_ascii_of_string_of_list_ascii. fold pre suf.
    rewrite Nat.min_l by done.
    apply (affixes_apart l pre suf "-"); try done.
    + apply last_dash.
    + apply dash_not_in_extension.
  - intros Hx. apply (f_equal list_ascii_of_string) in Hx.
    rewrite ebuild_name_chars in Hx.
    rewrite list_ascii_of_string_of_list_ascii in Hx. fold l pre suf in Hx.
    set (mid := take (length l - length suf - Nat.min (length pre) (length l))
                     (drop (Nat.min (length pre) (length l)) l)) in Hx.
    split.
    + rewrite <- (string_of_list_ascii_of_string extension). fold suf.
      f_equal. rewrite Hx at 2. rewrite Hx at 1.
      rewrite !length_app, !drop_app.
      replace (length pre + (length mid + length suf) - length suf
               - length pre - length mid) with 0 by lia.
      rewrite (drop_ge pre), (drop_ge mid) by lia. done.
    + rewrite <- (string_of_list_ascii_of_string (pkg +:+ "-")). fold pre.
      f_equal. rewrite Hx. by rewrite take_app_length.
Qed.

Section versions.
Variable base : string.
Variable listdir_files : string → result (list string).

Lemma get_versions_elem (cat pkg : string) (files vs : list string)
    (v : string) :
  listdir_files (pjoin (pjoin base cat) pkg) = Ok files →
  _get_versions base listdir_files (cat, pkg) = Ok vs →
  v ∈ vs ↔ (pkg +:+ "-" +:+ v +:+ extension) ∈ files.
Proof.
  unfold _get_versions. cbn [fst snd]. intros -> [= <-].
  change 7 with (String.length extension).
  rewrite list_elem_of_fmap. split.
  - intros (x & -> & [Hx Hin]%list_elem_of_filter).
    apply version_slices in Hx. by rewrite <- Hx.
  - intros Hin.
    set (x := pkg +:+ "-" +:+ v +:+ extension) in *.
    assert (∃ w, x = pkg +:+ "-" +:+ w +:+ extension) as Hshape by by exists v.
    assert (slice x (Some (Z.of_nat (String.length (pkg +:+ "-"))))
              (Some (- Z.of_nat (String.length extension))%Z) = v) as Hv.
    { rewrite slice_middle by (simpl; lia). cbv zeta.
      rewrite <- (string_of_list_ascii_of_string v). f_equal.
      unfold x. rewrite ebuild_name_chars.
      rewrite <- (list_ascii_length (pkg +:+ "-")), <- (list_ascii_length extension).
      set (pre := list_ascii_of_string (pkg +:+ "-")).
      set (suf := list_ascii_of_string extension).
      set (mid := list_ascii_of_string v).
      rewrite !length_app, Nat.min_l by lia.
      rewrite drop_app_length.
      replace (length pre + (length mid + length suf) - length suf - length pre)
        with (length mid) by lia.
      by rewrite take_app_length. }
    exists x. split; [done|]. apply list_elem_of_filter. split; [|done].
    apply version_slices. by rewrite Hv.
Qed.

(** Every version that [_get_versions] returns for a package names a file
    of the package directory, [<package>-<version>.ebuild], and every file
    so named gives its version; no other file does. *)
Theorem versions_are_the_ebuild_files (cat pkg : string)
    (files : list string) :
  listdir_files (pjoin (pjoin base cat) pkg) = Ok files →
  ∃ vs, _get_versions base listdir_files (cat, pkg) = Ok vs ∧
        ∀ v, v ∈ vs ↔ (pkg +:+ "-" +:+ v +:+ ".ebuild") ∈ files.
Proof.
  intros Hfiles.
  destruct (_get_versions base listdir_files (cat, pkg)) as [vs|e] eqn:Hvs.
  - exists vs. split; [done|]. intros v.
    apply (get_versions_elem cat pkg files vs v Hfiles Hvs).
  - unfold _get_versions in Hvs. cbn [fst snd] in Hvs. by rewrite Hfiles in Hvs.
Qed.

(** The path that [_get_ebuild_path] builds for a version listed by
    [_get_versions] is a file of the directory that was listed. *)
Theorem listed_version_has_ebuild_path (cat pkg v : string)
    (vs : list string) :
  _get_versions base listdir_files (cat, pkg) = Ok vs →
  v ∈ vs →
  ∃ files f, listdir_files (pjoin (pjoin base cat) pkg) = Ok files ∧
             f ∈ files ∧
             _get_ebuild_path base (CPV cat pkg v)
             = pjoin (pjoin (pjoin base cat) pkg) f.
Proof.
  intros Hvs Hv.
  destruct (listdir_files (pjoin (pjoin base cat) pkg)) as [files|e] eqn:Hfiles.
  - exists files, (pkg +:+ "-" +:+ v +:+ extension).
    split; [done|]. split; [|done].
    by apply (get_versions_elem cat pkg files vs v Hfiles Hvs).
  - unfold _get_versions in Hvs. cbn [fst snd] in Hvs. rewrite Hfiles in Hvs.
    by destruct (is_EnvironmentError e).
Qed.

End versions.

Section categories.
Variable base : string.
Variable listdir_dirs : string → result (list string).

(** The hard-coded categories of all the trees, in order. *)
Definition hardcoded (hcs : list (option (list string))) : list string :=
  mjoin (omap id hcs).

Lemma collect_categories (trees : list (result (option (list string))))
    (hcs : list (option (list string))) (acc : gset string) :
  Forall2 (λ t hc, t = Ok hc) trees hcs →
  foldM (λ (acc : gset string) hc,
           hc ← hc;
           match hc with
           | Some l => Ok (acc ∪ list_to_set l)
           | None => Ok acc
           end) acc trees
  = Ok (acc ∪ list_to_set (hardcoded hcs)).
Proof.
  intros HF. revert acc.
  induction HF as [|t hc trees hcs -> _ IH]; intros acc.
  - simpl. f_equal. unfold hardcoded. simpl. set_solver.
  - cbn [foldM]. destruct hc as [l|]; simpl.
    + rewrite IH. f_equal. unfold hardcoded. simpl.
      rewrite list_to_set_app_L. set_solver.
    + by rewrite IH.
Qed.

Lemma first_char_slice (c : string) :
  slice c (Some 0%Z) (Some 1%Z) ≠ "." ↔ ∀ rest, c ≠ String "." rest.
Proof.
  destruct c as [|a c]; [done|].
  assert (slice (String a c) (Some 0%Z) (Some 1%Z) = String a "") as ->
    by done.
  split.
  - intros Hne rest [= ->]. done.
  - intros Hne [= ->]. by apply (Hne c).
Qed.

(** The categories of a repository are those its trees hard-code in
    [profiles/categories], each once, without reading the directory; only
    when no tree lists any are they the directories of the repository,
    less the hidden ones and the false categories. *)
Theorem categories_are_hardcoded_or_listed
    (trees : list (result (option (list string))))
    (hcs : list (option (list string))) :
  Forall2 (λ t hc, t = Ok hc) trees hcs →
  if decide (hardcoded hcs = [])
  then
    ∀ dirs, listdir_dirs base = Ok dirs →
      ∃ l, _get_categories base listdir_dirs trees [] = Ok l ∧
           ∀ c, c ∈ l ↔
                c ∈ dirs ∧ (∀ rest, c ≠ String "." rest) ∧
                c ∉ false_categories
  else
    ∃ l, _get_categories base listdir_dirs trees [] = Ok l ∧ NoDup l ∧
         ∀ c, c ∈ l ↔ c ∈ hardcoded hcs.
Proof.
  intros HF. unfold _get_categories.
  rewrite bool_decide_eq_false_2 by (by intros Hne; apply Hne).
  rewrite (collect_categories trees hcs ∅ HF). simpl.
  destruct (decide (hardcoded hcs = [])) as [Hnil|Hcons].
  - intros dirs ->. rewrite Hnil.
    rewrite bool_decide_eq_false_2 by (intros Hne; apply Hne; set_solver).
    eexists. split; [done|]. intros c.
    rewrite !list_elem_of_filter, first_char_slice. tauto.
  - rewrite bool_decide_eq_true_2.
    2:{ intros Hempty. destruct (hardcoded hcs) as [|c l]; [done|].
        set_solver. }
    eexists. split; [done|]. split; [apply NoDup_elements|].
    intros c. rewrite elem_of_elements. set_solver.
Qed.

End categories.

(** *** [_visibility_limiters] *)

Section limiters.
Context {A : Type}.
Variable atom : string → result A.
Variable base : string.
Variable has_profile_data_dirs : bool.
Variable sorted_scan : string → result (list string).
Variable iter_read_bash : string → result (list (nat * string)).

Abbreviation limiters := (limiters (A:=A)).

(** What a line of a mask file contributes. *)
Definition atom_of (s : string) : option A :=
  match atom s with
  | Ok a => Some a
  | Raise _ => None
  end.
Definition neg_of (raw : string) : option A :=
  let line := strip raw in
  if decide (line = "-") then None
  else if String.prefix "-" line then atom_of (str_drop 1 line) else None.
Definition pos_of (raw : string) : option A :=
  let line := strip raw in
  if decide (line = "-") then None
  else if String.prefix "-" line then None else atom_of line.
Definition warning_of (ln : string * (nat * string)) : option warning :=
  let line := strip ln.2.2 in
  if decide (line = "-") then Some (ln.1, ln.2.1, EmptyNegation)
  else
    match atom (if String.prefix "-" line then str_drop 1 line else line) with
    | Ok _ => None
    | Raise _ => Some (ln.1, ln.2.1, Malformed)
    end.

(** The lines of the files, each with the path of its file. *)
Definition tagged (paths : list string) (liness : list (list (nat * string)))
    : list (string * (nat * string)) :=
  mjoin (zip_with (λ p ls, (p ,.) <$> ls) paths liness).

Definition grown (st : limiters) (lns : list (string * (nat * string)))
    : limiters :=
  Limiters (neg st ++ omap neg_of lns.*2.*2)
           (pos st ++ omap pos_of lns.*2.*2)
           (warnings st ++ omap warning_of lns).

Lemma grown_nil (st : limiters) : grown st [] = st.
Proof. destruct st. unfold grown. simpl. by rewrite !app_nil_r. Qed.

Lemma grown_app (st : limiters) (l1 l2 : list (string * (nat * string))) :
  grown (grown st l1) l2 = grown st (l1 ++ l2).
Proof.
  unfold grown. simpl. rewrite !fmap_app, !omap_app, !app_assoc. done.
Qed.

Lemma loop_app {S X} (body : S → X → S * option exn) (st : S)
    (l1 l2 : list X) :
  loop body st (l1 ++ l2)
  = match loop body st l1 with
    | (st1, None) => loop body st1 l2
    | r => r
    end.
Proof.
  revert st. induction l1 as [|x l1 IH]; intros st; simpl; [done|].
  destruct (body st x) as [st' [e|]]; [done|]. apply IH.
Qed.

Section total.
Hypothesis atom_raises : ∀ s e, atom s = Raise e → e = MalformedAtom.

Lemma limiter_line_grown (path : string) (st : limiters) (ln : nat * string) :
  limiter_line atom path st ln = (grown st [(path, ln)], None).
Proof.
  destruct ln as [lineno raw]. destruct st as [n p w].
  unfold limiter_line, grown, neg_of, pos_of, warning_of, atom_of, warn.
  cbn [fmap list_fmap omap list_omap fst snd neg pos warnings].
  destruct (decide (strip raw = "-")) as [Hd|Hd].
  - by rewrite !app_nil_r.
  - destruct (String.prefix "-" (strip raw)).
    + destruct (atom (str_drop 1 (strip raw))) as [a|e] eqn:Ha.
      * by rewrite !app_nil_r.
      * rewrite (atom_raises _ _ Ha). by rewrite !app_nil_r.
    + destruct (atom (strip raw)) as [a|e] eqn:Ha.
      * by rewrite !app_nil_r.
      * rewrite (atom_raises _ _ Ha). by rewrite !app_nil_r.
Qed.

Lemma limiter_lines_grown (path : string) (st : limiters)
    (lines : list (nat * string)) :
  loop (limiter_line atom path) st lines
  = (grown st ((path ,.) <$> lines), None).
Proof.
  revert st. induction lines as [|ln lines IH]; intros st.
  - simpl. by rewrite grown_nil.
  - cbn [loop]. rewrite limiter_line_grown, IH, grown_app. done.
Qed.

Lemma limiter_files_grown (st : limiters) (paths : list string)
    (liness : list (list (nat * string))) :
  Forall2 (λ p ls, iter_read_bash p = Ok ls) paths liness →
  loop (limiter_file atom iter_read_bash) st paths
  = (grown st (tagged paths liness), None).
Proof.
  intros HF. revert st.
  induction HF as [|p ls paths liness Hp _ IH]; intros st.
  - simpl. by rewrite grown_nil.
  - cbn [loop]. unfold limiter_file at 1. rewrite Hp.
    rewrite limiter_lines_grown, IH, grown_app. done.
Qed.

(** When the mask files can be read, [_visibility_limiters] does not raise:
    it returns the atoms of the lines that start with [-] and the atoms of
    the other lines, each in the order of the files, and logs one warning
    for every bare [-] and for every line whose atom is malformed; those
    lines give no atom. *)
Theorem limiters_skip_bad_lines (paths : list string)
    (liness : list (list (nat * string))) :
  (if has_profile_data_dirs
   then sorted_scan (pjoin (pjoin base "profiles") "package.mask")
   else Ok [pjoin (pjoin base "profiles") "package.mask"]) = Ok paths →
  Forall2 (λ p ls, iter_read_bash p = Ok ls) paths liness →
  let lns := tagged paths liness in
  _visibility_limiters atom base has_profile_data_dirs sorted_scan
    iter_read_bash
  = (Ok (omap neg_of lns.*2.*2, omap pos_of lns.*2.*2),
     omap warning_of lns).
Proof.
  intros Hpaths HF lns. unfold _visibility_limiters.
  rewrite Hpaths, (limiter_files_grown _ paths liness HF). done.
Qed.

End total.

(** A mask file that is missing ends the reading without an error: the
    limiters are those of the files before it, and the files after it are
    not read. *)
Theorem missing_mask_file_ends_reading (pre post : list string)
    (p : string) :
  (if has_profile_data_dirs
   then sorted_scan (pjoin (pjoin base "profiles") "package.mask")
   else Ok [pjoin (pjoin base "profiles") "package.mask"])
  = Ok (pre ++ p :: post) →
  iter_read_bash p = Raise FileNotFoundError →
  _visibility_limiters atom base has_profile_data_dirs sorted_scan
    iter_read_bash
  = _visibility_limiters atom base true (λ _, Ok pre) iter_read_bash.
Proof.
  intros Hpaths Hp. unfold _visibility_limiters. rewrite Hpaths.
  rewrite loop_app.
  destruct (loop (limiter_file atom iter_read_bash) (Limiters [] [] []) pre)
    as [st [e|]]; [done|].
  cbn [loop]. unfold limiter_file at 1. rewrite Hp. done.
Qed.

End limiters.

(** *** [_sort_eclasses] *)

(** The eclass directories of the caches, in the order they are searched. *)
Definition cache_dirs (c : eclass_cache) : list string :=
  match c with
  | Single c => [cache_path c]
  | StackedCaches cs _ _ => cache_path <$> cs
  end.

Lemma repo_map_lookup (configured : list repo_config)
    (m : gmap string string) (x l : string) :
  foldl (λ m r, <[repo_id r := location r]> m) m configured !! x = Some l →
  m !! x = Some l ∨
  ∃ r, r ∈ configured ∧ repo_id r = x ∧ location r = l.
Proof.
  revert m. induction configured as [|r configured IH]; intros m; simpl.
  - by left.
  - intros [Hm|(r' & Hin & Hid & Hloc)]%IH.
    + destruct (decide (repo_id r = x)) as [Hx|Hx].
      * rewrite <- Hx, lookup_insert_eq in Hm. injection Hm as <-.
        right. exists r. split; [apply list_elem_of_here|done].
      * rewrite lookup_insert_ne in Hm by done. by left.
    + right. exists r'. split; [by apply list_elem_of_further|done].
Qed.

Lemma mapM_result_elem {X Y} (f : X → result Y) (l : list X) (k : list Y)
    (y : Y) :
  mapM f l = Ok k → y ∈ k → ∃ x, x ∈ l ∧ f x = Ok y.
Proof.
  revert k. induction l as [|x l IH]; intros k; simpl.
  - intros [= <-] Hy. by apply elem_of_nil in Hy.
  - destruct (f x) as [y'|] eqn:Hx; [|done]. simpl.
    destruct (mapM f l) as [k'|] eqn:Hl; [|done]. simpl.
    intros [= <-] [->|Hy]%elem_of_cons.
    + exists x. split; [apply list_elem_of_here|done].
    + destruct (IH k' eq_refl Hy) as (x' & Hin & Hfx).
      exists x'. split; [by apply list_elem_of_further|done].
Qed.

Lemma stacked_dirs (loc : string) (l : list string) :
  ∀ r,
    match (λ x, Cache (pjoin x "eclass") loc) <$> l with
    | [c] => Ok (Single c)
    | _ => Ok (StackedCaches
                 (reverse ((λ x, Cache (pjoin x "eclass") loc) <$> l))
                 loc loc)
    end = Ok r →
    cache_dirs r = reverse ((λ x, pjoin x "eclass") <$> l).
Proof.
  intros r.
  assert (cache_path <$> reverse ((λ x, Cache (pjoin x "eclass") loc) <$> l)
          = reverse ((λ x, pjoin x "eclass") <$> l)) as Hdirs.
  { rewrite <- !fmap_reverse, <- list_fmap_compose. done. }
  destruct l as [|x [|y l]].
  - intros [= <-]. done.
  - intros [= <-]. done.
  - intros [= <-]. exact Hdirs.
Qed.

(** The eclass directory of the repository itself is always among the
    caches that [_sort_eclasses] returns, and it is the one searched first
    unless a configured master of the repository has the same location. *)
Theorem own_eclasses_come_first (default : option repo_config)
    (configured : list repo_config) (rc : repo_config) (r : eclass_cache) :
  _sort_eclasses default configured rc = Ok r →
  pjoin (location rc) "eclass" ∈ cache_dirs r ∧
  (head (cache_dirs r) = Some (pjoin (location rc) "eclass") ∨
   ∃ ms m, masters rc = Some ms ∧ m ∈ configured ∧ repo_id m ∈ ms ∧
           location m = location rc).
Proof.
  unfold _sort_eclasses.
  set (loc := match default with
              | Some d => if _missing_masters rc then location d
                          else location rc
              | None => location rc
              end).
  destruct (masters rc) as [[|x ms]|] eqn:Hms.
  1,3: (change (Ok [loc] ≫= ?f) with (f [loc]); cbv beta;
        case_bool_decide as Hin;
        intros Hr; apply stacked_dirs in Hr; rewrite Hr;
        [apply list_elem_of_singleton in Hin; rewrite <- Hin;
         split; [apply list_elem_of_here|by left]
        |rewrite fmap_app, reverse_app;
         split; [apply list_elem_of_here|by left]]).
  set (repo_map := foldl (λ m r, <[repo_id r := location r]> m) ∅ configured).
  set (lookup := λ x, match repo_map !! x with
                      | Some l => Ok l
                      | None => Raise KeyError
                      end).
  destruct (mapM lookup (x :: ms)) as [e0|] eqn:He0; [|done].
  change (Ok e0 ≫= ?f) with (f e0). cbv beta.
  case_bool_decide as Hin;
    intros Hr; apply stacked_dirs in Hr; rewrite Hr; clear Hr.
  - split.
    + apply elem_of_reverse, list_elem_of_fmap. by exists (location rc).
    + right.
      destruct (mapM_result_elem lookup (x :: ms) e0 (location rc) He0 Hin)
        as (y & Hy & Hlook).
      unfold lookup in Hlook.
      destruct (repo_map !! y) as [l|] eqn:Hl; [|done].
      injection Hlook as ->.
      apply repo_map_lookup in Hl as [Hl|(m & Hm & Hid & Hloc)];
        [by rewrite lookup_empty in Hl|].
      exists (x :: ms), m. by rewrite Hid.
  - rewrite fmap_app, reverse_app. split; [apply list_elem_of_here|].
    by left.
Qed.

(** *** [ProvidesRepo.__init__] *)

(** The versions stored under a category and a package. *)
Definition stored_versions (d : versions_dict) (c p : string)
    : option (list string) :=
  d !! c ≫= (.!! p).

Definition versions_of (pkgs : list cpv) (c p : string) : list string :=
  fullver <$> filter (λ x, category x = c ∧ package x = p) pkgs.

Lemma stored_versions_provide (d : versions_dict) (x : cpv) (c p : string) :
  stored_versions (provide d x) c p
  = if decide (category x = c ∧ package x = p)
    then Some (default [] (stored_versions d c p) ++ [fullver x])
    else stored_versions d c p.
Proof.
  unfold stored_versions, provide.
  destruct (decide (category x = c)) as [<-|Hc].
  - rewrite lookup_insert_eq. simpl.
    destruct (decide (package x = p)) as [<-|Hp].
    + rewrite lookup_insert_eq, decide_True by done.
      by destruct (d !! category x).
    + rewrite lookup_insert_ne, decide_False by tauto.
      by destruct (d !! category x).
  - rewrite lookup_insert_ne, decide_False by tauto. done.
Qed.

Lemma provide_inner_nonempty (d : versions_dict) (x : cpv) :
  (∀ c inner, d !! c = Some inner → inner ≠ ∅) →
  ∀ c inner, provide d x !! c = Some inner → inner ≠ ∅.
Proof.
  intros Hd c inner. unfold provide.
  destruct (decide (category x = c)) as [<-|Hc].
  - rewrite lookup_insert_eq. intros [= <-]. apply insert_non_empty.
  - rewrite lookup_insert_ne by done. apply Hd.
Qed.

Lemma provided_spec (pkgs : list cpv) :
  let d := foldl provide ∅ pkgs in
  (∀ c p, stored_versions d c p
          = match versions_of pkgs c p with
            | [] => None
            | vs => Some vs
            end) ∧
  (∀ c inner, d !! c = Some inner → inner ≠ ∅) ∧
  (d = ∅ ↔ pkgs = []).
Proof.
  induction pkgs as [|x pkgs IH] using rev_ind; simpl.
  - split; [|split]; [done| |done].
    intros c inner. by rewrite lookup_empty.
  - destruct IH as (IH1 & IH2 & IH3). rewrite foldl_app. simpl.
    split; [|split].
    + intros c p. rewrite stored_versions_provide, IH1.
      unfold versions_of. rewrite filter_app, fmap_app.
      destruct (decide (category x = c ∧ package x = p)) as [Hx|Hx].
      * rewrite filter_cons_True by done. simpl.
        by destruct (fullver <$> filter _ pkgs).
      * rewrite filter_cons_False by done. simpl. rewrite app_nil_r. done.
    + by apply provide_inner_nonempty.
    + split.
      * intros Hempty. exfalso. apply (insert_non_empty _ _ _ Hempty).
      * intros Hnil. by destruct pkgs.
Qed.

(** The dictionary that [ProvidesRepo] hands to [SimpleTree] holds, under
    each category and package, the versions of the provided packages of that
    name in the order given, and nothing else: no category without a
    package, no package without a version.  The repository answers without
    looking exactly when nothing is provided. *)
Theorem provided_versions_are_grouped (pkgs : list cpv) :
  let r := ProvidesRepo_init pkgs in
  (∀ c p vs, stored_versions (versions r) c p = Some vs ↔
             vs ≠ [] ∧ vs = versions_of pkgs c p) ∧
  (∀ c inner, versions r !! c = Some inner →
              inner ≠ ∅ ∧ ∀ p vs, inner !! p = Some vs → vs ≠ []) ∧
  (answers_empty r = true ↔ pkgs = []).
Proof.
  destruct (provided_spec pkgs) as (H1 & H2 & H3). simpl.
  split; [|split].
  - intros c p vs. rewrite H1.
    destruct (versions_of pkgs c p) as [|v l].
    + split; [done|]. by intros [? ->].
    + split; [by intros [= <-]|]. by intros [_ ->].
  - intros c inner Hc. split; [by apply (H2 c)|].
    intros p vs Hp.
    assert (stored_versions (foldl provide ∅ pkgs) c p = Some vs) as Hs
      by (unfold stored_versions; rewrite Hc; done).
    rewrite H1 in Hs. destruct (versions_of pkgs c p); [done|].
    by injection Hs as <-.
  - rewrite bool_decide_eq_true. done.
Qed.

(** *** [ConfiguredTree.__init__] *)

Lemma upper_names :
  upper "cbuild" = "CBUILD" ∧ upper "ctarget" = "CTARGET" ∧
  upper "cflags" = "CFLAGS" ∧ upper "cxxflags" = "CXXFLAGS" ∧
  upper "ldflags" = "LDFLAGS".
Proof. by vm_compute. Qed.

Lemma missing_required (s : gmap string string) :
  required_settings ∖ dom s = ∅ ↔
  is_Some (s !! "USE") ∧ is_Some (s !! "CHOST").
Proof.
  unfold required_settings. rewrite <- !elem_of_dom. split.
  - intros Hempty. split.
    + destruct (decide ("USE" ∈ dom s)) as [|Hn]; [done|].
      exfalso. apply (not_elem_of_empty (C:=gset string) "USE").
      rewrite <- Hempty. set_solver.
    + destruct (decide ("CHOST" ∈ dom s)) as [|Hn]; [done|].
      exfalso. apply (not_elem_of_empty (C:=gset string) "CHOST").
      rewrite <- Hempty. set_solver.
  - intros [? ?]. set_solver.
Qed.

(** The constructor of [ConfiguredTree] gets past its settings exactly when
    the domain settings hold [USE], [CHOST], [CFLAGS], [CXXFLAGS] and
    [LDFLAGS].  Only a missing [USE] or [CHOST] is reported as an
    [InitializationError]; a missing flags variable raises [KeyError].
    [cbuild] and [ctarget] default to [CHOST]. *)
Theorem configured_tree_needs_five_settings (s : gmap string string) :
  match scope_update s with
  | inl m =>
      ∃ chost cflags cxxflags ldflags,
        is_Some (s !! "USE") ∧ s !! "CHOST" = Some chost ∧
        s !! "CFLAGS" = Some cflags ∧ s !! "CXXFLAGS" = Some cxxflags ∧
        s !! "LDFLAGS" = Some ldflags ∧
        m !! "chost" = Some (Setting chost) ∧
        m !! "cbuild" = Some (Setting (default chost (s !! "CBUILD"))) ∧
        m !! "ctarget" = Some (Setting (default chost (s !! "CTARGET"))) ∧
        m !! "cflags" = Some (Setting cflags) ∧
        m !! "cxxflags" = Some (Setting cxxflags) ∧
        m !! "ldflags" = Some (Setting ldflags)
  | inr (InitializationError missing) =>
      missing = required_settings ∖ dom s ∧
      (s !! "USE" = None ∨ s !! "CHOST" = None)
  | inr (Py e) =>
      e = KeyError ∧ is_Some (s !! "USE") ∧ is_Some (s !! "CHOST") ∧
      (s !! "CFLAGS" = None ∨ s !! "CXXFLAGS" = None ∨ s !! "LDFLAGS" = None)
  end.
Proof.
  unfold scope_update.
  destruct upper_names as (Hcb & Hct & Hcf & Hcx & Hld).
  case_bool_decide as Hmiss.
  - split; [done|].
    destruct (s !! "USE") eqn:HU; [|by left].
    destruct (s !! "CHOST") eqn:HC; [|by right].
    exfalso. apply Hmiss. apply missing_required. by rewrite HU, HC.
  - apply missing_required in Hmiss as [HU HC].
    destruct (s !! "CHOST") as [chost|] eqn:Hchost; [|by destruct HC].
    cbn [foldl]. rewrite Hcb, Hct, Hcf, Hcx, Hld.
    destruct (s !! "CFLAGS") as [cflags|] eqn:Hcflags; [|by eauto 10].
    destruct (s !! "CXXFLAGS") as [cxxflags|] eqn:Hcxxflags; [|by eauto 10].
    destruct (s !! "LDFLAGS") as [ldflags|] eqn:Hldflags; [|by eauto 10].
    exists chost, cflags, cxxflags, ldflags.
    repeat (split; [done|]).
    repeat split; by vm_compute.
Qed.

End RepoTreeFacts.

Module FilterYieldFacts.
Import Repository FilterFacts.

Section pkg_filter.
Context {Pkg VAtom : Type} `{Countable VAtom}.
Variable versioned_atom : Pkg → VAtom.

Abbreviation masked_repo := (gmap VAtom (MetadataException (Pkg:=Pkg))).

Lemma filter_step_yield ev (m m' : masked_repo) (p q : Pkg) :
  filter_step versioned_atom ev m p = Ok (Some q, m') →
  q = p ∧ m' = m ∧ check ev p = inl None ∧ m !! versioned_atom p = None.
Proof.
  unfold filter_step, in_masked. case_bool_decide as Hm; [done|].
  destruct (check ev p) as [[e|]|[e| |e]]; try done.
  intros [= <- <-]. repeat split; [].
  destruct (m !! versioned_atom p) eqn:Hp; [|done].
  exfalso. apply Hm. by eexists.
Qed.


End pkg_filter.
End FilterYieldFacts.

Module RepoTreeExamples.
Import Profiles RepoTree RepoTreeFacts.

(** A package directory with one ebuild of the package among other
    files. *)
Definition foo_files : list string :=
  ["foo-1.0.ebuild"; "Manifest"; "foo-1.0.ebuild.orig"; "foobar-2.ebuild";
   "metadata.xml"].
Definition foo_dir (path : string) : result (list string) := Ok foo_files.

Lemma versions_are_the_ebuild_files_witness :
  ∃ vs, _get_versions "/repo" foo_dir ("dev-util", "foo") = Ok vs ∧
        ∀ v, v ∈ vs ↔ ("foo" +:+ "-" +:+ v +:+ ".ebuild") ∈ foo_files.
Proof.
  apply (versions_are_the_ebuild_files "/repo" foo_dir "dev-util" "foo").
  reflexivity.
Defined.

Lemma listed_version_has_ebuild_path_witness :
  ∃ files f, foo_dir (pjoin (pjoin "/repo" "dev-util") "foo") = Ok files ∧
             f ∈ files ∧
             _get_ebuild_path "/repo" (CPV "dev-util" "foo" "1.0")
             = pjoin (pjoin (pjoin "/repo" "dev-util") "foo") f.
Proof.
  apply (listed_version_has_ebuild_path "/repo" foo_dir "dev-util" "foo"
           "1.0" ["1.0"]).
  - by vm_compute.
  - apply list_elem_of_here.
Defined.

Lemma categories_are_hardcoded_or_listed_witness :
  ∃ l, _get_categories "/repo" (λ _, Raise OSError)
         [Ok (Some ["dev-util"; "sys-apps"]); Ok None;
          Ok (Some ["sys-apps"])] [] = Ok l ∧
       NoDup l ∧
       ∀ c, c ∈ l ↔ c ∈ ["dev-util"; "sys-apps"; "sys-apps"].
Proof.
  assert (Forall2 (λ t hc, t = Ok hc)
            [Ok (Some ["dev-util"; "sys-apps"]); Ok None;
             Ok (Some ["sys-apps"])]
            [Some ["dev-util"; "sys-apps"]; None; Some ["sys-apps"]]) as HF
    by repeat constructor.
  exact (categories_are_hardcoded_or_listed "/repo" (λ _, Raise OSError)
           _ _ HF).
Defined.

(** An atom parser that rejects one name. *)
Definition atom (s : string) : result string :=
  if decide (s = "bad") then Raise MalformedAtom else Ok s.
Definition mask : string := "/repo/profiles/package.mask".
Definition mask_file (path : string) : result (list (nat * string)) :=
  Ok [(1, "cat/pkg"); (2, " - "); (3, "-cat/old"); (5, "bad")].

Lemma limiters_skip_bad_lines_witness :
  _visibility_limiters atom "/repo" false (λ _, Ok []) mask_file
  = (Ok (["cat/old"], ["cat/pkg"]),
     [(mask, 2, EmptyNegation); (mask, 5, Malformed)]).
Proof.
  assert (∀ s e, atom s = Raise e → e = MalformedAtom) as Hraises.
  { intros s e. unfold atom. case_decide; [by intros [= <-]|done]. }
  assert (Forall2 (λ p ls, mask_file p = Ok ls) [mask]
            [[(1, "cat/pkg"); (2, " - "); (3, "-cat/old"); (5, "bad")]])
    as HF by repeat constructor.
  pose proof (limiters_skip_bad_lines atom "/repo" false (λ _, Ok [])
                mask_file Hraises [mask] _ eq_refl HF) as Hrun.
  cbv zeta in Hrun. rewrite Hrun. by vm_compute.
Defined.

(** A directory of three mask files, the second of which has vanished. *)
Definition mask_part (path : string) : result (list (nat * string)) :=
  if decide (path = "b") then Raise FileNotFoundError
  else Ok [(1, path)].

Lemma missing_mask_file_ends_reading_witness :
  _visibility_limiters atom "/repo" true (λ _, Ok ["a"; "b"; "c"]) mask_part
  = _visibility_limiters atom "/repo" true (λ _, Ok ["a"]) mask_part.
Proof.
  apply (missing_mask_file_ends_reading atom "/repo" true
           (λ _, Ok ["a"; "b"; "c"]) mask_part ["a"] ["c"] "b");
    reflexivity.
Defined.

(** An overlay with one master. *)
Definition gentoo : repo_config := RepoConfig "/gentoo" "gentoo" (Some []) false.
Definition overlay : repo_config :=
  RepoConfig "/overlay" "overlay" (Some ["gentoo"]) false.

Lemma own_eclasses_come_first_witness :
  ∃ r, _sort_eclasses (Some gentoo) [gentoo; overlay] overlay = Ok r ∧
       pjoin (location overlay) "eclass" ∈ cache_dirs r ∧
       (head (cache_dirs r) = Some (pjoin (location overlay) "eclass") ∨
        ∃ ms m, masters overlay = Some ms ∧ m ∈ [gentoo; overlay] ∧
                repo_id m ∈ ms ∧ location m = location overlay).
Proof.
  destruct (_sort_eclasses (Some gentoo) [gentoo; overlay] overlay)
    as [r|] eqn:Hr; [|by vm_compute in Hr].
  exists r. split; [done|].
  exact (own_eclasses_come_first (Some gentoo) [gentoo; overlay] overlay r Hr).
Defined.

End RepoTreeExamples.

Module UpdateOutputFacts.
Import PkgUpdates UpdateFacts.

(** A line with nothing but white space on it. *)
Fixpoint all_space (s : string) : bool :=
  match s with
  | EmptyString => true
  | String c s' => is_space c && all_space s'
  end.

Lemma split_go_some cur s : split_go (Some cur) s ≠ [].
Proof.
  revert cur. induction s as [|c s IH]; intros cur; simpl; [done|].
  destruct (is_space c); [done|apply IH].
Qed.

Lemma str_split_nil s : str_split s = [] ↔ all_space s = true.
Proof.
  unfold str_split. induction s as [|c s IH]; simpl; [done|].
  destruct (is_space c); simpl; [done|].
  split; [|done]. intros Hs. by destruct (split_go_some _ _ Hs).
Qed.

Section updates.
Context {A : Type} `{AtomOps A}.

Abbreviation command := (@PkgUpdates.command A).
Abbreviation item := (@PkgUpdates.item A).
Abbreviation state := (@PkgUpdates.state A).
Abbreviation event := (@UpdateFacts.event A).

Lemma commands_of_init : commands_of (init (A:=A)) = Some (Ok ∅).
Proof.
  rewrite commands_of_total by apply inv_init.
  unfold flatten_mods. simpl. by rewrite fmap_empty, omap_empty.
Qed.

(** A directory that is missing, or holds no file named like an updates
    file, gives the empty mapping. *)
Theorem no_update_files_no_commands (dir : directory) :
  (∀ fs, dir = Some fs →
         Forall (λ f, valid_updates_re_match f.1 = None) fs) →
  read_updates (A:=A) dir = Some (Ok ∅).
Proof.
  intros Hnone. unfold read_updates. destruct dir as [fs|].
  - assert (_scan_directory (fst <$> fs) = []) as Hscan.
    { apply Permutation_nil_r. rewrite ScanFacts.scan_directory_perm.
      specialize (Hnone fs eq_refl).
      induction Hnone as [|f fs Hf _ IH]; [done|].
      rewrite fmap_cons, filter_cons, decide_False; [done|].
      rewrite Hf. by intros [? ?]. }
    rewrite ScanFacts.process_directory_some, Hscan. simpl.
    apply commands_of_init.
  - simpl. apply commands_of_init.
Qed.

(** A blank line stops [read_updates] with [IndexError], if no line before
    it raised. *)
Theorem blank_line_raises_IndexError (fs : list (string * list string))
    (pre post : list (string * (nat * string)))
    (ln : string * (nat * string)) (st : state) :
  tagged_lines fs = pre ++ ln :: post →
  foldM step init pre = Ok st →
  all_space ln.2.2 = true →
  read_updates (Some fs) = Some (Raise IndexError).
Proof.
  intros Hlines Hpre Hblank. unfold read_updates.
  rewrite process_directory_lines, Hlines, for_each_app.
  rewrite (for_each_ok _ _ _ Hpre). simpl.
  unfold step_turn at 1, line_turn. destruct ln as [fn [n raw]]. simpl in *.
  apply str_split_nil in Hblank. unfold process_line. by rewrite Hblank.
Qed.

(** *** From the mapping back to the state *)

Lemma read_updates_state dir (m : gmap string (list command)) :
  read_updates dir = Some (Ok m) →
  ∃ st err, process_directory dir = (st, err) ∧
            inv (fuel_of st) st ∧ commands_of st = Some (Ok m).
Proof.
  unfold read_updates.
  destruct (process_directory dir) as [st err] eqn:Hdir. intros Hm.
  exists st, err. split; [done|].
  split; [by eapply inv_process_directory|].
  by destruct err as [[]|].
Qed.

Lemma commands_of_lookup_inv (st : state) m k cs :
  inv (fuel_of st) st → commands_of st = Some (Ok m) → m !! k = Some cs →
  ∃ hd tl l, mods st !! k = Some (hd, tl) ∧ E st hd l ∧
             list_ok st k tl l ∧ cs = cmds l.
Proof.
  intros Hinv Hm Hk. rewrite commands_of_total in Hm by done.
  injection Hm as <-. rewrite lookup_omap in Hk.
  destruct (mods st !! k) as [[hd tl]|] eqn:Hmods.
  2:{ unfold flatten_mods in Hk. by rewrite lookup_fmap, Hmods in Hk. }
  destruct (Hinv _ _ _ Hmods) as (l & Hl & Hok).
  assert (E st hd l) as HE by (by eexists).
  exists hd, tl, l. split; [done|]. split; [done|]. split; [done|].
  rewrite (commands_of_lookup st k hd tl l Hinv Hmods HE) in Hk.
  simpl in Hk. destruct (cmds l); [done|]. by injection Hk.
Qed.

(** No command list holds two moves that start from its own key. *)
Theorem one_move_from_own_key (dir : directory)
    (m : gmap string (list command)) (k : string) (cs : list command) :
  read_updates dir = Some (Ok m) → m !! k = Some cs →
  moves_from k cs ≤ 1.
Proof.
  intros (st & err & _ & Hinv & Hm)%read_updates_state Hk.
  destruct (commands_of_lookup_inv st m k cs Hinv Hm Hk)
    as (hd & tl & l & _ & _ & Hok & ->).
  rewrite moves_from_cmds. apply Hok.
Qed.

(** *** Where the commands come from *)

(** A slotmove line that passes the checks on its form: four tokens, an
    atom without a slot, and the two atoms built from it parse.  The
    result is the source atom and the command recorded for it. *)
Definition parse_slotmove (raw : string) : option (A * command) :=
  match str_split raw with
  | [cmd; a; old_slot; new_slot] =>
      if decide (cmd = "slotmove"%string) then
        match atom a with
        | Ok src =>
            match slot src,
                  atom (atom_str src +:+ ":" +:+ old_slot),
                  atom (key src +:+ ":" +:+ new_slot) with
            | None, Ok src_slot, Ok _ =>
                Some (src, SlotMove src_slot new_slot)
            | _, _, _ => None
            end
        | Raise _ => None
        end
      else None
  | _ => None
  end.

(** The command a line asks for, if any. *)
Definition line_command (raw : string) : option command :=
  match parse_move raw with
  | Some (src, trg) => Some (Move src trg)
  | None => snd <$> parse_slotmove raw
  end.

Lemma process_line_slotmove fn (st : state) n raw src c :
  parse_slotmove raw = Some (src, c) →
  process_line fn st (n, raw)
  = match moved st !! key src with
    | Some to =>
        Ok (emit (LogRecord LWarning (AlreadyMoved src to) fn n raw) st)
    | None => Ok (slotmove_result src c st)
    end.
Proof.
  unfold parse_slotmove, process_line.
  destruct (str_split raw) as [|cmd [|a [|o [|nw [|? ?]]]]]; try done.
  destruct (decide (cmd = "slotmove"%string)) as [->|]; [|done].
  destruct (decide ("slotmove"%string = "move"%string)) as [?|_]; [done|].
  destruct (atom a) as [src'|]; [|done]. simpl.
  destruct (slot src') eqn:Hslot; [done|].
  destruct (atom (atom_str src' +:+ _)) as [ss|] eqn:Hss; [|done].
  destruct (atom (key src' +:+ _)) as [ts|] eqn:Hts; [|done].
  intros [= -> <-]. destruct (moved st !! key src); [done|].
  simpl. unfold slotmove_result.
  by destruct (mods_get (key src) st) as [[hS tS] st1].
Qed.

(** Command [c] sits in some deque of the store. *)
Definition stored (h : list (list item)) (c : command) : Prop :=
  ∃ d its, h !! d = Some its ∧ ICmd c ∈ its.

Lemma cmds_elem (c : command) (l : list event) : c ∈ cmds l ↔ EvCmd c ∈ l.
Proof.
  unfold cmds. rewrite list_elem_of_omap. split.
  - by intros ([c'|d] & Hin & [= ->]).
  - intros Hin. by exists (EvCmd c).
Qed.

Lemma eflat_stored F h d (l : list event) c :
  eflat F h d = Some l → EvCmd c ∈ l → stored h c.
Proof.
  revert d l. induction F as [|F IH]; intros d l; [done|].
  intros (its & ls & Hd & Hits & ->)%eflat_S Hin.
  apply elem_of_app in Hin as [Hin|Hin];
    [|by apply list_elem_of_singleton in Hin].
  apply list_elem_of_join in Hin as (l' & Hc & Hl').
  apply list_elem_of_lookup in Hl' as [i Hi].
  destruct (Forall2_lookup_r _ _ _ _ _ Hits Hi) as (it & Hit & Hev).
  destruct it as [c'|d']; simpl in Hev.
  - injection Hev as <-. apply list_elem_of_singleton in Hc as [= ->].
    exists d, its. split; [done|]. by eapply list_elem_of_lookup_2.
  - by eapply IH.
Qed.

Lemma stored_alloc (st : state) c :
  stored (heap (alloc st).2) c → stored (heap st) c.
Proof.
  intros (d & its & Hd & Hin). simpl in Hd.
  apply lookup_app_Some in Hd as [Hd|[_ Hd]]; [by exists d, its|].
  apply list_lookup_singleton_Some in Hd as [_ <-].
  by apply elem_of_nil in Hin.
Qed.

Lemma stored_mods_get k (st : state) v st' c :
  mods_get k st = (v, st') → stored (heap st') c → stored (heap st) c.
Proof.
  unfold mods_get. destruct (mods st !! k); [by intros [= _ <-]|].
  intros [= _ <-]. apply stored_alloc.
Qed.

Lemma stored_extend t xs (st : state) c :
  stored (heap (extend t xs st)) c → stored (heap st) c ∨ ICmd c ∈ xs.
Proof.
  intros (d & its & Hd & Hin). simpl in Hd.
  destruct (decide (d = t)) as [->|Hne].
  - rewrite list_lookup_alter_eq in Hd.
    destruct (heap st !! t) as [its0|] eqn:Ht; [|done].
    injection Hd as <-. apply elem_of_app in Hin as [Hin|Hin]; [|by right].
    left. by exists t, its0.
  - rewrite list_lookup_alter_ne in Hd by done. left. by exists d, its.
Qed.

(** A line that asks for nothing leaves the store alone. *)
Lemma process_line_other fn (st : state) n raw st' :
  parse_move raw = None → parse_slotmove raw = None →
  process_line fn st (n, raw) = Ok st' → heap st' = heap st.
Proof.
  unfold parse_move, parse_slotmove, process_line.
  destruct (str_split raw) as [|cmd args]; [done|].
  destruct (decide (cmd = "move"%string)) as [->|Hnm].
  - destruct args as [|s [|t [|? ?]]]; try (by intros _ _ [= <-]).
    destruct (atom s) as [src|]; simpl; [|done].
    destruct (atom t) as [trg|]; simpl; [|done].
    destruct (fullver src); [by intros _ _ [= <-]|].
    destruct (fullver trg); [by intros _ _ [= <-]|]. done.
  - intros _.
    destruct (decide (cmd = "slotmove"%string)) as [->|Hns];
      [|by intros _ [= <-]].
    destruct args as [|a [|o [|nw [|? ?]]]]; try (by intros _ [= <-]).
    destruct (atom a) as [src|]; simpl; [|done].
    destruct (moved st !! key src); [by intros _ [= <-]|].
    destruct (slot src); [by intros _ [= <-]|].
    destruct (atom (atom_str src +:+ _)) as [ss|]; simpl; [|done].
    destruct (atom (key src +:+ _)) as [ts|]; simpl; [|done]. done.
Qed.

(** What a line adds to the store is the command it asks for. *)
Lemma process_line_stored fn (st : state) n raw st' c :
  process_line fn st (n, raw) = Ok st' → stored (heap st') c →
  stored (heap st) c ∨ line_command raw = Some c.
Proof.
  intros Hline Hc.
  destruct (parse_move raw) as [[src trg]|] eqn:Hmove.
  { rewrite (process_line_move _ _ _ _ _ _ Hmove) in Hline.
    destruct (moved st !! key src); [injection Hline as <-; by left|].
    injection Hline as <-. unfold move_result in Hc.
    destruct (alloc st) as [d st1] eqn:Halloc.
    destruct (mods_get (key src) st1) as [[hS tS] st2] eqn:HS.
    destruct (mods_get (key trg) _) as [[hT tT] st3] eqn:HT.
    change (stored (heap (extend tT [IRef d] st3)) c) in Hc.
    apply stored_extend in Hc as [Hc|Hc];
      [|by apply list_elem_of_singleton in Hc].
    apply (stored_mods_get _ _ _ _ _ HT) in Hc.
    apply stored_extend in Hc as [Hc|Hc].
    - left. apply (stored_mods_get _ _ _ _ _ HS) in Hc.
      replace st1 with (alloc st).2 in Hc by (by rewrite Halloc).
      by apply stored_alloc.
    - right. unfold line_command. rewrite Hmove.
      apply elem_of_cons in Hc as [[= ->]|Hc]; [done|].
      by apply list_elem_of_singleton in Hc. }
  destruct (parse_slotmove raw) as [[src c']|] eqn:Hslot.
  { rewrite (process_line_slotmove _ _ _ _ _ _ Hslot) in Hline.
    destruct (moved st !! key src); [injection Hline as <-; by left|].
    injection Hline as <-. unfold slotmove_result in Hc.
    destruct (mods_get (key src) st) as [[hS tS] st1] eqn:HS.
    apply stored_extend in Hc as [Hc|Hc].
    - left. by apply (stored_mods_get _ _ _ _ _ HS) in Hc.
    - right. unfold line_command. rewrite Hmove, Hslot.
      by apply list_elem_of_singleton in Hc as [= ->]. }
  left. by rewrite <- (process_line_other _ _ _ _ _ Hmove Hslot Hline).
Qed.

Lemma run_stored lns (st st' : state) c :
  foldM step st lns = Ok st' → stored (heap st') c →
  stored (heap st) c ∨
  ∃ ln, ln ∈ lns ∧ line_command ln.2.2 = Some c.
Proof.
  revert st. induction lns as [|[fn [n raw]] lns IH]; intros st; simpl.
  - intros [= <-]. by left.
  - destruct (step st _) as [st1|] eqn:Hline; simpl; [|done].
    intros Hrest Hc. destruct (IH st1 Hrest Hc) as [Hc1|(ln & Hin & Hln)].
    + destruct (process_line_stored _ _ _ _ _ _ Hline Hc1) as [?|Hraw];
        [by left|].
      right. exists (fn, (n, raw)). split; [left|done].
    + right. exists ln. split; [by right|done].
Qed.

(** Every command in the result was asked for by a line of the
    directory. *)
Theorem every_command_has_a_line (fs : list (string * list string))
    (m : gmap string (list command)) (k : string) (cs : list command)
    (c : command) :
  read_updates (Some fs) = Some (Ok m) → m !! k = Some cs → c ∈ cs →
  ∃ ln, ln ∈ tagged_lines fs ∧ line_command ln.2.2 = Some c.
Proof.
  intros (st & err & Hdir & Hinv & Hm)%read_updates_state Hk Hc.
  destruct (commands_of_lookup_inv st m k cs Hinv Hm Hk)
    as (hd & tl & l & _ & [F HF] & _ & ->).
  apply cmds_elem in Hc. apply (eflat_stored _ _ _ _ _ HF) in Hc.
  rewrite process_directory_lines in Hdir.
  apply for_each_prefix in Hdir as (l1 & l2 & Hlines & Hrun & _).
  destruct (run_stored _ _ _ _ Hrun Hc) as [(d & its & Hd & _)|(ln & Hin & Hln)].
  - done.
  - exists ln. split; [|done]. rewrite Hlines. apply elem_of_app. by left.
Qed.

(** *** Slotmoves *)

(** Command [c] is in the list of key [k]. *)
Definition listed (c : command) (k : string) (st : state) : Prop :=
  ∃ hd tl l, mods st !! k = Some (hd, tl) ∧ E st hd l ∧ EvCmd c ∈ l.

Lemma follows_listed (st st' : state) σ c k :
  follows st st' σ → listed c k st → listed c k st'.
Proof.
  intros [[_ _ Hkeeps] Hflat Htail] (hd & tl & l & Hk & HE & Hin).
  destruct (Htail _ _ _ Hk) as (tl' & Hk' & _).
  exists hd, tl', (σ l). split; [done|]. split; [by apply Hflat|].
  by apply Hkeeps.
Qed.

Lemma run_listed lns (st st' : state) c k :
  foldM step st lns = Ok st' → inv (fuel_of st) st →
  listed c k st → listed c k st'.
Proof.
  revert st. induction lns as [|[fn [n raw]] lns IH]; intros st; simpl.
  - by intros [= <-].
  - destruct (step st _) as [st1|] eqn:Hline; simpl; [|done].
    intros Hrest Hinv Hl. apply (IH st1); [done|by eapply inv_line|].
    destruct (line_follows _ _ _ _ _ Hline Hinv) as [[σ Hfol] _].
    by eapply follows_listed.
Qed.

Lemma slotmove_listed src c (st : state) :
  inv (fuel_of st) st → listed c (key src) (slotmove_result src c st).
Proof.
  intros Hinv.
  destruct (slotmove_prepare src c st Hinv)
    as (hS & tS & st1 & -> & Hinv1 & HkS & _).
  destruct (Hinv1 _ _ _ HkS) as (l & Hl & Hok).
  exists hS, tS, (apply (at_end tS [EvCmd c]) l). split; [done|].
  split; [eexists; simpl; by apply eflat_append_cmd|].
  apply apply_inserts; [apply Hok|by left].
Qed.

(** A well-formed slotmove line for a key that no earlier line has moved
    puts its command into the list of that key, if no line raises. *)
Theorem slotmove_is_recorded (fs : list (string * list string))
    (pre post : list (string * (nat * string)))
    (ln : string * (nat * string)) (src : A) (c : command) :
  tagged_lines fs = pre ++ ln :: post →
  parse_slotmove ln.2.2 = Some (src, c) →
  Forall (λ l, move_source (key src) l.2.2 = false) pre →
  (∃ st, foldM step init (tagged_lines fs) = Ok st) →
  ∃ m cs, read_updates (Some fs) = Some (Ok m) ∧
          m !! key src = Some cs ∧ c ∈ cs.
Proof.
  intros Hlines Hparse Hpre [st Hrun]. pose proof Hrun as Hall.
  rewrite Hlines, foldM_app in Hrun.
  destruct (foldM step init pre) as [st0|] eqn:Hrun0; [|done].
  pose proof (run_inv _ _ _ Hrun0 (inv_init _)) as Hinv0.
  assert (moved st0 !! key src = None) as Hnone
    by (by eapply run_moved_absent; [apply Hrun0|apply inv_init|..]).
  destruct ln as [fn [n raw]]. simpl in Hparse.
  assert (step st0 (fn, (n, raw)) = Ok (slotmove_result src c st0)) as Hstep.
  { unfold step. cbn [fst snd].
    by rewrite (process_line_slotmove _ _ _ _ _ _ Hparse), Hnone. }
  change (foldM step st0 ((fn, (n, raw)) :: post) = Ok st) in Hrun.
  rewrite (foldM_cons_ok _ _ _ _ _ Hstep) in Hrun.
  pose proof (inv_line _ _ _ _ Hstep Hinv0) as Hinv1.
  destruct (run_listed _ _ _ _ _ Hrun Hinv1 (slotmove_listed src c st0 Hinv0))
    as (hd & tl & l & Hk & HE & Hin).
  destruct (read_updates_lookup fs st (key src) hd tl l Hall Hk HE)
    as (m & Hm & Hlook).
  { apply cmds_elem in Hin. intros Hnil. rewrite Hnil in Hin.
    by apply elem_of_nil in Hin. }
  exists m, (cmds l). split; [done|]. split; [done|]. by apply cmds_elem.
Qed.

End updates.
End UpdateOutputFacts.

Module UpdateOutputExamples.
Import PkgUpdates SimpleAtom UpdateFacts UpdateOutputFacts UpdateExamples.

Lemma no_update_files_no_commands_witness :
  read_updates (A:=SimpleAtom.t)
    (Some [("README"%string, ["move a/a b/b"%string])])
  = Some (Ok ∅).
Proof.
  apply no_update_files_no_commands. intros fs [= <-].
  by repeat constructor.
Defined.

Definition gap_dir : list (string * list string) :=
  [("1Q-2019"%string, ["move a/a b/b"; "  "; "move b/b c/c"]%string)].

Lemma blank_line_raises_IndexError_witness :
  read_updates (A:=SimpleAtom.t) (Some gap_dir) = Some (Raise IndexError).
Proof.
  destruct (foldM step init [chain_line 1 "move a/a b/b"])
    as [st|] eqn:Hpre; [|by vm_compute in Hpre].
  exact (blank_line_raises_IndexError gap_dir
           [chain_line 1 "move a/a b/b"] [chain_line 3 "move b/b c/c"]
           (chain_line 2 "  ") st eq_refl Hpre eq_refl).
Defined.

Lemma one_move_from_own_key_witness :
  ∃ m cs, read_updates (Some chain_dir) = Some (Ok m) ∧
          m !! "a/a"%string = Some cs ∧ moves_from "a/a" cs ≤ 1.
Proof.
  destruct (read_updates (Some chain_dir)) as [[m|]|] eqn:Hr;
    [|by vm_compute in Hr..].
  destruct (m !! "a/a"%string) as [cs|] eqn:Hk.
  2:{ exfalso. vm_compute in Hr. injection Hr as <-. by vm_compute in Hk. }
  exists m, cs. split; [done|]. split; [done|].
  exact (one_move_from_own_key (Some chain_dir) m "a/a" cs Hr Hk).
Defined.

Lemma every_command_has_a_line_witness :
  ∃ m cs, read_updates (Some chain_dir) = Some (Ok m) ∧
          m !! "a/a"%string = Some cs ∧
          Move (pkg "b/b") (pkg "c/c") ∈ cs ∧
          ∃ ln, ln ∈ tagged_lines chain_dir ∧
                line_command ln.2.2 = Some (Move (pkg "b/b") (pkg "c/c")).
Proof.
  destruct (read_updates (Some chain_dir)) as [[m|]|] eqn:Hr;
    [|by vm_compute in Hr..].
  destruct (m !! "a/a"%string) as [cs|] eqn:Hk.
  2:{ exfalso. vm_compute in Hr. injection Hr as <-. by vm_compute in Hk. }
  assert (Move (pkg "b/b") (pkg "c/c") ∈ cs) as Hc.
  { vm_compute in Hr. injection Hr as <-. vm_compute in Hk.
    injection Hk as <-. apply list_elem_of_further, list_elem_of_here. }
  exists m, cs. split; [done|]. split; [done|]. split; [done|].
  exact (every_command_has_a_line chain_dir m "a/a" cs _ Hr Hk Hc).
Defined.

Definition slot_dir : list (string * list string) :=
  [("2Q-2020"%string, ["slotmove a/a 0 1"; "move a/a b/b"]%string)].

Lemma slotmove_is_recorded_witness :
  ∃ m cs, read_updates (Some slot_dir) = Some (Ok m) ∧
          m !! key (pkg "a/a") = Some cs ∧
          SlotMove (SimpleAtom.Atom "a/a" None (Some "0")) "1" ∈ cs.
Proof.
  apply (slotmove_is_recorded slot_dir []
           [("2Q-2020"%string, (2, "move a/a b/b"%string))]
           ("2Q-2020"%string, (1, "slotmove a/a 0 1"%string))
           (pkg "a/a")
           (SlotMove (SimpleAtom.Atom "a/a" None (Some "0")) "1")).
  - reflexivity.
  - reflexivity.
  - constructor.
  - eexists. vm_compute. reflexivity.
Defined.

End UpdateOutputExamples.

Module RpcStreamFacts.
Import AgentRPC RpcFacts.

Section stream.
Context `{JsonCodec}.

(** The value [v] can travel: it is encoded as [s], which decodes back to
    [v] and fits the length prefix. *)
Definition sendable (v : json) (s : list byte) : Prop :=
  json_dumps v = Ok s ∧ json_loads s = Ok v ∧
  (N.of_nat (length s) < 2 ^ 32)%N.

(** Several messages written, then as many read. *)
Definition write_all (rpc : JsonRPC) (vs : list json) (w : world)
    : result world :=
  foldM (λ w v, write rpc v w) w vs.

Fixpoint read_n (rpc : JsonRPC) (n : nat) (w : world)
    : result (list json * world) :=
  match n with
  | 0 => Ok ([], w)
  | S n' =>
      '(v, w) ← read rpc w;
      '(vs, w) ← read_n rpc n' w;
      Ok (v :: vs, w)
  end.

(** What a pipe holds. *)
Definition pending (w : world) (p : nat) : list byte :=
  default [] (pipe_buf w !! p).

Lemma os_read_pending fd n w p xs ys :
  fd_pipe w !! fd = Some p → pending w p = xs ++ ys →
  length xs = N.to_nat n →
  ∃ w', os_read fd n w = Ok (xs, w') ∧ fd_pipe w' = fd_pipe w ∧
        pending w' p = ys.
Proof.
  intros Hfd Hbuf Hlen. unfold os_read, pending in *. rewrite Hfd, Hbuf.
  eexists. split; [by rewrite <- Hlen, take_app_length, drop_app_length|].
  simpl. by rewrite lookup_insert_eq.
Qed.

Lemma os_write_pending fd bs w p :
  fd_pipe w !! fd = Some p →
  ∃ w', os_write fd bs w = Ok w' ∧ fd_pipe w' = fd_pipe w ∧
        pending w' p = pending w p ++ bs.
Proof.
  intros Hfd. unfold os_write, pending. rewrite Hfd.
  eexists. split; [done|]. simpl. by rewrite lookup_insert_eq.
Qed.

(** [write] appends the length prefix and the encoding to what the pipe
    holds. *)
Lemma write_appends rpc v s w p :
  fd_pipe w !! out_pipe_ rpc = Some p → sendable v s →
  ∃ szs w', struct_pack_L (N.of_nat (length s)) = Ok szs ∧
            write rpc v w = Ok w' ∧ fd_pipe w' = fd_pipe w ∧
            pending w' p = pending w p ++ szs ++ s.
Proof.
  intros Hout (Hdumps & _ & Hlen).
  destruct (struct_pack_L (N.of_nat (length s))) as [szs|e] eqn:Hpack.
  2:{ unfold struct_pack_L in Hpack.
      apply N.ltb_lt in Hlen. by rewrite Hlen in Hpack. }
  destruct (os_write_pending _ szs w p Hout) as (w1 & Hw1 & Hfd1 & Hbuf1).
  rewrite <- Hfd1 in Hout.
  destruct (os_write_pending _ s w1 p Hout) as (w2 & Hw2 & Hfd2 & Hbuf2).
  exists szs, w2. split; [done|].
  unfold write. rewrite Hdumps. simpl. rewrite Hpack. simpl.
  rewrite Hw1. simpl. split; [done|]. split; [congruence|].
  by rewrite Hbuf2, Hbuf1, app_assoc.
Qed.

(** [read] takes one message off the front of the pipe and leaves the
    rest. *)
Lemma read_takes rpc v s szs rest w p :
  fd_pipe w !! in_pipe_ rpc = Some p → sendable v s →
  struct_pack_L (N.of_nat (length s)) = Ok szs →
  pending w p = szs ++ s ++ rest →
  ∃ w', read rpc w = Ok (v, w') ∧ fd_pipe w' = fd_pipe w ∧
        pending w' p = rest.
Proof.
  intros Hin (_ & Hloads & _) Hpack Hbuf.
  destruct (unpack_pack _ _ Hpack) as [Hunpack Hszs].
  destruct (os_read_pending _ 4 w p szs (s ++ rest) Hin Hbuf)
    as (w1 & Hr1 & Hfd1 & Hbuf1); [by rewrite Hszs|].
  rewrite <- Hfd1 in Hin.
  destruct (os_read_pending _ (N.of_nat (length s)) w1 p s rest Hin Hbuf1)
    as (w2 & Hr2 & Hfd2 & Hbuf2); [by rewrite Nat2N.id|].
  exists w2. unfold read. rewrite Hr1. simpl. rewrite Hunpack. simpl.
  rewrite Hr2. simpl. rewrite Hloads. simpl.
  split; [done|]. split; [congruence|done].
Qed.

(** The bytes of a run of messages on the wire. *)
Inductive wire : list json → list byte → Prop :=
| wire_nil : wire [] []
| wire_cons v s szs vs bs :
    sendable v s → struct_pack_L (N.of_nat (length s)) = Ok szs →
    wire vs bs → wire (v :: vs) (szs ++ s ++ bs).

Lemma write_all_appends rpc vs w p :
  fd_pipe w !! out_pipe_ rpc = Some p →
  Forall (λ v, ∃ s, sendable v s) vs →
  ∃ bs w', wire vs bs ∧ write_all rpc vs w = Ok w' ∧
           fd_pipe w' = fd_pipe w ∧ pending w' p = pending w p ++ bs.
Proof.
  intros Hout Hvs. revert w Hout.
  induction Hvs as [|v vs [s Hs] _ IH]; intros w Hout.
  - exists [], w. split; [constructor|]. by rewrite app_nil_r.
  - destruct (write_appends rpc v s w p Hout Hs)
      as (szs & w1 & Hpack & Hw1 & Hfd1 & Hbuf1).
    rewrite <- Hfd1 in Hout.
    destruct (IH w1 Hout) as (bs & w2 & Hwire & Hw2 & Hfd2 & Hbuf2).
    exists (szs ++ s ++ bs), w2. split; [by econstructor|].
    unfold write_all in *. simpl. rewrite Hw1. simpl.
    split; [done|]. split; [congruence|].
    by rewrite Hbuf2, Hbuf1, <- !app_assoc.
Qed.

Lemma read_n_takes rpc vs bs rest w p :
  fd_pipe w !! in_pipe_ rpc = Some p →
  wire vs bs → pending w p = bs ++ rest →
  ∃ w', read_n rpc (length vs) w = Ok (vs, w') ∧
        fd_pipe w' = fd_pipe w ∧ pending w' p = rest.
Proof.
  intros Hin Hwire. revert w Hin.
  induction Hwire as [|v s szs vs bs Hs Hpack _ IH]; intros w Hin Hbuf.
  - by exists w.
  - rewrite <- !app_assoc in Hbuf.
    destruct (read_takes rpc v s szs (bs ++ rest) w p Hin Hs Hpack Hbuf)
      as (w1 & Hr1 & Hfd1 & Hbuf1).
    rewrite <- Hfd1 in Hin.
    destruct (IH w1 Hin Hbuf1) as (w2 & Hr2 & Hfd2 & Hbuf2).
    exists w2. simpl. rewrite Hr1. simpl. rewrite Hr2. simpl.
    split; [done|]. split; [congruence|done].
Qed.

(** Messages written back to back on an empty pipe are read back one by
    one, in the order in which they were written, and nothing is left in
    the pipe. *)
Theorem messages_arrive_in_order (writer reader : JsonRPC)
    (vs : list json) (w : world) (p : nat) :
  fd_pipe w !! out_pipe_ writer = Some p →
  fd_pipe w !! in_pipe_ reader = Some p →
  pending w p = [] →
  Forall (λ v, ∃ s, sendable v s) vs →
  ∃ w1 w2, write_all writer vs w = Ok w1 ∧
           read_n reader (length vs) w1 = Ok (vs, w2) ∧
           pending w2 p = [].
Proof.
  intros Hout Hin Hempty Hvs.
  destruct (write_all_appends writer vs w p Hout Hvs)
    as (bs & w1 & Hwire & Hw1 & Hfd1 & Hbuf1).
  rewrite Hempty in Hbuf1. simpl in Hbuf1. rewrite <- Hfd1 in Hin.
  destruct (read_n_takes reader vs bs [] w1 p Hin Hwire)
    as (w2 & Hr2 & _ & Hbuf2); [by rewrite app_nil_r|].
  by exists w1, w2.
Qed.


Lemma unpack_short bs : length bs < 4 → struct_unpack_L bs = Raise StructError.
Proof. by destruct bs as [|? [|? [|? [|? ?]]]]; simpl; try lia. Qed.


(** *** What [agent_rpc_call] makes of a reply *)

(** The exchange up to the point where the reply has been read. *)
Definition exchanged (environ : gmap string string)
    (request : list (string * json)) (w : world) (repl : json) (w2 : world)
    : Prop :=
  ∃ fds i o w1,
    environ !! "CB_AGENT_RPC_FDS"%string = Some fds ∧
    mapM int (str_split fds) = Ok [i; o] ∧
    write (MkJsonRPC i o) (JDict request) w = Ok w1 ∧
    read (MkJsonRPC i o) w1 = Ok (repl, w2).

Lemma check_echo_dict repl request :
  check_echo (JDict repl) request = Ok tt ∨
  check_echo (JDict repl) request = Raise KeyError ∨
  check_echo (JDict repl) request = Raise AssertionError.
Proof.
  unfold check_echo.
  induction request as [|[k v] request IH]; simpl; [by left|].
  destruct (assoc k repl) as [x|]; simpl; [|by right; left].
  destruct (json_eqb x v); simpl; [apply IH|by right; right].
Qed.

Lemma check_echo_mismatch repl request k v :
  (k, v) ∈ request →
  match assoc k repl with
  | Some x => json_eqb x v = false
  | None => True
  end →
  check_echo (JDict repl) request ≠ Ok tt.
Proof.
  unfold check_echo.
  induction request as [|[k' v'] request IH]; intros Hin Hbad; simpl.
  - by apply elem_of_nil in Hin.
  - apply elem_of_cons in Hin as [[= <- <-]|Hin].
    + destruct (assoc k repl) as [x|]; simpl; [|done]. by rewrite Hbad.
    + destruct (assoc k' repl) as [x|]; simpl; [|done].
      destruct (json_eqb x v'); simpl; [by apply IH|done].
Qed.

(** A reply that echoes the request and reports success, or reports
    failure together with an error, is handed to the caller as it is. *)
Theorem well_formed_reply_is_returned (environ : gmap string string)
    (request request' repl : list (string * json)) (w w2 : world)
    (st : json) :
  exchanged environ request w (JDict repl) w2 →
  py_del "status" request = Ok request' →
  check_echo (JDict repl) request' = Ok tt →
  assoc "status" repl = Some st →
  json_eqb st (JStr "success") = true ∨
  (json_eqb st (JStr "failure") = true ∧ is_Some (assoc "error" repl)) →
  agent_rpc_call environ request w = Ok (JDict repl, w2).
Proof.
  intros (fds & i & o & w1 & Henv & Hfds & Hwrite & Hread) Hdel Hecho Hst Hok.
  unfold agent_rpc_call. rewrite Henv, Hfds. simpl. rewrite Hwrite. simpl.
  unfold read_reply. rewrite Hread. simpl. rewrite Hdel. simpl.
  rewrite Hecho. simpl. rewrite Hst. simpl.
  destruct Hok as [Hs|[Hf He]]; [by rewrite Hs|].
  destruct (json_eqb st (JStr "success")); [done|].
  unfold check_failure. simpl. rewrite Hst. simpl. rewrite Hf. simpl.
  by rewrite bool_decide_eq_true_2.
Qed.

(** A reply dict is rejected with [GenericBuildError] when a request field
    other than [status] is missing from it or differs in it, and when its
    [status] is neither [success] nor a [failure] that carries an
    [error]. *)
Theorem bad_reply_raises_GenericBuildError (environ : gmap string string)
    (request request' repl : list (string * json)) (w w2 : world) :
  exchanged environ request w (JDict repl) w2 →
  py_del "status" request = Ok request' →
  (∃ k v, (k, v) ∈ request' ∧
          match assoc k repl with
          | Some x => json_eqb x v = false
          | None => True
          end) ∨
  (∃ st, assoc "status" repl = Some st ∧
         json_eqb st (JStr "success") = false ∧
         (json_eqb st (JStr "failure") = false ∨ assoc "error" repl = None)) →
  agent_rpc_call environ request w = Raise malformed.
Proof.
  intros (fds & i & o & w1 & Henv & Hfds & Hwrite & Hread) Hdel Hbad.
  unfold agent_rpc_call. rewrite Henv, Hfds. simpl. rewrite Hwrite. simpl.
  unfold read_reply. rewrite Hread. simpl. rewrite Hdel. simpl.
  destruct (check_echo_dict repl request') as [Hecho|[Hecho|Hecho]];
    rewrite Hecho; simpl; try done.
  destruct Hbad as [(k & v & Hin & Hk)|(st & Hst & Hs & Hf)].
  { by destruct (check_echo_mismatch repl request' k v Hin Hk). }
  rewrite Hst. simpl. rewrite Hs.
  unfold check_failure. simpl. rewrite Hst. simpl.
  destruct Hf as [Hf|He]; [by rewrite Hf|].
  destruct (json_eqb st (JStr "failure")); [|done]. simpl.
  rewrite He. by rewrite bool_decide_eq_false_2 by (by intros [? ?]).
Qed.

End stream.
End RpcStreamFacts.

Module RpcStreamExamples.
Import AgentRPC RpcFacts RpcStreamFacts.

(** A reply to [TableCodec.request] that reports success, and one with a
    status nobody knows. *)
Definition ok_reply : list (string * json) :=
  [("id"%string, JNum 7); ("status"%string, JStr "success")].
Definition odd_reply : list (string * json) :=
  [("id"%string, JNum 7); ("status"%string, JStr "maybe")].

Definition table : list (json * list byte) :=
  [(JDict TableCodec.request, TableCodec.request_bytes);
   (JDict ok_reply, list_byte_of_string "ok-7");
   (JDict odd_reply, list_byte_of_string "odd-7");
   (JNull, list_byte_of_string "null")].

(** Descriptor 3 reads from pipe 0, descriptor 4 writes to pipe 1; pipe 0
    holds [bs]. *)
Definition world_with (bs : list byte) : world :=
  World {[ 3%Z := 0; 4%Z := 1 ]} {[ 0 := bs; 1 := [] ]}.

Definition environ : gmap string string :=
  {[ "CB_AGENT_RPC_FDS"%string := "3 4"%string ]}.

Lemma messages_arrive_in_order_witness :
  let _ := TableCodec.codec table in
  ∃ w1 w2,
    write_all (MkJsonRPC 6 5) [JNull; JDict ok_reply; JNull]
      TableCodec.pipe_world = Ok w1 ∧
    read_n (MkJsonRPC 6 5) 3 w1 = Ok ([JNull; JDict ok_reply; JNull], w2) ∧
    pending w2 0 = [].
Proof.
  intros codec.
  apply (messages_arrive_in_order (MkJsonRPC 6 5) (MkJsonRPC 6 5)
           [JNull; JDict ok_reply; JNull] TableCodec.pipe_world 0).
  - reflexivity.
  - reflexivity.
  - reflexivity.
  - repeat constructor.
    + exists (list_byte_of_string "null"). by vm_compute.
    + exists (list_byte_of_string "ok-7"). by vm_compute.
    + exists (list_byte_of_string "null"). by vm_compute.
Defined.

(** A codec whose encodings are all 2^32 bytes long. *)
Definition long_codec : JsonCodec := {|
  json_dumps := λ _, Ok (replicate (N.to_nat (2 ^ 32)) "000"%byte);
  json_loads := λ _, Ok JNull;
|}.



Lemma exchange_example (bs : list byte) (repl : list (string * json)) :
  let _ := TableCodec.codec table in
  (∀ w1, write (MkJsonRPC 3 4) (JDict TableCodec.request) (world_with bs)
         = Ok w1 →
         ∃ w2, read (MkJsonRPC 3 4) w1 = Ok (JDict repl, w2)) →
  ∃ w2, exchanged environ TableCodec.request (world_with bs) (JDict repl) w2.
Proof.
  intros codec Hread.
  destruct (write (MkJsonRPC 3 4) (JDict TableCodec.request) (world_with bs))
    as [w1|] eqn:Hw; [|by vm_compute in Hw].
  destruct (Hread w1 eq_refl) as [w2 Hr].
  exists w2, "3 4"%string, 3%Z, 4%Z, w1. by repeat split.
Qed.

Lemma well_formed_reply_is_returned_witness :
  let _ := TableCodec.codec table in
  let w := world_with (["000"; "000"; "000"; "004"]%byte
                         ++ list_byte_of_string "ok-7") in
  ∃ w2,
    exchanged environ TableCodec.request w (JDict ok_reply) w2 ∧
    agent_rpc_call environ TableCodec.request w = Ok (JDict ok_reply, w2).
Proof.
  intros codec w.
  destruct (exchange_example
              (["000"; "000"; "000"; "004"]%byte
                 ++ list_byte_of_string "ok-7") ok_reply)
    as [w2 Hex].
  { intros w1 Hw. vm_compute in Hw. injection Hw as <-.
    eexists. by vm_compute. }
  exists w2. split; [exact Hex|].
  apply (well_formed_reply_is_returned environ TableCodec.request
           [("id"%string, JNum 7)] ok_reply w w2 (JStr "success") Hex).
  - reflexivity.
  - reflexivity.
  - reflexivity.
  - by left.
Defined.

Lemma bad_reply_raises_GenericBuildError_witness :
  let _ := TableCodec.codec table in
  let w := world_with (["000"; "000"; "000"; "005"]%byte
                         ++ list_byte_of_string "odd-7") in
  ∃ w2,
    exchanged environ TableCodec.request w (JDict odd_reply) w2 ∧
    agent_rpc_call environ TableCodec.request w = Raise malformed.
Proof.
  intros codec w.
  destruct (exchange_example
              (["000"; "000"; "000"; "005"]%byte
                 ++ list_byte_of_string "odd-7") odd_reply)
    as [w2 Hex].
  { intros w1 Hw. vm_compute in Hw. injection Hw as <-.
    eexists. by vm_compute. }
  exists w2. split; [exact Hex|].
  apply (bad_reply_raises_GenericBuildError environ TableCodec.request
           [("id"%string, JNum 7)] odd_reply w w2 Hex).
  - reflexivity.
  - right. exists (JStr "maybe"). split; [reflexivity|].
    split; [reflexivity|]. by left.
Defined.

End RpcStreamExamples.
